(** * Yield statistics of the api-gateway: a shallow embedding

    The gateway computes, for every tracked pool address, five yield
    figures out of four reference snapshots (first, last, a week ago,
    yesterday).  The arithmetic is done with the [decimal.js] class
    [Decimal] under its default configuration (precision 20,
    ROUND_HALF_UP, exponent limits 9e15, toExpNeg -7, toExpPos 21); the
    window boundaries are computed with ECMAScript [Date] objects.

    Layout of the development:
    - [Js]: exceptions as a result type, decimal digit strings;
    - [DecimalJS]: the fragment of [decimal.js] the handlers call;
    - [JsNumber]: the few IEEE doubles the handlers build;
    - [JsDate]: time values, UTC and local calendar fields;
    - [Prisma]: the rows and the query interface of the store;
    - the handlers of [api/stats] themselves;
    - the properties. *)

From Stdlib Require Import ZArith NArith QArith Qpower Lqa String Ascii List Bool Lia.
From Corelib Require SpecFloat.
Import ListNotations.

Local Open Scope string_scope.
Local Open Scope Z_scope.

(* ------------------------------------------------------------------ *)
(** ** Exceptions and digit strings                                    *)
(* ------------------------------------------------------------------ *)

Module Js.

(** A JavaScript computation either returns or throws an [Error] whose
    message is kept. *)
Inductive result (A : Type) : Type :=
| Ok (a : A)
| Throw (msg : string).
Arguments Ok {A} a.
Arguments Throw {A} msg.

Definition bind {A B} (r : result A) (k : A -> result B) : result B :=
  match r with
  | Ok a => k a
  | Throw m => Throw m
  end.

Definition returns {A} (r : result A) : Prop := exists a, r = Ok a.

(** [s.repeat(k)] for the one-character string ["0"]
    ([getZeroString] of decimal.js). *)
Fixpoint getZeroString (k : nat) : string :=
  match k with
  | O => ""
  | S k' => String "0" (getZeroString k')
  end.

Definition digit_char (d : N) : ascii :=
  Ascii.ascii_of_N (48 + d).

Definition is_digit (a : ascii) : bool :=
  let n := Ascii.N_of_ascii a in ((48 <=? n) && (n <=? 57))%N.

Definition digit_val (a : ascii) : N := (Ascii.N_of_ascii a - 48)%N.

(** Decimal digits of a natural number, most significant first, without
    leading zeros (["0"] for zero). *)
Fixpoint digits_fuel (fuel : nat) (n : N) (acc : string) : string :=
  match fuel with
  | O => String (digit_char (n mod 10)) acc
  | S f =>
      if (n <? 10)%N then String (digit_char n) acc
      else digits_fuel f (n / 10) (String (digit_char (n mod 10)) acc)
  end.

Definition digits (n : N) : string :=
  digits_fuel (N.to_nat (N.size n)) n "".

(** Number of decimal digits (1 for zero). *)
Fixpoint ndigits_fuel (fuel : nat) (n : N) : Z :=
  match fuel with
  | O => 1
  | S f => if (n <? 10)%N then 1 else 1 + ndigits_fuel f (n / 10)
  end.

Definition ndigits (n : N) : Z :=
  ndigits_fuel (N.to_nat (N.size n)) n.

(** [String(z)] for an integer-valued number below 1e21 in magnitude. *)
Definition string_of_Z (z : Z) : string :=
  match z with
  | Zneg p => String "-" (digits (Npos p))
  | _ => digits (Z.to_N z)
  end.

(** Reads a maximal run of ASCII digits: the value accumulated onto
    [acc], how many digits were read, and the rest of the string. *)
Fixpoint span_digits (s : string) (acc : N) (cnt : Z) : N * Z * string :=
  match s with
  | String a s' =>
      if is_digit a then span_digits s' (10 * acc + digit_val a)%N (cnt + 1)
      else (acc, cnt, s)
  | EmptyString => (acc, cnt, s)
  end.

(** [haystack.includes(needle)]. *)
Fixpoint prefix_b (p s : string) : bool :=
  match p, s with
  | EmptyString, _ => true
  | String a p', String b s' => Ascii.eqb a b && prefix_b p' s'
  | String _ _, EmptyString => false
  end.

Fixpoint includes (needle hay : string) : bool :=
  prefix_b needle hay ||
  match hay with
  | EmptyString => false
  | String _ hay' => includes needle hay'
  end.

End Js.

Export Js (result, Ok, Throw).

Notation "x <- c1 ;; c2" := (Js.bind c1 (fun x => c2))
  (at level 61, c1 at next level, right associativity).

(* ------------------------------------------------------------------ *)
(** ** The Number values the handlers build                            *)
(* ------------------------------------------------------------------ *)

(** ECMAScript Numbers are IEEE 754 binary64 values; they are modelled
    by the library's [spec_float] at precision 53 and [emax] 1024, whose
    operations round to nearest, ties to even. *)
Module JsNumber.

Import Js.

Definition prec : Z := 53.
Definition emax : Z := 1024.

Definition number : Type := SpecFloat.spec_float.

Definition NumNaN : number := SpecFloat.S754_nan.
Definition NumInfinity (neg : bool) : number := SpecFloat.S754_infinity neg.

(** An integer literal or an integer-valued result. *)
Definition ofZ (z : Z) : number := SpecFloat.binary_normalize prec emax z 0 false.

Definition sub (x y : number) : number := SpecFloat.SFsub prec emax x y.
Definition div (x y : number) : number := SpecFloat.SFdiv prec emax x y.
Definition mul (x y : number) : number := SpecFloat.SFmul prec emax x y.

Definition ltb (x y : number) : bool := SpecFloat.SFltb x y.
Definition leb (x y : number) : bool := SpecFloat.SFleb x y.
Definition eqb (x y : number) : bool := SpecFloat.SFeqb x y.

(** [Math.ceil]: the least integer not below the argument; [-0] for
    arguments in (-1, 0). *)
Definition ceil (x : number) : number :=
  match x with
  | SpecFloat.S754_finite s m e =>
      if 0 <=? e then x
      else
        let d := 2 ^ (- e) in
        let q := Z.pos m / d in
        let r := Z.pos m mod d in
        if s then (if q =? 0 then SpecFloat.S754_zero true else ofZ (- q))
        else ofZ (if r =? 0 then q else q + 1)
  | _ => x
  end.

(** Whether a finite Number is an odd integer (used by [Math.pow]). *)
Definition isOddInteger (x : number) : bool :=
  match x with
  | SpecFloat.S754_finite _ m e =>
      if 0 <? e then false
      else
        let d := 2 ^ (- e) in
        (Z.pos m mod d =? 0) && Z.odd (Z.pos m / d)
  | _ => false
  end.

(** Integer part of the decimal logarithm of [num/den], plus one: the
    [n] with [10^(n-1) <= num/den < 10^n]. *)
Definition decimal_position (num den : Z) : Z :=
  if den <=? num then ndigits (Z.to_N (num / den))
  else
    let k := ndigits (Z.to_N (den / num)) in
    1 - k + (if num * 10 ^ (k - 1) =? den then 1 else 0).

(** One round of [Number::toString]: for [k] digits at decimal position
    [n], the integers [s] with [s * 10^(n-k)] inside the rounding
    interval [lo, hi] of the value [v] (all three over the common
    denominator [den]); the closest one wins, the even one on a tie. *)
Definition candidate (closed : bool) (v lo hi den n k : Z) : option Z :=
  let p := n - k in
  let a := den * 10 ^ (Z.max p 0) in
  let b := 10 ^ (Z.max (- p) 0) in
  let s1 := (v * b) / a in
  let s2 := s1 + 1 in
  let inside s :=
    if closed then (lo * b <=? s * a) && (s * a <=? hi * b)
    else (lo * b <? s * a) && (s * a <? hi * b) in
  match inside s1, inside s2 with
  | true, true =>
      let d1 := v * b - s1 * a in
      let d2 := s2 * a - v * b in
      Some (if d1 <? d2 then s1
            else if d2 <? d1 then s2
            else if Z.even s1 then s1 else s2)
  | true, false => Some s1
  | false, true => Some s2
  | false, false => None
  end.

Fixpoint shortest (ks : list Z) (closed : bool) (v lo hi den n : Z) : Z * Z :=
  match ks with
  | [] => (0, 0)
  | k :: ks' =>
      match candidate closed v lo hi den n k with
      | Some s => (s, n - k)
      | None => shortest ks' closed v lo hi den n
      end
  end.

(** The digits [s] and the decimal exponent [p] of [Number::toString]
    for the positive finite double [m * 2^e]: the shortest [s * 10^p]
    that reads back as the same double.  Quantities are kept in units of
    a quarter of the gap to the next double. *)
Definition shortest_decimal (m : positive) (e : Z) : Z * Z :=
  let unit := 2 ^ (Z.max (e - 2) 0) in
  let den := 2 ^ (Z.max (2 - e) 0) in
  let v := 4 * Z.pos m * unit in
  let hi := (4 * Z.pos m + 2) * unit in
  let lo :=
    if (Z.pos m =? 2 ^ (prec - 1)) && (SpecFloat.emin prec emax <? e)
    then (4 * Z.pos m - 1) * unit
    else (4 * Z.pos m - 2) * unit in
  let n := decimal_position v den in
  shortest [1;2;3;4;5;6;7;8;9;10;11;12;13;14;15;16;17]
           (Z.even (Z.pos m)) v lo hi den n.

End JsNumber.

(* ------------------------------------------------------------------ *)
(** ** decimal.js                                                      *)
(* ------------------------------------------------------------------ *)

(** The class [Decimal] under its default configuration.  A value is
    NaN, an infinity, or a signed coefficient with a decimal exponent:
    [Finite neg c q] stands for (-1)^neg * c * 10^q.  decimal.js keeps
    the digits of [c] without trailing zeros together with the exponent
    [e] of the leading digit; [mk] builds that normal form and [sciexp]
    recovers [e].  Zero carries a sign. *)
Module DecimalJS.

Import Js.

Definition precision : Z := 20.
Definition maxE : Z := 9000000000000000.
Definition minE : Z := -9000000000000000.
Definition toExpNeg : Z := -7.
Definition toExpPos : Z := 21.

Inductive Decimal : Type :=
| NaN
| Infinity (neg : bool)
| Finite (neg : bool) (c : N) (q : Z).

Definition pow10 (k : Z) : N := (10 ^ Z.to_N k)%N.

Fixpoint strip_fuel (fuel : nat) (c : N) (q : Z) : N * Z :=
  match fuel with
  | O => (c, q)
  | S f =>
      if (c mod 10 =? 0)%N then strip_fuel f (c / 10)%N (q + 1) else (c, q)
  end.

(** Normal form: no trailing zero digit, exponent 0 for zero. *)
Definition mk (neg : bool) (c : N) (q : Z) : Decimal :=
  if (c =? 0)%N then Finite neg 0 0
  else
    let '(c', q') := strip_fuel (N.to_nat (N.size c)) c q in
    Finite neg c' q'.

Definition zero (neg : bool) : Decimal := Finite neg 0 0.
Definition one : Decimal := Finite false 1 0.

(** [x.e], the exponent of the leading digit. *)
Definition sciexp (c : N) (q : Z) : Z :=
  if (c =? 0)%N then 0 else ndigits c - 1 + q.

Definition isNaN (x : Decimal) : bool :=
  match x with NaN => true | _ => false end.

Definition isFinite (x : Decimal) : bool :=
  match x with Finite _ _ _ => true | _ => false end.

Definition isZero (x : Decimal) : bool :=
  match x with Finite _ c _ => (c =? 0)%N | _ => false end.

(** [x.s < 0]. *)
Definition isNeg (x : Decimal) : bool :=
  match x with
  | NaN => false
  | Infinity neg => neg
  | Finite neg _ _ => neg
  end.

(** [!x.d || !x.d[0]]: NaN, an infinity or a zero. *)
Definition special (x : Decimal) : bool := negb (isFinite x) || isZero x.

(** [x.eq(y)] on values. *)
Definition eq (x y : Decimal) : bool :=
  match x, y with
  | Infinity a, Infinity b => Bool.eqb a b
  | Finite a c q, Finite b d r =>
      if (c =? 0)%N then (d =? 0)%N
      else
        match mk a c q, mk b d r with
        | Finite a' c' q', Finite b' d' r' =>
            Bool.eqb a' b' && (c' =? d')%N && (q' =? r')
        | _, _ => false
        end
  | _, _ => false
  end.

(** The value [c * 10^q] rounded to a multiple of [10^p], halves away
    from zero (ROUND_HALF_UP). *)
Definition round_at (neg : bool) (c : N) (q p : Z) : Decimal :=
  if p <=? q then mk neg c q
  else
    let k := p - q in
    if ndigits c <? k then zero neg
    else mk neg ((c + 5 * pow10 (k - 1)) / pow10 k)%N p.

(** The overflow and underflow test that ends [finalise]. *)
Definition checkRange (x : Decimal) : Decimal :=
  match x with
  | Finite neg c q =>
      if (c =? 0)%N then x
      else if maxE <? sciexp c q then Infinity neg
      else if sciexp c q <? minE then zero neg
      else x
  | _ => x
  end.

(** [finalise(x, sd, ROUND_HALF_UP)]: round to [sd] significant digits;
    with [sd < 1] the result is zero or one unit of the rounding
    position and the range test is skipped. *)
Definition finalise (x : Decimal) (sd : Z) : Decimal :=
  match x with
  | Finite neg c q =>
      if (c =? 0)%N then zero neg
      else
        let r := round_at neg c q (sciexp c q - sd + 1) in
        if sd <? 1 then r else checkRange r
  | _ => x
  end.

(** [x.div(y)]: the quotient is developed to at least one digit more
    than the precision, then rounded. *)
Definition div (x y : Decimal) : Decimal :=
  match x, y with
  | NaN, _ | _, NaN => NaN
  | Infinity _, Infinity _ => NaN
  | Infinity nx, Finite ny _ _ => Infinity (xorb nx ny)
  | Finite nx _ _, Infinity ny => zero (xorb nx ny)
  | Finite nx cx qx, Finite ny cy qy =>
      if (cy =? 0)%N then
        (if (cx =? 0)%N then NaN else Infinity (xorb nx ny))
      else if (cx =? 0)%N then zero (xorb nx ny)
      else
        let s := Z.max 0 (precision + 1 + ndigits cy - ndigits cx) in
        finalise (mk (xorb nx ny) (cx * pow10 s / cy)%N (qx - qy - s))
                 precision
  end.

(** [x.mul(y)]. *)
Definition mul (x y : Decimal) : Decimal :=
  match x, y with
  | NaN, _ | _, NaN => NaN
  | Infinity nx, Infinity ny => Infinity (xorb nx ny)
  | Infinity nx, Finite ny cy _ =>
      if (cy =? 0)%N then NaN else Infinity (xorb nx ny)
  | Finite nx cx _, Infinity ny =>
      if (cx =? 0)%N then NaN else Infinity (xorb nx ny)
  | Finite nx cx qx, Finite ny cy qy =>
      if (cx =? 0)%N || (cy =? 0)%N then zero (xorb nx ny)
      else finalise (mk (xorb nx ny) (cx * cy)%N (qx + qy)) precision
  end.

(** The signed integer [±c * 10^(q - m)] for [m <= q]. *)
Definition scaled (neg : bool) (c : N) (q m : Z) : Z :=
  let v := Z.of_N (c * pow10 (q - m))%N in
  if neg then - v else v.

(** [x.sub(y)]; signs of zero results as in [minus] and [plus]. *)
Definition sub (x y : Decimal) : Decimal :=
  match x, y with
  | NaN, _ | _, NaN => NaN
  | Finite _ _ _, Infinity ny => Infinity (negb ny)
  | Infinity nx, Finite _ _ _ => Infinity nx
  | Infinity nx, Infinity ny => if Bool.eqb nx ny then NaN else Infinity nx
  | Finite nx cx qx, Finite ny cy qy =>
      if (cy =? 0)%N then
        (if (cx =? 0)%N then
           (if Bool.eqb nx ny then zero false else zero nx)
         else finalise (mk nx cx qx) precision)
      else if (cx =? 0)%N then finalise (mk (negb ny) cy qy) precision
      else
        let m := Z.min qx qy in
        let d := scaled nx cx qx m - scaled ny cy qy m in
        if d =? 0 then zero false
        else finalise (mk (d <? 0) (Z.to_N (Z.abs d)) m) precision
  end.

(** *** Strings *)

(** [String(x.s * x.s / 0)]. *)
Definition nonFiniteToString (x : Decimal) : string :=
  match x with
  | NaN => "NaN"
  | _ => "Infinity"
  end.

Definition charAt0 (s : string) : string := substring 0 1 s.
Definition slice_from (k : nat) (s : string) : string :=
  substring k (String.length s - k) s.
Definition zeros (k : Z) : string := getZeroString (Z.to_nat k).

(** [finiteToString(x, isExp, sd)]; [sd = 0] stands for an omitted
    [sd], which the source tests with [sd && ...]. *)
Definition finiteToString (x : Decimal) (isExp : bool) (sd : Z) : string :=
  match x with
  | Finite neg c0 q0 =>
      match mk neg c0 q0 with
      | Finite _ c q =>
          let e := sciexp c q in
          let str := digits c in
          let len := Z.of_nat (String.length str) in
          if isExp then
            (if 0 <? sd - len then
               charAt0 str ++ "." ++ slice_from 1 str ++ zeros (sd - len)
             else if 1 <? len then charAt0 str ++ "." ++ slice_from 1 str
             else str)
            ++ (if e <? 0 then "e" else "e+") ++ string_of_Z e
          else if e <? 0 then
            "0." ++ zeros (- e - 1) ++ str
            ++ (if 0 <? sd - len then zeros (sd - len) else "")
          else if len <=? e then
            str ++ zeros (e + 1 - len)
            ++ (if 0 <? sd - e - 1 then "." ++ zeros (sd - e - 1) else "")
          else
            (if e + 1 <? len then
               substring 0 (Z.to_nat (e + 1)) str ++ "." ++
               slice_from (Z.to_nat (e + 1)) str
             else str)
            ++ (if 0 <? sd - len then
                  (if e + 1 =? len then "." else "") ++ zeros (sd - len)
                else "")
      | _ => ""
      end
  | _ => nonFiniteToString x
  end.

Definition xe (x : Decimal) : Z :=
  match x with
  | Finite _ c q => sciexp c q
  | _ => 0
  end.

Definition with_sign (x : Decimal) (str : string) : string :=
  if isNeg x && negb (isZero x) then "-" ++ str else str.

(** [x.toString()]. *)
Definition toString (x : Decimal) : string :=
  with_sign x
    (finiteToString x ((xe x <=? toExpNeg) || (toExpPos <=? xe x)) 0).

(** [x.toFixed(dp)]; the sign is that of [x] before rounding. *)
Definition toFixed (x : Decimal) (dp : Z) : string :=
  let y := finalise x (dp + xe x + 1) in
  with_sign x (finiteToString y false (dp + xe y + 1)).

(** *** Construction *)

(** The tail of [parseDecimal]: normal form, then the range test. *)
Definition parseDecimal (neg : bool) (c : N) (q : Z) : Decimal :=
  checkRange (mk neg c q).

(** [new Decimal(v)] for a Number [v]: zeros keep their sign, other
    finite values go through [v.toString()]. *)
Definition ofNumber (v : JsNumber.number) : Decimal :=
  match v with
  | SpecFloat.S754_nan => NaN
  | SpecFloat.S754_infinity s => Infinity s
  | SpecFloat.S754_zero s => zero s
  | SpecFloat.S754_finite s m e =>
      let '(d, p) := JsNumber.shortest_decimal m e in
      parseDecimal s (Z.to_N d) p
  end.

Definition ofZ (z : Z) : Decimal := ofNumber (JsNumber.ofZ z).

Definition is_e (a : ascii) : bool :=
  Ascii.eqb a "e" || Ascii.eqb a "E".

Definition is_empty (s : string) : bool :=
  match s with EmptyString => true | _ => false end.

(** The exponent part after the letter: an optional sign and at least
    one digit, up to the end of the string. *)
Definition parse_exponent (s : string) : option Z :=
  let '(neg, s1) :=
    match s with
    | String "-" r => (true, r)
    | String "+" r => (false, r)
    | _ => (false, s)
    end in
  let '(v, cnt, rest) := span_digits s1 0 0 in
  if (0 <? cnt) && is_empty rest
  then Some (if neg then - Z.of_N v else Z.of_N v)
  else None.

(** The literals accepted by the constructor's [isDecimal] test, as
    coefficient and exponent: digits with an optional point and optional
    further digits, or a point followed by digits; then optionally the
    letter e (either case), an optional sign and digits. *)
Definition parse_unsigned (s : string) : option (N * Z) :=
  let '(ip, n1, r1) := span_digits s 0 0 in
  let '(cf, n2, r2, point) :=
    match r1 with
    | String "." r =>
        let '(c, n, r') := span_digits r ip 0 in (c, n, r', true)
    | _ => (ip, 0, r1, false)
    end in
  if (0 <? n1) || (point && (0 <? n2)) then
    match r2 with
    | EmptyString => Some (cf, - n2)
    | String a r3 =>
        if is_e a then
          match parse_exponent r3 with
          | Some ex => Some (cf, ex - n2)
          | None => None
          end
        else None
    end
  else None.

(** Two parts of the library are taken as given rather than modelled:
    - [parseOther], which the constructor calls on every string that is
      not a plain decimal literal (the words Infinity and NaN, prefixed
      binary, octal and hexadecimal literals, and, depending on the
      release, a leading plus sign or digit separators); it returns a
      value or throws;
    - [powCore], the part of [pow] reached when base and exponent are
      finite, non-zero and different from one: integer powers by
      repeated squaring on truncated words, other powers as
      [exp(y * ln(x))]. *)
Record Internals : Type := {
  parseOther : bool -> string -> result Decimal;
  powCore : Decimal -> Decimal -> Decimal
}.

Section WithInternals.

Variable lib : Internals.

(** [new Decimal(v)] for a string [v]. *)
Definition fromString (v : string) : result Decimal :=
  let '(neg, v') :=
    match v with
    | String "-" r => (true, r)
    | _ => (false, v)
    end in
  match parse_unsigned v' with
  | Some (c, q) => Ok (parseDecimal neg c q)
  | None => parseOther lib neg v'
  end.

(** Whether the double nearest to [c * 10^q] (with [c] non-zero) is
    below, equal to or above 1 in magnitude: the doubles next to 1 are
    [1 - 2^-53] and [1 + 2^-52], and a tie rounds to 1. *)
Definition cmp_abs_one (c : N) (q : Z) : comparison :=
  let e := sciexp c q in
  if 1 <=? e then Gt
  else if e <=? -2 then Lt
  else
    let d := Z.of_N (pow10 (- q)) in
    if Z.of_N c * 2 ^ 54 <? d * (2 ^ 54 - 1) then Lt
    else if d * (2 ^ 53 + 1) <? Z.of_N c * 2 ^ 53 then Gt
    else Eq.

(** [new Decimal(Math.pow(+x, yn))] in the only situation [pow] uses
    it: [x] or [yn] is NaN, infinite or zero. *)
Definition mathpow (x : Decimal) (yn : JsNumber.number) : Decimal :=
  match yn with
  | SpecFloat.S754_zero _ => one
  | SpecFloat.S754_nan => NaN
  | SpecFloat.S754_infinity sy =>
      match x with
      | NaN => NaN
      | Infinity _ => if sy then zero false else Infinity false
      | Finite _ c q =>
          if (c =? 0)%N then (if sy then Infinity false else zero false)
          else
            match cmp_abs_one c q with
            | Eq => NaN
            | Gt => if sy then zero false else Infinity false
            | Lt => if sy then Infinity false else zero false
            end
      end
  | SpecFloat.S754_finite sy _ _ =>
      match x with
      | NaN => NaN
      | Infinity sx =>
          let negative := sx && JsNumber.isOddInteger yn in
          if sy then zero negative else Infinity negative
      | Finite sx _ _ =>
          let negative := sx && JsNumber.isOddInteger yn in
          if sy then Infinity negative else zero negative
      end
  end.

(** [x.pow(yn)]. *)
Definition pow (x : Decimal) (yn : JsNumber.number) : Decimal :=
  let y := ofNumber yn in
  if special x || special y then mathpow x yn
  else if eq x one then x
  else if eq y one then finalise x precision
  else powCore lib x y.

End WithInternals.

(** An instance for running examples that stay inside the modelled
    fragment: every other string is rejected with the library's
    message. *)
Definition plain : Internals := {|
  parseOther := fun _ v => Throw ("[DecimalError] Invalid argument: " ++ v);
  powCore := fun _ _ => NaN
|}.

End DecimalJS.

(* ------------------------------------------------------------------ *)
(** ** Date objects                                                    *)
(* ------------------------------------------------------------------ *)

(** Time values are milliseconds since the epoch, as integers; the
    abstract operations are those of the ECMAScript specification.
    [TimeClip] is left out: all dates stay inside the valid range. *)
Module JsDate.

Definition msPerDay : Z := 86400000.

Definition Day (t : Z) : Z := t / msPerDay.
Definition TimeWithinDay (t : Z) : Z := t mod msPerDay.

Definition DaysInYear (y : Z) : Z :=
  if negb (y mod 4 =? 0) then 365
  else if negb (y mod 100 =? 0) then 366
  else if negb (y mod 400 =? 0) then 365
  else 366.

Definition DayFromYear (y : Z) : Z :=
  365 * (y - 1970) + (y - 1969) / 4 - (y - 1901) / 100 + (y - 1601) / 400.

(** The largest year whose first day is not after day [d], searched
    downwards from an upper bound. *)
Fixpoint year_search (fuel : nat) (y d : Z) : Z :=
  match fuel with
  | O => y
  | S f => if DayFromYear y <=? d then y else year_search f (y - 1) d
  end.

Definition YearFromDay (d : Z) : Z :=
  year_search (Z.to_nat (Z.abs d / 100000 + 3))
              (1970 + Z.max (d / 365) (d / 366)) d.

Definition YearFromTime (t : Z) : Z := YearFromDay (Day t).

Definition InLeapYear (t : Z) : bool := DaysInYear (YearFromTime t) =? 366.

Definition DayWithinYear (t : Z) : Z := Day t - DayFromYear (YearFromTime t).

(** Days of the year before month [m] (0 for January). *)
Definition daysBeforeMonth (leap : bool) (m : Z) : Z :=
  let l := if leap then 1 else 0 in
  match m with
  | 0 => 0
  | 1 => 31
  | 2 => 59 + l
  | 3 => 90 + l
  | 4 => 120 + l
  | 5 => 151 + l
  | 6 => 181 + l
  | 7 => 212 + l
  | 8 => 243 + l
  | 9 => 273 + l
  | 10 => 304 + l
  | 11 => 334 + l
  | _ => 365 + l
  end.

Fixpoint month_search (fuel : nat) (leap : bool) (m dwy : Z) : Z :=
  match fuel with
  | O => m
  | S f =>
      if dwy <? daysBeforeMonth leap (m + 1) then m
      else month_search f leap (m + 1) dwy
  end.

Definition MonthFromTime (t : Z) : Z :=
  month_search 11 (InLeapYear t) 0 (DayWithinYear t).

Definition DateFromTime (t : Z) : Z :=
  DayWithinYear t - daysBeforeMonth (InLeapYear t) (MonthFromTime t) + 1.

Definition MakeDay (year month date : Z) : Z :=
  let ym := year + month / 12 in
  let mn := month mod 12 in
  DayFromYear ym + daysBeforeMonth (DaysInYear ym =? 366) mn + date - 1.

Definition MakeDate (day time : Z) : Z := day * msPerDay + time.

(** The host's time zone: the offset of local time from UTC, in
    milliseconds, at a given UTC time. *)
Definition TimeZone : Type := Z -> Z.

Definition UTC : TimeZone := fun _ => 0.

Definition LocalTime (tz : TimeZone) (t : Z) : Z := t + tz t.

(** [d.setUTCHours(0, 0, 0, 0)]. *)
Definition setUTCHours0 (t : Z) : Z := MakeDate (Day t) 0.

(** [d.getDate()]: the day of the month in local time. *)
Definition getDate (tz : TimeZone) (t : Z) : Z := DateFromTime (LocalTime tz t).

(** [d.getUTCDate()]. *)
Definition getUTCDate (t : Z) : Z := DateFromTime t.

(** [d.setUTCDate(dt)]. *)
Definition setUTCDate (t dt : Z) : Z :=
  MakeDate (MakeDay (YearFromTime t) (MonthFromTime t) dt) (TimeWithinDay t).

(** The abstract operation [UTC(t)]: the time value of the local time
    [t], on a host that is [tzl t] ahead of UTC at that local time. *)
Definition toUTC (tzl : TimeZone) (t : Z) : Z := t - tzl t.

(** [d.setDate(dt)]: the day of the month is replaced in local time and
    the result is taken back to UTC. *)
Definition setDate (tz tzl : TimeZone) (t dt : Z) : Z :=
  let lt := LocalTime tz t in
  toUTC tzl
    (MakeDate (MakeDay (YearFromTime lt) (MonthFromTime lt) dt)
              (TimeWithinDay lt)).

(** A host without daylight saving: the same offset at all times. *)
Definition fixedOffset (off : Z) : TimeZone := fun _ => off.

End JsDate.

(* ------------------------------------------------------------------ *)
(** ** The snapshot store                                              *)
(* ------------------------------------------------------------------ *)

Module Prisma.

(** A row of the snapshot table; [blockTime] is the time value of the
    stored date. *)
Record Pools : Type := {
  id : Z;
  address : string;
  block : Z;
  blockTime : Z;
  totalShares : string;
  currentUsdBalance : string
}.

Inductive SortOrder : Type := asc | desc.

(** The arguments the handlers pass to [findFirst]: the address, an
    optional half-open [blockTime] window ([gte], [lt]) and an optional
    order on [blockTime]. *)
Record FindFirstArgs : Type := {
  where_address : string;
  where_blockTime : option (Z * Z);
  orderBy_blockTime : option SortOrder
}.

(** A model delegate of the client ([dbClient.pools], [dbClient[table]]):
    the two queries the handlers issue. *)
Record Delegate : Type := {
  findFirst : FindFirstArgs -> option Pools;
  findMany_distinct_address : list Pools
}.

(** *** A delegate backed by a list of rows *)

Definition matches (q : FindFirstArgs) (p : Pools) : bool :=
  String.eqb (address p) (where_address q) &&
  match where_blockTime q with
  | Some (gte, lt) => (gte <=? blockTime p) && (blockTime p <? lt)
  | None => true
  end.

(** The first row with the least (greatest) [blockTime]. *)
Fixpoint extremum (o : SortOrder) (best : Pools) (rows : list Pools) : Pools :=
  match rows with
  | [] => best
  | p :: rows' =>
      let better :=
        match o with
        | asc => blockTime p <? blockTime best
        | desc => blockTime best <? blockTime p
        end in
      extremum o (if better then p else best) rows'
  end.

Definition table_findFirst (rows : list Pools) (q : FindFirstArgs) : option Pools :=
  match filter (matches q) rows with
  | [] => None
  | p :: ps =>
      match orderBy_blockTime q with
      | Some o => Some (extremum o p ps)
      | None => Some p
      end
  end.

Fixpoint distinct_by_address (seen : list string) (rows : list Pools) : list Pools :=
  match rows with
  | [] => []
  | p :: rows' =>
      if existsb (String.eqb (address p)) seen then distinct_by_address seen rows'
      else p :: distinct_by_address (address p :: seen) rows'
  end.

(** Without an order the store answers with the first matching row in
    table order. *)
Definition table (rows : list Pools) : Delegate := {|
  findFirst := table_findFirst rows;
  findMany_distinct_address := distinct_by_address [] rows
|}.

End Prisma.

(* ------------------------------------------------------------------ *)
(** ** The handlers of [api/stats]                                     *)
(* ------------------------------------------------------------------ *)

Definition AVG_DAYS : Z := 7.
Definition DAYS_IN_YEAR : Z := 365.

Definition USD_SCALE : Z := 1000000.
Definition SHARES_SCALE : Z := 1000000.

Record PoolsEntries : Type := {
  firstEntry : option Prisma.Pools;
  lastEntry : option Prisma.Pools;
  weeklyEntry : option Prisma.Pools;
  yesterdayEntry : option Prisma.Pools
}.

Record PoolsStats : Type := {
  address : string;
  baseApy : string;
  avgApy : string;
  dailyBasedApr : string;
  weeklyBasedApr : string;
  earnMultiplier : string
}.

(** What the handler sends back. *)
Inductive Response (A : Type) : Type :=
| Status200 (body : A)
| Status500 (error : string).
Arguments Status200 {A} body.
Arguments Status500 {A} error.

Section Handlers.

(** The host: the unmodelled parts of decimal.js and the time zone. *)
Variable lib : DecimalJS.Internals.
Variable tz : JsDate.TimeZone.

(** The four window boundaries computed at the top of
    [getPoolsEntries], from the reading [now] of the clock. *)
Definition nowDate (now : Z) : Z := JsDate.setUTCHours0 now.

Definition weeklyDateMin (now : Z) : Z :=
  JsDate.setUTCDate (nowDate now) (JsDate.getDate tz (nowDate now) - AVG_DAYS).

Definition weeklyDateMax (now : Z) : Z :=
  JsDate.setUTCDate (nowDate now)
                    (JsDate.getDate tz (nowDate now) - AVG_DAYS + 1).

Definition yesterdayDateMin (now : Z) : Z :=
  JsDate.setUTCDate (nowDate now) (JsDate.getDate tz (nowDate now) - 1).

(** [getPoolsEntries(dbClient, address)], with [now] the value of the
    [new Date()] it starts with. *)
Definition getPoolsEntries (now : Z) (dbClient : Prisma.Delegate)
    (address : string) : PoolsEntries :=
  let firstEntry :=
    Prisma.findFirst dbClient
      {| Prisma.where_address := address;
         Prisma.where_blockTime := None;
         Prisma.orderBy_blockTime := Some Prisma.asc |} in
  let lastEntry :=
    Prisma.findFirst dbClient
      {| Prisma.where_address := address;
         Prisma.where_blockTime := None;
         Prisma.orderBy_blockTime := Some Prisma.desc |} in
  let weeklyEntry :=
    Prisma.findFirst dbClient
      {| Prisma.where_address := address;
         Prisma.where_blockTime := Some (weeklyDateMin now, weeklyDateMax now);
         Prisma.orderBy_blockTime := None |} in
  let yesterdayEntry :=
    Prisma.findFirst dbClient
      {| Prisma.where_address := address;
         Prisma.where_blockTime := Some (yesterdayDateMin now, nowDate now);
         Prisma.orderBy_blockTime := None |} in
  {| firstEntry := firstEntry;
     lastEntry := lastEntry;
     weeklyEntry := weeklyEntry;
     yesterdayEntry := yesterdayEntry |}.

(** [calculateRatio(poolEntry)]; the constructor throws on a string
    that is not a numeric literal. *)
Definition calculateRatio (poolEntry : option Prisma.Pools)
    : result (option DecimalJS.Decimal) :=
  match poolEntry with
  | None => Ok None
  | Some poolEntry =>
      usd <- DecimalJS.fromString lib (Prisma.currentUsdBalance poolEntry) ;;
      let currentUsdBalance := DecimalJS.div usd (DecimalJS.ofZ USD_SCALE) in
      shares <- DecimalJS.fromString lib (Prisma.totalShares poolEntry) ;;
      let totalShares := DecimalJS.div shares (DecimalJS.ofZ SHARES_SCALE) in
      let ratio := DecimalJS.div currentUsdBalance totalShares in
      Ok (Some ratio)
  end.

(** The local [daysElapsedSinceIndexed] of [getPoolsStats]. *)
Definition daysElapsedSinceIndexed (poolsEntries : PoolsEntries)
    : JsNumber.number :=
  match firstEntry poolsEntries, lastEntry poolsEntries with
  | Some first, Some last =>
      let firstBlockTime := JsNumber.ofZ (Prisma.blockTime first) in
      let lastBlockTime := JsNumber.ofZ (Prisma.blockTime last) in
      let daysDelta := JsNumber.sub lastBlockTime firstBlockTime in
      JsNumber.ceil (JsNumber.div daysDelta (JsNumber.ofZ (1000 * 3600 * 24)))
  | _, _ => JsNumber.ofZ 0
  end.

Definition placeholder : string := "calculating..".

Definition baseApyOf (lastRatio : DecimalJS.Decimal) (days : JsNumber.number)
    : string :=
  DecimalJS.toFixed
    (DecimalJS.mul
       (DecimalJS.sub
          (DecimalJS.pow lib lastRatio
             (JsNumber.div (JsNumber.ofZ DAYS_IN_YEAR) days))
          (DecimalJS.ofZ 1))
       (DecimalJS.ofZ 100))
    6.

Definition avgApyOf (lastRatio weeklyRatio : DecimalJS.Decimal) : string :=
  DecimalJS.toFixed
    (DecimalJS.mul
       (DecimalJS.sub
          (DecimalJS.pow lib (DecimalJS.div lastRatio weeklyRatio)
             (JsNumber.div (JsNumber.ofZ DAYS_IN_YEAR) (JsNumber.ofZ AVG_DAYS)))
          (DecimalJS.ofZ 1))
       (DecimalJS.ofZ 100))
    6.

Definition dailyAprOf (lastRatio yesterdayRatio : DecimalJS.Decimal) : string :=
  DecimalJS.toFixed
    (DecimalJS.mul
       (DecimalJS.mul
          (DecimalJS.sub (DecimalJS.div lastRatio yesterdayRatio)
                         (DecimalJS.ofZ 1))
          (DecimalJS.ofZ 365))
       (DecimalJS.ofZ 100))
    6.

Definition weeklyAprOf (lastRatio weeklyRatio : DecimalJS.Decimal) : string :=
  DecimalJS.toFixed
    (DecimalJS.mul
       (DecimalJS.mul
          (DecimalJS.sub (DecimalJS.div lastRatio weeklyRatio)
                         (DecimalJS.ofZ 1))
          (DecimalJS.ofNumber
             (JsNumber.div (JsNumber.ofZ 365) (JsNumber.ofZ AVG_DAYS))))
       (DecimalJS.ofZ 100))
    6.

Definition earnMultiplierOf (lastRatio yesterdayRatio : DecimalJS.Decimal)
    : string :=
  DecimalJS.toString (DecimalJS.sub lastRatio yesterdayRatio).

(** [getPoolsStats(address, poolsEntries)]. *)
Definition getPoolsStats (address : string) (poolsEntries : PoolsEntries)
    : result PoolsStats :=
  lastRatio <- calculateRatio (lastEntry poolsEntries) ;;
  weeklyRatio <- calculateRatio (weeklyEntry poolsEntries) ;;
  yesterdayRatio <- calculateRatio (yesterdayEntry poolsEntries) ;;
  let days := daysElapsedSinceIndexed poolsEntries in
  let baseApy :=
    match lastRatio with
    | Some l => baseApyOf l days
    | None => placeholder
    end in
  let avgApy :=
    match weeklyRatio, lastRatio with
    | Some w, Some l => avgApyOf l w
    | _, _ => placeholder
    end in
  let dailyApr :=
    match lastRatio, yesterdayRatio with
    | Some l, Some y => dailyAprOf l y
    | _, _ => placeholder
    end in
  let weeklyApr :=
    match lastRatio, weeklyRatio with
    | Some l, Some w => weeklyAprOf l w
    | _, _ => placeholder
    end in
  let earnMultiplier :=
    match lastRatio, yesterdayRatio with
    | Some l, Some y => earnMultiplierOf l y
    | _, _ => "0"
    end in
  Ok {| address := address;
        baseApy := baseApy;
        avgApy := avgApy;
        dailyBasedApr := dailyApr;
        weeklyBasedApr := weeklyApr;
        earnMultiplier := earnMultiplier |}.

(** The loop of [getStats]: one [getPoolsEntries] and one row per
    listed address, pushed in order; [clock i] is the value of the
    [i]-th [new Date()] of the run.  A throw ends the run. *)
Fixpoint getStats_loop (clock : nat -> Z) (dbClient : Prisma.Delegate)
    (i : nat) (addresses : list string) (stats : list PoolsStats)
    : result (list PoolsStats) :=
  match addresses with
  | [] => Ok stats
  | address :: rest =>
      let poolsEntries := getPoolsEntries (clock i) dbClient address in
      row <- getPoolsStats address poolsEntries ;;
      getStats_loop clock dbClient (S i) rest (stats ++ [row])
  end.

(** [getStats(dbClient, table)], with [dbClient[table]] as [dbClient]. *)
Definition getStats (clock : nat -> Z) (dbClient : Prisma.Delegate)
    : result (list PoolsStats) :=
  let addresses :=
    map Prisma.address (Prisma.findMany_distinct_address dbClient) in
  getStats_loop clock dbClient 0 addresses [].

(** The single-table handler: status 200 with the rows, or status 500
    with [error.toString()]. *)
Definition handler (clock : nat -> Z) (pools : Prisma.Delegate)
    : Response (list PoolsStats) :=
  match getStats clock pools with
  | Ok stats => Status200 stats
  | Throw msg => Status500 ("Error: " ++ msg)
  end.

(** The two-network handler: polygon first, then optimism, the clock
    running on. *)
Definition handlerNetworks (clock : nat -> Z)
    (polygonPool optimismPool : Prisma.Delegate)
    : Response (list PoolsStats * list PoolsStats) :=
  match getStats clock polygonPool with
  | Throw msg => Status500 ("Error: " ++ msg)
  | Ok polygonStats =>
      let used := length (Prisma.findMany_distinct_address polygonPool) in
      match getStats (fun i => clock (used + i)%nat) optimismPool with
      | Throw msg => Status500 ("Error: " ++ msg)
      | Ok optimismStats => Status200 (polygonStats, optimismStats)
      end
  end.

(** The row [getPoolsStats] builds once the three ratios are known. *)
Definition rowOf (a : string) (e : PoolsEntries)
    (lr wr yr : option DecimalJS.Decimal) : PoolsStats :=
  {| address := a;
     baseApy := match lr with
                | Some l => baseApyOf l (daysElapsedSinceIndexed e)
                | None => placeholder
                end;
     avgApy := match wr, lr with
               | Some w, Some l => avgApyOf l w
               | _, _ => placeholder
               end;
     dailyBasedApr := match lr, yr with
                      | Some l, Some y => dailyAprOf l y
                      | _, _ => placeholder
                      end;
     weeklyBasedApr := match lr, wr with
                       | Some l, Some w => weeklyAprOf l w
                       | _, _ => placeholder
                       end;
     earnMultiplier := match lr, yr with
                       | Some l, Some y => earnMultiplierOf l y
                       | _, _ => "0"
                       end |}.

(** *** The first version of the handler

    [api/stats.ts] computes the row inline.  An absent snapshot is read
    as the strings "0" and "0", whose ratio is NaN; the weekly and the
    yesterday ratios are tested with [isNaN], the last one is not.  An
    absent block time is replaced by a fresh [new Date()]: [nowFirst]
    and [nowLast] are the values of these two readings. *)
Definition legacyRatio (entry : option Prisma.Pools)
    : result DecimalJS.Decimal :=
  usd <- DecimalJS.fromString lib
           (match entry with
            | Some p => Prisma.currentUsdBalance p
            | None => "0"
            end) ;;
  shares <- DecimalJS.fromString lib
              (match entry with
               | Some p => Prisma.totalShares p
               | None => "0"
               end) ;;
  Ok (DecimalJS.div (DecimalJS.div usd (DecimalJS.ofZ USD_SCALE))
                    (DecimalJS.div shares (DecimalJS.ofZ SHARES_SCALE))).

Definition legacyDays (nowFirst nowLast : Z) (poolsEntries : PoolsEntries)
    : JsNumber.number :=
  let firstBlockTime :=
    match firstEntry poolsEntries with
    | Some p => Prisma.blockTime p
    | None => nowFirst
    end in
  let lastBlockTime :=
    match lastEntry poolsEntries with
    | Some p => Prisma.blockTime p
    | None => nowLast
    end in
  let daysBlockTimeDelta :=
    JsNumber.sub (JsNumber.ofZ lastBlockTime) (JsNumber.ofZ firstBlockTime) in
  JsNumber.ceil
    (JsNumber.div daysBlockTimeDelta (JsNumber.ofZ (1000 * 3600 * 24))).

Definition legacyStats (nowFirst nowLast : Z) (address : string)
    (poolsEntries : PoolsEntries) : result PoolsStats :=
  let days := legacyDays nowFirst nowLast poolsEntries in
  lastRatio <- legacyRatio (lastEntry poolsEntries) ;;
  avgRatio <- legacyRatio (weeklyEntry poolsEntries) ;;
  yesterdayRatio <- legacyRatio (yesterdayEntry poolsEntries) ;;
  Ok {| address := address;
        baseApy := baseApyOf lastRatio days;
        avgApy :=
          if DecimalJS.isNaN avgRatio then placeholder
          else avgApyOf lastRatio avgRatio;
        dailyBasedApr :=
          if DecimalJS.isNaN yesterdayRatio then placeholder
          else dailyAprOf lastRatio yesterdayRatio;
        weeklyBasedApr :=
          if DecimalJS.isNaN avgRatio then placeholder
          else weeklyAprOf lastRatio avgRatio;
        earnMultiplier :=
          if DecimalJS.isNaN yesterdayRatio then "0"
          else earnMultiplierOf lastRatio yesterdayRatio |}.

(** The window boundaries of the first version, computed once before
    the loop, in local time, each from its own reading of the clock
    ([now1] to [now4]); [tzl] gives the host's offset at a local
    time. *)
Definition minAvgDate (tzl : JsDate.TimeZone) (now1 : Z) : Z :=
  JsDate.setDate tz tzl now1 (JsDate.getDate tz now1 - (AVG_DAYS + 1)).

Definition maxAvgDate (tzl : JsDate.TimeZone) (now1 now2 : Z) : Z :=
  JsDate.setDate tz tzl now2 (JsDate.getDate tz (minAvgDate tzl now1) + 2).

Definition minYesterdayDate (tzl : JsDate.TimeZone) (now3 : Z) : Z :=
  JsDate.setDate tz tzl now3 (JsDate.getDate tz now3 - 1).

Definition maxYesterdayDate (now4 : Z) : Z := now4.

(** The four queries of the first version for one address. *)
Definition legacyEntries (tzl : JsDate.TimeZone) (now1 now2 now3 now4 : Z)
    (dbClient : Prisma.Delegate) (address : string) : PoolsEntries :=
  let firstPoolEntry :=
    Prisma.findFirst dbClient
      {| Prisma.where_address := address;
         Prisma.where_blockTime := None;
         Prisma.orderBy_blockTime := Some Prisma.asc |} in
  let lastPoolEntry :=
    Prisma.findFirst dbClient
      {| Prisma.where_address := address;
         Prisma.where_blockTime := None;
         Prisma.orderBy_blockTime := Some Prisma.desc |} in
  let avgPoolEntry :=
    Prisma.findFirst dbClient
      {| Prisma.where_address := address;
         Prisma.where_blockTime :=
           Some (minAvgDate tzl now1, maxAvgDate tzl now1 now2);
         Prisma.orderBy_blockTime := None |} in
  let yesterdayPoolEntry :=
    Prisma.findFirst dbClient
      {| Prisma.where_address := address;
         Prisma.where_blockTime :=
           Some (minYesterdayDate tzl now3, maxYesterdayDate now4);
         Prisma.orderBy_blockTime := None |} in
  {| firstEntry := firstPoolEntry;
     lastEntry := lastPoolEntry;
     weeklyEntry := avgPoolEntry;
     yesterdayEntry := yesterdayPoolEntry |}.

End Handlers.

(* ------------------------------------------------------------------ *)
(** ** Vocabulary of the properties                                    *)
(* ------------------------------------------------------------------ *)

Module Spec.

Import Js DecimalJS.

(** Strings made of ASCII digits only. *)
Fixpoint all_digits (s : string) : bool :=
  match s with
  | EmptyString => true
  | String a s' => is_digit a && all_digits s'
  end.

(** The number read from a run of digits, continuing from [acc]. *)
Fixpoint value_from (acc : N) (s : string) : N :=
  match s with
  | EmptyString => acc
  | String a s' => value_from (10 * acc + digit_val a)%N s'
  end.

(** A string that does not go on with a digit. *)
Definition head_not_digit (s : string) : Prop :=
  match s with
  | EmptyString => True
  | String a _ => is_digit a = false
  end.

(** The tail of a literal: nothing, or an exponent part. *)
Definition tail_exponent (tail : string) (n2 : Z) (v : N) : option (N * Z) :=
  match tail with
  | EmptyString => Some (v, - n2)
  | String a r3 =>
      if is_e a then
        match parse_exponent r3 with
        | Some ex => Some (v, ex - n2)
        | None => None
        end
      else None
  end.

(** A number printed in fixed notation with exactly six decimals. *)
Definition fixed6 (s : string) : Prop :=
  exists sign ip fp,
    s = sign ++ ip ++ "." ++ fp /\
    (sign = "" \/ sign = "-") /\
    ip <> "" /\ all_digits ip = true /\
    all_digits fp = true /\ String.length fp = 6%nat.

(** What a NaN or an infinity prints as. *)
Definition nonfinite_text (s : string) : Prop :=
  s = "NaN" \/ s = "Infinity" \/ s = "-Infinity".

(** The normal form kept by decimal.js. *)
Definition normal (x : Decimal) : Prop :=
  match x with
  | Finite _ c q => if (c =? 0)%N then q = 0 else (c mod 10 <> 0)%N
  | _ => True
  end.

(** The rational number a finite value stands for (0 otherwise). *)
Definition Qvalue (x : Decimal) : Q :=
  match x with
  | Finite neg c q =>
      (if neg then - inject_Z (Z.of_N c) else inject_Z (Z.of_N c))
      * (10 # 1) ^ q
  | _ => 0
  end.

(** A finite non-zero value that fits the precision and the exponent
    range: the results decimal.js can return without rounding. *)
Definition representable (x : Decimal) : Prop :=
  match x with
  | Finite _ c q =>
      (c <> 0)%N /\ (c mod 10 <> 0)%N /\ ndigits c <= precision /\
      minE <= sciexp c q <= maxE
  | _ => False
  end.




(** The rows of an address in a table. *)
Definition snapshots_of (rows : list Prisma.Pools) (a : string) : list Prisma.Pools :=
  filter (fun p => String.eqb (Prisma.address p) a) rows.

(** The forms an arithmetic result can take: NaN, an infinity, a zero,
    or a representable value. *)
Definition result_form (x : Decimal) : Prop :=
  match x with
  | Finite _ c q => (c = 0%N /\ q = 0) \/ representable x
  | _ => True
  end.

Definition ten : Q := 10 # 1.

(** The magnitude [c * 10^q] as a rational. *)
Definition Qmag (c : N) (q : Z) : Q := (inject_Z (Z.of_N c) * ten ^ q)%Q.


(** The row of an address without data. *)
Definition emptyRow (a : string) : PoolsStats :=
  {| address := a; baseApy := placeholder; avgApy := placeholder;
     dailyBasedApr := placeholder; weeklyBasedApr := placeholder;
     earnMultiplier := "0" |}.

(** The number of days of month [m] (0 for January). *)
Definition monthLength (leap : bool) (m : Z) : Z :=
  JsDate.daysBeforeMonth leap (m + 1) - JsDate.daysBeforeMonth leap m.

(** The addresses a run goes through, in order. *)
Definition listed (dbClient : Prisma.Delegate) : list string :=
  map Prisma.address (Prisma.findMany_distinct_address dbClient).

(** What the [k]-th turn of the loop of [getStats] computes for the
    address [a]. *)
Definition rowAt (lib : Internals) (tz : JsDate.TimeZone) (clock : nat -> Z)
    (dbClient : Prisma.Delegate) (k : nat) (a : string) : result PoolsStats :=
  getPoolsStats lib a (getPoolsEntries tz (clock k) dbClient a).

(** The number of millionths nearest to [c * 10^q], a half counting
    upwards. *)
Definition millionths (c : N) (q : Z) : N :=
  if -6 <=? q then (c * pow10 (q + 6))%N
  else ((c + 5 * pow10 (- 6 - q - 1)) / pow10 (- 6 - q))%N.

(** The text of a value printed with six decimals: the sign of the
    value before rounding, unless it is a zero, then the digits of its
    millionths with a point before the last six. *)
Definition six_decimals_of (v : Decimal) (s : string) : Prop :=
  match v with
  | NaN => s = "NaN"
  | Infinity neg => s = if neg then "-Infinity" else "Infinity"
  | Finite neg c q =>
      exists ip fp,
        s = (if (neg : bool) && negb (c =? 0)%N then "-" else "") ++ ip ++ "." ++ fp /\
        ip <> "" /\ all_digits ip = true /\
        all_digits fp = true /\ String.length fp = 6%nat /\
        value_from 0 (ip ++ fp) = millionths c q
  end.

End Spec.

(* ------------------------------------------------------------------ *)
(** ** Concrete stores and snapshots used in the examples              *)
(* ------------------------------------------------------------------ *)

Module Examples.

Import Spec.

Definition snapshot (a : string) (t : Z) (shares usd : string) : Prisma.Pools :=
  {| Prisma.id := 0; Prisma.address := a; Prisma.block := 0;
     Prisma.blockTime := t;
     Prisma.totalShares := shares; Prisma.currentUsdBalance := usd |}.

Definition day : Z := JsDate.msPerDay.

(** 2023-11-14T22:13:20Z. *)
Definition now : Z := 1700000000000.

Definition entries (f l w y : option Prisma.Pools) : PoolsEntries :=
  {| firstEntry := f; lastEntry := l; weeklyEntry := w; yesterdayEntry := y |}.

(** Address A of the specification: ratio 1.0, then 1.1 a year later. *)
Definition snapA1 : Prisma.Pools := snapshot "A" (now - 400 * day) "1000000" "1000000".
Definition snapA2 : Prisma.Pools := snapshot "A" (now - 35 * day) "1000000" "1100000".
Definition rowsA : list Prisma.Pools := [snapA1; snapA2].

(** Address B: a single snapshot, ratio 1.1. *)
Definition snapB : Prisma.Pools := snapshot "B" (now - 35 * day) "1000000" "1100000".
Definition rowsB : list Prisma.Pools := [snapB].
Definition entriesB : PoolsEntries := entries (Some snapB) (Some snapB) None None.

(** Address C: ratio 1.99 yesterday, 2.0 now. *)
Definition snapC1 : Prisma.Pools := snapshot "C" (now - day) "1000000" "1990000".
Definition snapC2 : Prisma.Pools := snapshot "C" (now + 5) "1000000" "2000000".
Definition entriesC : PoolsEntries := entries (Some snapC1) (Some snapC2) None (Some snapC1).

(** A last snapshot without shares. *)
Definition snapZ0 : Prisma.Pools := snapshot "Z" (now - 10 * day) "1000000" "1000000".
Definition snapZ : Prisma.Pools := snapshot "Z" now "0" "1000000".
Definition entriesZ : PoolsEntries := entries (Some snapZ0) (Some snapZ) None None.
Definition entriesZfull : PoolsEntries :=
  entries (Some snapZ0) (Some snapZ) (Some snapZ0) (Some snapZ0).

(** A weekly snapshot with neither shares nor balance. *)
Definition snapW : Prisma.Pools := snapshot "Z" (now - 7 * day) "0" "0".
Definition entriesW : PoolsEntries :=
  entries (Some snapZ0) (Some snapZ0) (Some snapW) None.

(** Equal ratios 1.5 yesterday and now. *)
Definition snapE1 : Prisma.Pools := snapshot "E" (now - day) "2000000" "3000000".
Definition snapE2 : Prisma.Pools := snapshot "E" now "4000000" "6000000".
Definition entriesE : PoolsEntries := entries (Some snapE1) (Some snapE2) None (Some snapE1).

(** A balance of 31 digits over one share. *)
Definition snapBig : Prisma.Pools :=
  snapshot "W" now "1000000" "1000000000000000000000001000000".

(** A store that lists an address twice. *)
Definition listsTwice : Prisma.Delegate :=
  {| Prisma.findFirst := fun _ => None;
     Prisma.findMany_distinct_address := [snapB; snapB] |}.

(** A host five hours west of Greenwich. *)
Definition west5 : JsDate.TimeZone := fun _ => - 5 * 3600000.

(** 2023-03-01T12:00:00Z. *)
Definition march1 : Z := 1677672000000.

(** A host two hours east of Greenwich. *)
Definition east2 : JsDate.TimeZone := JsDate.fixedOffset (2 * 3600000).

(** A snapshot whose balance is not a number. *)
Definition snapBad : Prisma.Pools := snapshot "X" now "1000000" "".

(** 2023-03-05T12:00:00Z and 2023-03-15T12:00:00Z. *)
Definition march5 : Z := march1 + 4 * day.
Definition march15 : Z := march1 + 14 * day.

End Examples.

(* ------------------------------------------------------------------ *)
(** ** Facts about digit strings                                       *)
(* ------------------------------------------------------------------ *)

Module DigitFacts.

Import Js Spec.

Lemma ndigits_fuel_pos fuel n : 1 <= ndigits_fuel fuel n.
Proof.
  revert n; induction fuel as [|f IH]; intros n; cbn [ndigits_fuel]; [lia|].
  destruct (n <? 10)%N; [lia|]. specialize (IH (n / 10)%N). lia.
Qed.

Lemma ndigits_pos n : 1 <= ndigits n.
Proof. apply ndigits_fuel_pos. Qed.

Lemma ndigits_fuel_bounds fuel n :
  (0 < n)%N -> (n < 2 ^ N.of_nat fuel)%N ->
  (10 ^ Z.to_N (ndigits_fuel fuel n - 1) <= n < 10 ^ Z.to_N (ndigits_fuel fuel n))%N.
Proof.
  revert n; induction fuel as [|f IH]; intros n Hpos Hlt.
  - simpl in Hlt. lia.
  - cbn [ndigits_fuel]. destruct (N.ltb_spec n 10) as [Hs|Hs].
    + simpl. lia.
    + assert (Hq : (0 < n / 10)%N).
      { apply N.div_str_pos. lia. }
      assert (Hf : (n / 10 < 2 ^ N.of_nat f)%N).
      { rewrite Nat2N.inj_succ, N.pow_succ_r' in Hlt.
        apply N.Div0.div_lt_upper_bound. lia. }
      specialize (IH _ Hq Hf).
      pose proof (ndigits_fuel_pos f (n / 10)) as Hk.
      set (k := ndigits_fuel f (n / 10)) in *.
      assert (E1 : Z.to_N k = N.succ (Z.to_N (k - 1))) by lia.
      assert (E2 : Z.to_N (1 + k - 1) = N.succ (Z.to_N (k - 1))) by lia.
      assert (E3 : Z.to_N (1 + k) = N.succ (N.succ (Z.to_N (k - 1)))) by lia.
      rewrite E1 in IH. rewrite E2, E3.
      rewrite !N.pow_succ_r' in *.
      pose proof (N.div_mod n 10 ltac:(lia)) as Hdm.
      pose proof (N.mod_lt n 10 ltac:(lia)) as Hm.
      revert IH. generalize (10 ^ Z.to_N (k - 1))%N. intros P IH.
      clear - Hdm Hm IH. revert Hdm Hm IH.
      generalize (n / 10)%N (n mod 10)%N. intros a r Hdm Hm IH. lia.
Qed.

Lemma ndigits_bounds n :
  (0 < n)%N ->
  (10 ^ Z.to_N (ndigits n - 1) <= n < 10 ^ Z.to_N (ndigits n))%N.
Proof.
  intros H. apply ndigits_fuel_bounds; [exact H|].
  rewrite N2Nat.id. apply N.size_gt.
Qed.

Lemma digits_fuel_length f n acc :
  Z.of_nat (String.length (digits_fuel f n acc))
  = ndigits_fuel f n + Z.of_nat (String.length acc).
Proof.
  revert n acc; induction f as [|f IH]; intros n acc;
    cbn [digits_fuel ndigits_fuel].
  - cbn [String.length]. lia.
  - destruct (n <? 10)%N.
    + cbn [String.length]. lia.
    + rewrite IH. cbn [String.length]. lia.
Qed.

Lemma digits_length n : Z.of_nat (String.length (digits n)) = ndigits n.
Proof. unfold digits, ndigits. rewrite digits_fuel_length. simpl. lia. Qed.

Lemma digit_char_code d : (d < 10)%N -> N_of_ascii (digit_char d) = (48 + d)%N.
Proof. intros H. unfold digit_char. apply N_ascii_embedding. lia. Qed.

Lemma digit_char_is_digit d : (d < 10)%N -> is_digit (digit_char d) = true.
Proof.
  intros H. unfold is_digit. rewrite digit_char_code by exact H.
  apply andb_true_intro; split; apply N.leb_le; lia.
Qed.

Lemma digit_val_char d : (d < 10)%N -> digit_val (digit_char d) = d.
Proof. intros H. unfold digit_val. rewrite digit_char_code by exact H. lia. Qed.

Lemma mod10_lt n : (n mod 10 < 10)%N.
Proof. apply N.mod_lt. discriminate. Qed.

Lemma digits_fuel_all_digits f n acc :
  all_digits acc = true -> all_digits (digits_fuel f n acc) = true.
Proof.
  revert n acc; induction f as [|f IH]; intros n acc Hacc;
    cbn [digits_fuel].
  - cbn [all_digits]. rewrite digit_char_is_digit by apply mod10_lt. exact Hacc.
  - destruct (N.ltb_spec n 10) as [Hs|Hs].
    + cbn [all_digits]. rewrite digit_char_is_digit by exact Hs. exact Hacc.
    + apply IH. cbn [all_digits].
      rewrite digit_char_is_digit by apply mod10_lt. exact Hacc.
Qed.

Lemma digits_all_digits n : all_digits (digits n) = true.
Proof. apply digits_fuel_all_digits. reflexivity. Qed.

Lemma all_digits_app s t :
  all_digits (s ++ t) = all_digits s && all_digits t.
Proof.
  induction s as [|a s IH]; cbn [append all_digits]; [reflexivity|].
  rewrite IH. apply andb_assoc.
Qed.

Lemma all_digits_zeros k : all_digits (getZeroString k) = true.
Proof. induction k as [|k IH]; [reflexivity|]. cbn [getZeroString all_digits]. exact IH. Qed.

Lemma length_zeros k : String.length (getZeroString k) = k.
Proof. induction k as [|k IH]; [reflexivity|]. cbn [getZeroString String.length]. now rewrite IH. Qed.

Lemma digits_nonempty n : digits n <> "".
Proof.
  intros H. pose proof (digits_length n) as L. rewrite H in L.
  pose proof (ndigits_pos n). cbn [String.length] in L. lia.
Qed.

End DigitFacts.

(* ------------------------------------------------------------------ *)
(** ** Facts about decimal.js values                                   *)
(* ------------------------------------------------------------------ *)

Module DecimalFacts.

Import Js DecimalJS Spec DigitFacts.

(** *** Normal forms *)

Lemma strip_fuel_spec f c q c' q' :
  strip_fuel f c q = (c', q') ->
  q <= q' /\ c = (c' * 10 ^ Z.to_N (q' - q))%N.
Proof.
  revert c q; induction f as [|f IH]; intros c q H; cbn [strip_fuel] in H.
  - inversion H; subst. rewrite Z.sub_diag. simpl. lia.
  - destruct (N.eqb_spec (c mod 10) 0) as [Hm|Hm].
    + apply IH in H. destruct H as [Hq Hc]. split; [lia|].
      replace (Z.to_N (q' - q)) with (N.succ (Z.to_N (q' - (q + 1)))) by lia.
      rewrite N.pow_succ_r'.
      pose proof (N.div_mod c 10 ltac:(discriminate)) as Hdm.
      rewrite Hm in Hdm. rewrite Hc in Hdm. lia.
    + inversion H; subst. rewrite Z.sub_diag. simpl. lia.
Qed.

Lemma strip_fuel_normal f c q c' q' :
  (c <> 0)%N -> (c < 2 ^ N.of_nat f)%N ->
  strip_fuel f c q = (c', q') -> (c' mod 10 <> 0)%N.
Proof.
  revert c q; induction f as [|f IH]; intros c q Hc Hlt H.
  - simpl in Hlt. lia.
  - cbn [strip_fuel] in H. destruct (N.eqb_spec (c mod 10) 0) as [Hm|Hm].
    + pose proof (N.div_mod c 10 ltac:(discriminate)) as Hdm.
      rewrite Hm in Hdm.
      rewrite Nat2N.inj_succ, N.pow_succ_r' in Hlt.
      revert H Hdm. generalize (c / 10)%N. intros a H Hdm.
      apply (IH a (q + 1)); [lia|lia|exact H].
    + inversion H; subst. exact Hm.
Qed.

Lemma strip_fuel_nonzero f c q c' q' :
  (c <> 0)%N -> strip_fuel f c q = (c', q') -> (c' <> 0)%N.
Proof.
  intros Hc H. apply strip_fuel_spec in H. destruct H as [_ H].
  intros E. subst c'. rewrite N.mul_0_l in H. contradiction.
Qed.

Lemma mk_zero neg q : mk neg 0 q = zero neg.
Proof. reflexivity. Qed.

Lemma mk_normal neg c q : normal (mk neg c q).
Proof.
  unfold mk. destruct (N.eqb_spec c 0) as [E|E]; [reflexivity|].
  destruct (strip_fuel _ c q) as [c' q'] eqn:S. cbn [normal].
  pose proof (strip_fuel_nonzero _ _ _ _ _ E S) as Hn.
  destruct (N.eqb_spec c' 0) as [E'|E']; [contradiction|].
  eapply strip_fuel_normal; [exact E| |exact S].
  rewrite N2Nat.id. apply N.size_gt.
Qed.

Lemma size_nat_pos c : (c <> 0)%N -> exists f, N.to_nat (N.size c) = S f.
Proof.
  intros H. destruct c as [|p]; [contradiction|].
  cbn [N.size]. destruct (N.to_nat (N.pos (Pos.size p))) eqn:E; [lia|eauto].
Qed.

Lemma mk_id neg c q :
  (c <> 0)%N -> (c mod 10 <> 0)%N -> mk neg c q = Finite neg c q.
Proof.
  intros Hc Hm. unfold mk.
  destruct (N.eqb_spec c 0) as [E|E]; [contradiction|].
  destruct (size_nat_pos c Hc) as [f ->]. cbn [strip_fuel].
  destruct (N.eqb_spec (c mod 10) 0) as [E'|E']; [contradiction|reflexivity].
Qed.

Lemma strip_fuel_pow10 t f c q :
  (t <= f)%nat -> (c mod 10 <> 0)%N ->
  strip_fuel f (c * 10 ^ N.of_nat t) q = (c, q + Z.of_nat t).
Proof.
  revert f q; induction t as [|t IH]; intros f q Hle Hm.
  - simpl. rewrite N.mul_1_r, Z.add_0_r.
    destruct f as [|f]; cbn [strip_fuel]; [reflexivity|].
    destruct (N.eqb_spec (c mod 10) 0); [contradiction|reflexivity].
  - destruct f as [|f]; [lia|]. cbn [strip_fuel].
    rewrite Nat2N.inj_succ, N.pow_succ_r'.
    replace (c * (10 * 10 ^ N.of_nat t))%N with (c * 10 ^ N.of_nat t * 10)%N by lia.
    rewrite N.Div0.mod_mul, N.div_mul by discriminate. cbn [N.eqb].
    rewrite IH by (try lia; assumption). f_equal. lia.
Qed.

Lemma pow2_le_pow10 t : (2 ^ t <= 10 ^ t)%N.
Proof. apply N.pow_le_mono_l. lia. Qed.

Lemma mk_pow10 neg c t q :
  (c <> 0)%N -> (c mod 10 <> 0)%N ->
  mk neg (c * 10 ^ t) q = Finite neg c (q + Z.of_N t).
Proof.
  intros Hc Hm. unfold mk.
  assert (Hp : (0 < 10 ^ t)%N) by (apply N.neq_0_lt_0, N.pow_nonzero; discriminate).
  destruct (N.eqb_spec (c * 10 ^ t) 0) as [E|E]; [nia|].
  rewrite <- (N2Nat.id t) at 2.
  rewrite strip_fuel_pow10; [now rewrite N_nat_Z| |exact Hm].
  assert (Hs : (t < N.size (c * 10 ^ t))%N).
  { apply (N.pow_lt_mono_r_iff 2); [lia|].
    eapply N.le_lt_trans; [|apply N.size_gt].
    eapply N.le_trans; [apply pow2_le_pow10|]. nia. }
  lia.
Qed.

(** *** Constants *)

Lemma ofZ_1 : ofZ 1 = Finite false 1 0.
Proof. vm_compute. reflexivity. Qed.

Lemma ofZ_100 : ofZ 100 = Finite false 1 2.
Proof. vm_compute. reflexivity. Qed.

Lemma ofZ_365 : ofZ 365 = Finite false 365 0.
Proof. vm_compute. reflexivity. Qed.

Lemma ofZ_scale : ofZ 1000000 = Finite false 1 6.
Proof. vm_compute. reflexivity. Qed.

End DecimalFacts.

(* ------------------------------------------------------------------ *)
(** ** Facts about strings                                             *)
(* ------------------------------------------------------------------ *)

Module StringFacts.

Import Js Spec DigitFacts.

Lemma append_assoc (s t u : string) : (s ++ t) ++ u = s ++ t ++ u.
Proof. induction s as [|a s IH]; cbn [append]; [reflexivity|now rewrite IH]. Qed.

Lemma append_nil_r (s : string) : s ++ "" = s.
Proof. induction s as [|a s IH]; cbn [append]; [reflexivity|now rewrite IH]. Qed.

Lemma length_append (s t : string) :
  String.length (s ++ t) = (String.length s + String.length t)%nat.
Proof. induction s as [|a s IH]; cbn [append String.length]; [reflexivity|now rewrite IH]. Qed.

Lemma substring_0_length (m : nat) (s : string) :
  (m <= String.length s)%nat -> String.length (substring 0 m s) = m.
Proof.
  revert s; induction m as [|m IH]; intros s H.
  - destruct s; reflexivity.
  - destruct s as [|a s]; cbn [String.length] in H; [lia|].
    cbn [substring String.length]. rewrite IH by lia. reflexivity.
Qed.

Lemma substring_split (k : nat) (s : string) :
  (k <= String.length s)%nat ->
  s = substring 0 k s ++ substring k (String.length s - k) s.
Proof.
  revert s; induction k as [|k IH]; intros s H.
  - rewrite Nat.sub_0_r. cbn [append].
    assert (E : forall t, substring 0 0 t = "") by (intros [|? ?]; reflexivity).
    rewrite E. cbn [append].
    clear. induction s as [|a s IH]; [reflexivity|].
    cbn [String.length substring]. now rewrite <- IH.
  - destruct s as [|a s]; cbn [String.length] in H; [lia|].
    cbn [String.length substring append Nat.sub]. f_equal. apply IH. lia.
Qed.

Lemma all_digits_split (k : nat) (s : string) :
  (k <= String.length s)%nat -> all_digits s = true ->
  all_digits (substring 0 k s) = true /\
  all_digits (substring k (String.length s - k) s) = true.
Proof.
  intros Hk Hd. rewrite (substring_split k s Hk), all_digits_app in Hd.
  apply andb_prop in Hd. exact Hd.
Qed.

Lemma length_split_tail (k : nat) (s : string) :
  (k <= String.length s)%nat ->
  String.length (substring k (String.length s - k) s) = (String.length s - k)%nat.
Proof.
  intros Hk. pose proof (substring_split k s Hk) as E.
  apply (f_equal String.length) in E.
  rewrite length_append, substring_0_length in E by exact Hk. lia.
Qed.

End StringFacts.

(* ------------------------------------------------------------------ *)
(** ** Facts about the printed numbers                                 *)
(* ------------------------------------------------------------------ *)

Module FormatFacts.

Import Js DecimalJS Spec DigitFacts DecimalFacts StringFacts.

Lemma normal_mk neg c q : normal (Finite neg c q) -> mk neg c q = Finite neg c q.
Proof.
  cbn [normal]. destruct (N.eqb_spec c 0) as [E|E]; intros H.
  - subst. reflexivity.
  - apply mk_id; assumption.
Qed.

Lemma normal_sciexp neg c q :
  normal (Finite neg c q) -> sciexp c q = ndigits c - 1 + q.
Proof.
  cbn [normal]. unfold sciexp. destruct (N.eqb_spec c 0) as [E|E]; intros H.
  - subst. reflexivity.
  - reflexivity.
Qed.

Lemma zeros_length k : 0 <= k -> Z.of_nat (String.length (zeros k)) = k.
Proof. intros H. unfold zeros. rewrite length_zeros. lia. Qed.

Lemma zeros_digits k : all_digits (zeros k) = true.
Proof. apply all_digits_zeros. Qed.

(** Fixed notation of a value that has no digit below the sixth
    decimal. *)
Lemma finiteToString_fixed neg c q :
  normal (Finite neg c q) -> -6 <= q ->
  exists ip fp,
    finiteToString (Finite neg c q) false (6 + sciexp c q + 1) = ip ++ "." ++ fp /\
    ip <> "" /\ all_digits ip = true /\ all_digits fp = true /\
    String.length fp = 6%nat.
Proof.
  intros Hn Hq. unfold finiteToString.
  rewrite (normal_mk _ _ _ Hn), (normal_sciexp _ _ _ Hn).
  pose proof (digits_length c) as Hlen.
  pose proof (digits_all_digits c) as Hdig.
  pose proof (digits_nonempty c) as Hne.
  pose proof (ndigits_pos c) as Hnd.
  set (str := digits c) in *. set (nd := ndigits c) in *.
  rewrite Hlen.
  destruct (Z.ltb_spec (nd - 1 + q) 0) as [He|He].
  - (* 0.00ddd *)
    exists "0". eexists. split; [cbn [append]; reflexivity|].
    split; [discriminate|]. split; [reflexivity|].
    destruct (Z.ltb_spec 0 (6 + (nd - 1 + q) + 1 - nd)) as [Hp|Hp].
    + split.
      * rewrite !all_digits_app, zeros_digits, Hdig, zeros_digits. reflexivity.
      * apply Nat2Z.inj. rewrite !length_append, !Nat2Z.inj_add, Hlen.
        rewrite !zeros_length by lia. lia.
    + split.
      * rewrite !all_digits_app, zeros_digits, Hdig. reflexivity.
      * apply Nat2Z.inj. rewrite !length_append, !Nat2Z.inj_add, Hlen.
        rewrite !zeros_length by lia. cbn [String.length]. lia.
  - destruct (Z.leb_spec nd (nd - 1 + q)) as [Hb|Hb].
    + (* ddd000 *)
      destruct (Z.ltb_spec 0 (6 + (nd - 1 + q) + 1 - (nd - 1 + q) - 1)) as [Hp|Hp]; [|lia].
      exists (str ++ zeros (nd - 1 + q + 1 - nd)). eexists.
      split; [rewrite append_assoc; reflexivity|].
      split; [destruct str; [contradiction|discriminate]|].
      split; [rewrite all_digits_app, Hdig, zeros_digits; reflexivity|].
      split; [apply zeros_digits|].
      apply Nat2Z.inj. rewrite zeros_length by lia. lia.
    + destruct (Z.ltb_spec (nd - 1 + q + 1) nd) as [Hc|Hc].
      * (* dd.ddd *)
        assert (Hk : (Z.to_nat (nd - 1 + q + 1) <= String.length str)%nat) by lia.
        destruct (all_digits_split _ _ Hk Hdig) as [D1 D2].
        exists (substring 0 (Z.to_nat (nd - 1 + q + 1)) str). eexists.
        split; [rewrite !append_assoc; reflexivity|].
        split.
        { intros E. apply (f_equal String.length) in E.
          rewrite substring_0_length in E by exact Hk. cbn [String.length] in E. lia. }
        split; [exact D1|].
        unfold slice_from.
        destruct (Z.ltb_spec 0 (6 + (nd - 1 + q) + 1 - nd)) as [Hp|Hp].
        -- destruct (Z.eqb_spec (nd - 1 + q + 1) nd) as [Hx|Hx]; [lia|].
           split; [rewrite !all_digits_app, D2, zeros_digits; reflexivity|].
           apply Nat2Z.inj. rewrite !length_append, !Nat2Z.inj_add.
           rewrite length_split_tail by exact Hk.
           cbn [append String.length]. rewrite zeros_length by lia. lia.
        -- split; [rewrite !all_digits_app, D2; reflexivity|].
           apply Nat2Z.inj. rewrite !length_append, !Nat2Z.inj_add.
           rewrite length_split_tail by exact Hk.
           cbn [String.length]. lia.
      * (* ddd *)
        destruct (Z.ltb_spec 0 (6 + (nd - 1 + q) + 1 - nd)) as [Hp|Hp]; [|lia].
        destruct (Z.eqb_spec (nd - 1 + q + 1) nd) as [Hx|Hx]; [|lia].
        exists str. eexists. split; [reflexivity|].
        split; [exact Hne|]. split; [exact Hdig|].
        split; [apply zeros_digits|].
        apply Nat2Z.inj. rewrite zeros_length by lia. lia.
Qed.

Lemma mk_shape neg c q :
  exists c1 q1,
    mk neg c q = Finite neg c1 q1 /\ normal (Finite neg c1 q1) /\
    (c1 = 0%N \/ q <= q1).
Proof.
  pose proof (mk_normal neg c q) as Hn. unfold mk in *.
  destruct (N.eqb_spec c 0) as [E|E].
  - exists 0%N, 0. auto.
  - destruct (strip_fuel _ c q) as [c' q'] eqn:S.
    exists c', q'. split; [reflexivity|]. split; [exact Hn|].
    right. apply strip_fuel_spec in S. tauto.
Qed.

Lemma round_at_shape neg c q p :
  exists c1 q1,
    round_at neg c q p = Finite neg c1 q1 /\ normal (Finite neg c1 q1) /\
    (c1 = 0%N \/ p <= q1).
Proof.
  unfold round_at. destruct (Z.leb_spec p q) as [H|H].
  - destruct (mk_shape neg c q) as (c1 & q1 & E & Hn & Hq).
    exists c1, q1. repeat split; try assumption. destruct Hq; [auto|right; lia].
  - destruct (ndigits c <? p - q).
    + exists 0%N, 0. cbn. auto.
    + apply mk_shape.
Qed.

Lemma checkRange_shape neg c q :
  checkRange (Finite neg c q) = Finite neg c q \/
  checkRange (Finite neg c q) = Infinity neg \/
  checkRange (Finite neg c q) = zero neg.
Proof.
  cbn [checkRange]. destruct (c =? 0)%N; [auto|].
  destruct (maxE <? sciexp c q); [auto|].
  destruct (sciexp c q <? minE); auto.
Qed.

Lemma finalise_shape neg c q sd :
  finalise (Finite neg c q) sd = Infinity neg \/
  exists c1 q1,
    finalise (Finite neg c q) sd = Finite neg c1 q1 /\
    normal (Finite neg c1 q1) /\
    (c1 = 0%N \/ sciexp c q - sd + 1 <= q1).
Proof.
  cbn [finalise]. destruct (c =? 0)%N.
  - right. exists 0%N, 0. cbn. auto.
  - destruct (round_at_shape neg c q (sciexp c q - sd + 1))
      as (c1 & q1 & E & Hn & Hq).
    rewrite E. destruct (sd <? 1).
    + right. exists c1, q1. auto.
    + destruct (checkRange_shape neg c1 q1) as [R|[R|R]]; rewrite R.
      * right. exists c1, q1. auto.
      * left. reflexivity.
      * right. exists 0%N, 0. cbn. auto.
Qed.

Lemma with_sign_cases x str :
  with_sign x str = str \/ with_sign x str = "-" ++ str.
Proof. unfold with_sign. destruct (isNeg x && negb (isZero x)); auto. Qed.

(** [toFixed(6)] prints six decimals, or the name of a non-finite
    value. *)
Lemma toFixed_shape x :
  fixed6 (toFixed x 6) \/ nonfinite_text (toFixed x 6).
Proof.
  destruct x as [|neg|neg c q].
  - right. left. reflexivity.
  - right. right. destruct neg; [right|left]; reflexivity.
  - unfold toFixed. cbn [xe].
    destruct (finalise_shape neg c q (6 + sciexp c q + 1))
      as [E|(c1 & q1 & E & Hn & Hq)]; rewrite E.
    + right. cbn [finiteToString nonFiniteToString].
      destruct (with_sign_cases (Finite neg c q) "Infinity") as [W|W];
        rewrite W; [right; left|right; right]; reflexivity.
    + left. cbn [xe].
      assert (Hq' : -6 <= q1).
      { destruct Hq as [->|Hq]; [|lia].
        cbn [normal] in Hn. cbn in Hn. lia. }
      destruct (finiteToString_fixed neg c1 q1 Hn Hq')
        as (ip & fp & Es & H1 & H2 & H3 & H4).
      rewrite Es.
      destruct (with_sign_cases (Finite neg c q) (ip ++ "." ++ fp)) as [W|W];
        rewrite W.
      * exists "", ip, fp. cbn [append]. auto 10.
      * exists "-", ip, fp. auto 10.
Qed.


Lemma fixed6_first s :
  fixed6 s -> exists a r, s = String a r /\ (a = "-"%char \/ is_digit a = true).
Proof.
  intros (sign & ip & fp & E & Hs & Hne & Hd & _). subst s.
  destruct ip as [|a ip]; [contradiction|].
  cbn [all_digits] in Hd. apply andb_prop in Hd. destruct Hd as [Ha _].
  destruct Hs as [->| ->]; cbn [append]; eauto.
Qed.

Lemma toFixed_not_placeholder x : toFixed x 6 <> placeholder.
Proof.
  intros E. destruct (toFixed_shape x) as [F|[N|[N|N]]].
  - apply fixed6_first in F. destruct F as (a & r & Ea & Ha).
    rewrite E in Ea. unfold placeholder in Ea. inversion Ea; subst.
    destruct Ha as [Ha|Ha]; discriminate.
  - rewrite E in N. discriminate.
  - rewrite E in N. discriminate.
  - rewrite E in N. discriminate.
Qed.

End FormatFacts.

(* ------------------------------------------------------------------ *)
(** ** Rounding to a number of significant digits          *)
(* ------------------------------------------------------------------ *)

Module RoundingFacts.

Import Js DecimalJS Spec DigitFacts DecimalFacts FormatFacts.

Lemma pow10_Z k : 0 <= k -> Z.of_N (pow10 k) = 10 ^ k.
Proof.
  intros H. unfold pow10. rewrite N2Z.inj_pow, Z2N.id by exact H. reflexivity.
Qed.

Lemma pow10_pos k : (0 < pow10 k)%N.
Proof. apply N.neq_0_lt_0, N.pow_nonzero. discriminate. Qed.

Lemma ndigits_bounds_Z n :
  (n <> 0)%N -> 10 ^ (ndigits n - 1) <= Z.of_N n < 10 ^ ndigits n.
Proof.
  intros H. pose proof (ndigits_pos n) as Hp.
  destruct (ndigits_bounds n ltac:(lia)) as [L U].
  rewrite <- !pow10_Z by lia. unfold pow10. lia.
Qed.

Lemma ndigits_unique n k :
  1 <= k -> 10 ^ (k - 1) <= Z.of_N n < 10 ^ k -> ndigits n = k.
Proof.
  intros Hk [L U].
  assert (Hn : (n <> 0)%N).
  { intros ->. pose proof (Z.pow_pos_nonneg 10 (k - 1) ltac:(lia) ltac:(lia)). simpl in L. lia. }
  destruct (ndigits_bounds_Z n Hn) as [L' U'].
  pose proof (ndigits_pos n) as Hp.
  destruct (Z.lt_trichotomy (ndigits n) k) as [H|[H|H]]; [|exact H|].
  - pose proof (Z.pow_le_mono_r 10 (ndigits n) (k - 1) ltac:(lia) ltac:(lia)). lia.
  - pose proof (Z.pow_le_mono_r 10 k (ndigits n - 1) ltac:(lia) ltac:(lia)). lia.
Qed.

Lemma ndigits_le n k : 1 <= k -> Z.of_N n < 10 ^ k -> ndigits n <= k.
Proof.
  intros Hk U. destruct (N.eq_dec n 0) as [->|Hn]; [change (ndigits 0) with 1; lia|].
  destruct (ndigits_bounds_Z n Hn) as [L' _].
  destruct (Z.le_gt_cases (ndigits n) k) as [H|H]; [exact H|].
  pose proof (Z.pow_le_mono_r 10 k (ndigits n - 1) ltac:(lia) ltac:(lia)). lia.
Qed.

Lemma ndigits_mul_pow10 c t :
  (c <> 0)%N -> 0 <= t -> ndigits (c * pow10 t) = ndigits c + t.
Proof.
  intros Hc Ht. pose proof (ndigits_pos c) as Hp.
  destruct (ndigits_bounds_Z c Hc) as [L U].
  apply ndigits_unique; [lia|].
  rewrite N2Z.inj_mul, pow10_Z by exact Ht.
  replace (ndigits c + t - 1) with ((ndigits c - 1) + t) by lia.
  rewrite !Z.pow_add_r by lia.
  pose proof (Z.pow_pos_nonneg 10 t ltac:(lia) Ht). nia.
Qed.

(** Stripping trailing zeros keeps the exponent of the leading digit. *)
Lemma sciexp_mk neg c q c1 q1 :
  (c <> 0)%N -> mk neg c q = Finite neg c1 q1 ->
  (c1 <> 0)%N /\ (c1 mod 10 <> 0)%N /\ q <= q1 /\
  c = (c1 * pow10 (q1 - q))%N /\ sciexp c1 q1 = sciexp c q.
Proof.
  intros Hc E. pose proof (mk_normal neg c q) as Hn. rewrite E in Hn.
  unfold mk in E. destruct (N.eqb_spec c 0) as [|_]; [contradiction|].
  destruct (strip_fuel _ c q) as [c' q'] eqn:S. inversion E; subst c' q'.
  pose proof (strip_fuel_nonzero _ _ _ _ _ Hc S) as Hc1.
  apply strip_fuel_spec in S. destruct S as [Hq Hv].
  cbn [normal] in Hn. destruct (N.eqb_spec c1 0) as [|_]; [contradiction|].
  repeat split; try assumption.
  unfold sciexp. destruct (N.eqb_spec c1 0) as [|_]; [contradiction|].
  destruct (N.eqb_spec c 0) as [|_]; [contradiction|].
  rewrite Hv. fold (pow10 (q1 - q)). rewrite ndigits_mul_pow10 by lia. lia.
Qed.

(** The rounded coefficient: dropping [k] digits of a number with [nd]
    digits leaves at most [10^(nd - k)]. *)
Lemma rounded_bound c k :
  (c <> 0)%N -> 1 <= k <= ndigits c ->
  Z.of_N ((c + 5 * pow10 (k - 1)) / pow10 k) <= 10 ^ (ndigits c - k).
Proof.
  intros Hc Hk. destruct (ndigits_bounds_Z c Hc) as [_ U].
  rewrite N2Z.inj_div, N2Z.inj_add, N2Z.inj_mul, !pow10_Z by lia.
  replace (ndigits c) with ((ndigits c - k) + k) in U by lia.
  rewrite Z.pow_add_r in U by lia.
  assert (E : 10 ^ k = 10 * 10 ^ (k - 1)).
  { rewrite <- Z.pow_succ_r by lia. f_equal. lia. }
  rewrite E in *.
  assert (HP : 0 < 10 ^ (k - 1)) by (apply Z.pow_pos_nonneg; lia).
  revert U HP. generalize (10 ^ (k - 1)) (10 ^ (ndigits c - k)).
  intros P M U HP. change (Z.of_N 5) with 5.
  apply Z.lt_succ_r. apply Z.div_lt_upper_bound; [lia|]. nia.
Qed.

Lemma sciexp_nonzero c q : (c <> 0)%N -> sciexp c q = ndigits c - 1 + q.
Proof. intros H. unfold sciexp. destruct (N.eqb_spec c 0); [contradiction|reflexivity]. Qed.

Lemma round_at_digits neg c q sd c1 q1 :
  (c <> 0)%N ->
  round_at neg c q (sciexp c q - sd + 1) = Finite neg c1 q1 ->
  (c1 <> 0)%N ->
  (c1 mod 10 <> 0)%N /\
  sciexp c1 q1 <= sciexp c q + 1 /\
  (- 6 <= q -> sd = 6 + sciexp c q + 1 -> sciexp c1 q1 = sciexp c q) /\
  (1 <= sd -> ndigits c1 <= sd).
Proof.
  intros Hc E Hc1. rewrite (sciexp_nonzero c q Hc) in *.
  pose proof (ndigits_pos c) as Hnd.
  unfold round_at in E.
  destruct (Z.leb_spec (ndigits c - 1 + q - sd + 1) q) as [Hp|Hp].
  - destruct (sciexp_mk _ _ _ _ _ Hc E) as (_ & Hm & Hq & Hv & Hs).
    rewrite (sciexp_nonzero c q Hc) in Hs.
    split; [exact Hm|]. split; [lia|]. split; [intros; exact Hs|].
    intros Hsd.
    pose proof (f_equal ndigits Hv) as Hd.
    rewrite ndigits_mul_pow10 in Hd by (try assumption; lia). lia.
  - set (k := ndigits c - 1 + q - sd + 1 - q) in *.
    destruct (Z.ltb_spec (ndigits c) k) as [Hk|Hk].
    + inversion E. subst c1. contradiction.
    + set (c' := ((c + 5 * pow10 (k - 1)) / pow10 k)%N) in *.
      assert (Hc' : (c' <> 0)%N).
      { intros Z. rewrite Z in E. cbn in E. inversion E. subst c1. contradiction. }
      destruct (sciexp_mk _ _ _ _ _ Hc' E) as (_ & Hm & Hq & Hv & Hs).
      rewrite (sciexp_nonzero c' _ Hc') in Hs.
      pose proof (rounded_bound c k Hc ltac:(lia)) as Hb. fold c' in Hb.
      assert (Hd' : ndigits c' <= ndigits c - k + 1).
      { apply ndigits_le; [lia|].
        eapply Z.le_lt_trans; [exact Hb|].
        apply Z.pow_lt_mono_r; lia. }
      split; [exact Hm|]. split; [lia|]. split; [intros; lia|].
      intros Hsd. assert (Esd : ndigits c - k = sd) by (unfold k; lia).
      rewrite Esd in *.
      pose proof (f_equal ndigits Hv) as Hd.
      rewrite ndigits_mul_pow10 in Hd by (try assumption; lia).
      destruct (Z.eq_dec (Z.of_N c') (10 ^ sd)) as [Heq|Hne].
      * assert (Hm' : (c' mod 10 = 0)%N).
        { apply N2Z.inj. rewrite N2Z.inj_mod, Heq. cbn [Z.of_N].
          replace sd with (Z.succ (sd - 1)) by lia.
          rewrite Z.pow_succ_r by lia. rewrite Z.mul_comm. apply Z.mod_mul. lia. }
        assert (Ht : q1 - (ndigits c - 1 + q - sd + 1) <> 0).
        { intros Z0. rewrite Z0 in Hv. unfold pow10 in Hv. cbn in Hv.
          rewrite N.mul_1_r in Hv. subst c'. rewrite Hv in Hm'. contradiction. }
        lia.
      * assert (ndigits c' <= sd); [|lia].
        apply ndigits_le; [lia|]. lia.
Qed.

Lemma finalise_precision neg c q sd :
  (c <> 0)%N -> 1 <= sd ->
  finalise (Finite neg c q) sd = Infinity neg \/
  finalise (Finite neg c q) sd = zero neg \/
  exists c1 q1,
    finalise (Finite neg c q) sd = Finite neg c1 q1 /\
    (c1 <> 0)%N /\ (c1 mod 10 <> 0)%N /\ ndigits c1 <= sd /\
    minE <= sciexp c1 q1 <= maxE.
Proof.
  intros Hc Hsd. cbn [finalise].
  destruct (N.eqb_spec c 0) as [|_]; [contradiction|].
  destruct (Z.ltb_spec sd 1) as [|_]; [lia|].
  destruct (round_at_shape neg c q (sciexp c q - sd + 1))
    as (c1 & q1 & E & Hn & _).
  rewrite E. cbn [checkRange].
  destruct (N.eqb_spec c1 0) as [Z0|Hc1].
  - subst c1. cbn in Hn. subst q1. right. left. reflexivity.
  - destruct (round_at_digits neg c q sd c1 q1 Hc E Hc1) as (Hm & _ & _ & Hd).
    destruct (Z.ltb_spec maxE (sciexp c1 q1)); [left; reflexivity|].
    destruct (Z.ltb_spec (sciexp c1 q1) minE); [right; left; reflexivity|].
    right. right. exists c1, q1. pose proof (Hd Hsd).
    repeat split; try assumption; lia.
Qed.

Lemma finalise_form x : result_form (finalise x precision).
Proof.
  destruct x as [| |neg c q]; cbn [finalise result_form]; try exact I.
  destruct (N.eqb_spec c 0) as [|Hc]; [cbn; auto|].
  pose proof (finalise_precision neg c q precision Hc ltac:(unfold precision; lia)) as H.
  cbn [finalise] in H. destruct (N.eqb_spec c 0) as [|_]; [contradiction|].
  destruct H as [->|[->|(c1 & q1 & -> & H1 & H2 & H3 & H4)]]; cbn; auto.
Qed.

Lemma mk_finite neg c q : exists c1 q1, mk neg c q = Finite neg c1 q1.
Proof. destruct (mk_shape neg c q) as (c1 & q1 & E & _). eauto. Qed.

Lemma finalise_mk_form neg c q : result_form (finalise (mk neg c q) precision).
Proof. apply finalise_form. Qed.

Lemma zero_form neg : result_form (zero neg).
Proof. cbn. auto. Qed.

(** Results of the arithmetic have at most [precision] digits. *)
Lemma div_form x y : result_form (div x y).
Proof.
  destruct x as [| |nx cx qx], y as [| |ny cy qy]; cbn [div]; try exact I;
    try apply zero_form.
  destruct (cy =? 0)%N; [destruct (cx =? 0)%N; exact I|].
  destruct (cx =? 0)%N; [apply zero_form|apply finalise_form].
Qed.

Lemma mul_form x y : result_form (mul x y).
Proof.
  destruct x as [| |nx cx qx], y as [| |ny cy qy]; cbn [mul]; try exact I.
  - destruct (cy =? 0)%N; exact I.
  - destruct (cx =? 0)%N; exact I.
  - destruct ((cx =? 0)%N || (cy =? 0)%N); [apply zero_form|apply finalise_form].
Qed.

Lemma sub_form x y : result_form (sub x y).
Proof.
  destruct x as [|nx|nx cx qx], y as [|ny|ny cy qy]; cbn [sub]; try exact I.
  - destruct (Bool.eqb nx ny); exact I.
  - destruct (cy =? 0)%N.
    + destruct (cx =? 0)%N; [|apply finalise_form].
      destruct (Bool.eqb nx ny); apply zero_form.
    + destruct (cx =? 0)%N; [apply finalise_form|].
      destruct (_ =? 0); [apply zero_form|apply finalise_form].
Qed.


End RoundingFacts.

(* ------------------------------------------------------------------ *)
(** ** Exact quotients                                     *)
(* ------------------------------------------------------------------ *)

Module ExactFacts.

Import Js DecimalJS Spec DigitFacts DecimalFacts FormatFacts RoundingFacts.

Lemma ten_nonzero : ~ (ten == 0)%Q.
Proof. unfold ten. intros H. discriminate H. Qed.

Lemma ten_pow_pos q : (0 < ten ^ q)%Q.
Proof. apply Qpower_0_lt. reflexivity. Qed.

Lemma ten_pow_Z k : 0 <= k -> (ten ^ k == inject_Z (10 ^ k))%Q.
Proof. intros H. rewrite Zpower_Qpower by exact H. reflexivity. Qed.

(** Two scaled integers with equal values agree once brought to a
    common exponent. *)
Lemma scaled_eq a b p r m :
  (inject_Z a * ten ^ p == inject_Z b * ten ^ r)%Q ->
  m <= p -> m <= r ->
  a * 10 ^ (p - m) = b * 10 ^ (r - m).
Proof.
  intros H Hp Hr. apply inject_Z_injective.
  rewrite !inject_Z_mult, <- !ten_pow_Z by lia.
  assert (E : forall c e, (inject_Z c * ten ^ (e - m) == inject_Z c * ten ^ e * ten ^ (- m))%Q).
  { intros c e. unfold Z.sub. rewrite Qpower_plus by apply ten_nonzero. ring. }
  rewrite !E, H. reflexivity.
Qed.


Lemma Qmag_pos c q : (c <> 0)%N -> (0 < Qmag c q)%Q.
Proof.
  intros H. unfold Qmag. apply Qmult_lt_0_compat; [|apply ten_pow_pos].
  change 0%Q with (inject_Z 0). rewrite <- Zlt_Qlt. lia.
Qed.

Lemma Qvalue_mag neg c q :
  (Qvalue (Finite neg c q) == if neg then - Qmag c q else Qmag c q)%Q.
Proof. cbn [Qvalue]. unfold Qmag, ten. destruct neg; ring. Qed.

Lemma signed_product (nz ny nx : bool) (a b c : Q) :
  (0 < a)%Q -> (0 < b)%Q -> (0 < c)%Q ->
  ((if nz then - a else a) * (if ny then - b else b)
   == (if nx then - c else c))%Q ->
  nz = xorb nx ny /\ (a * b == c)%Q.
Proof.
  intros Pa Pb Pc H.
  pose proof (Qmult_lt_0_compat _ _ Pa Pb) as Pab.
  destruct nz, ny, nx; cbn [xorb];
    first
      [ split; [reflexivity|]; rewrite <- H; ring
      | split; [reflexivity|];
        setoid_replace c with (- - c)%Q by ring; rewrite <- H; ring
      | exfalso;
        assert (E : (a * b == - c)%Q) by (rewrite <- H; ring);
        rewrite E in Pab; lra ].
Qed.

(** From an exact quotient: the sign is the product of the signs, and
    the magnitudes multiply. *)
Lemma quotient_signs nx cx qx ny cy qy nz cz qz :
  (cx <> 0)%N -> (cy <> 0)%N -> (cz <> 0)%N ->
  (Qvalue (Finite nz cz qz) * Qvalue (Finite ny cy qy)
   == Qvalue (Finite nx cx qx))%Q ->
  nz = xorb nx ny /\ (Qmag cz qz * Qmag cy qy == Qmag cx qx)%Q.
Proof.
  intros Hx Hy Hz H. rewrite !Qvalue_mag in H.
  apply signed_product; try apply Qmag_pos; assumption.
Qed.

Lemma finalise_id x : representable x -> finalise x precision = x.
Proof.
  destruct x as [| |neg c q]; cbn [representable]; try contradiction.
  intros (Hc & Hm & Hd & Hr). cbn [finalise].
  destruct (N.eqb_spec c 0) as [|_]; [contradiction|].
  unfold round_at. rewrite (sciexp_nonzero c q Hc) in *.
  destruct (Z.leb_spec (ndigits c - 1 + q - precision + 1) q) as [_|H]; [|lia].
  rewrite mk_id by assumption.
  change (precision <? 1) with false. cbn [checkRange].
  destruct (N.eqb_spec c 0) as [|_]; [contradiction|].
  rewrite (sciexp_nonzero c q Hc).
  destruct (Z.ltb_spec maxE (ndigits c - 1 + q)); [lia|].
  destruct (Z.ltb_spec (ndigits c - 1 + q) minE); [lia|]. reflexivity.
Qed.

(** Division is exact whenever the quotient is representable. *)
Lemma div_exact x y z :
  isFinite x = true -> isZero x = false ->
  isFinite y = true -> isZero y = false ->
  representable z ->
  (Qvalue z * Qvalue y == Qvalue x)%Q ->
  div x y = z.
Proof.
  destruct x as [| |nx cx qx]; try discriminate.
  destruct y as [| |ny cy qy]; try discriminate.
  destruct z as [| |nz cz qz]; cbn [representable]; try contradiction.
  cbn [isZero isFinite]. intros _ Hx _ Hy (Hz & Hm & Hd & Hr) H.
  apply N.eqb_neq in Hx, Hy.
  destruct (quotient_signs _ _ _ _ _ _ _ _ _ Hx Hy Hz H) as [Hs HM].
  unfold Qmag in HM.
  assert (HM' : (inject_Z (Z.of_N cz * Z.of_N cy) * ten ^ (qz + qy)
                 == inject_Z (Z.of_N cx) * ten ^ qx)%Q).
  { rewrite inject_Z_mult, Qpower_plus by apply ten_nonzero.
    rewrite <- HM. ring. }
  cbn [div]. destruct (N.eqb_spec cy 0) as [|_]; [contradiction|].
  destruct (N.eqb_spec cx 0) as [|_]; [contradiction|].
  set (s := Z.max 0 (precision + 1 + ndigits cy - ndigits cx)).
  pose proof (ndigits_bounds_Z cx Hx) as [Lx Ux].
  pose proof (ndigits_bounds_Z cy Hy) as [Ly Uy].
  pose proof (ndigits_bounds_Z cz Hz) as [Lz Uz].
  pose proof (ndigits_pos cx). pose proof (ndigits_pos cy).
  pose proof (ndigits_pos cz).
  assert (Ht : exists t, 0 <= t /\ qx - qy - s + t = qz /\
               (cx * pow10 s = cz * pow10 t * cy)%N).
  { destruct (Z.le_gt_cases qx (qz + qy)) as [Hle|Hgt].
    - pose proof (scaled_eq _ _ _ _ qx HM' Hle (Z.le_refl _)) as E.
      rewrite Z.sub_diag, Z.mul_1_r in E.
      exists (qz + qy - qx + s). split; [lia|]. split; [lia|].
      apply N2Z.inj. rewrite !N2Z.inj_mul, !pow10_Z by lia.
      rewrite <- E. rewrite (Z.pow_add_r 10 (qz + qy - qx) s) by lia. ring.
    - pose proof (scaled_eq _ _ _ _ (qz + qy) HM' (Z.le_refl _) ltac:(lia)) as E.
      rewrite Z.sub_diag, Z.mul_1_r in E.
      set (d := qx - (qz + qy)) in *.
      assert (Hds : d <= s).
      { destruct (Z.le_gt_cases d s) as [|Hlt]; [assumption|exfalso].
        assert (Hb : Z.of_N cz * Z.of_N cy < 10 ^ (precision + ndigits cy)).
        { rewrite Z.pow_add_r by (unfold precision; lia).
          assert (10 ^ ndigits cz <= 10 ^ precision)
            by (apply Z.pow_le_mono_r; lia).
          nia. }
        assert (Hb' : 10 ^ (ndigits cx - 1 + d) <= Z.of_N cx * 10 ^ d).
        { rewrite Z.pow_add_r by lia.
          assert (0 < 10 ^ d) by (apply Z.pow_pos_nonneg; lia). nia. }
        assert (Hp : 10 ^ (precision + ndigits cy) <= 10 ^ (ndigits cx - 1 + d)).
        { apply Z.pow_le_mono_r; [lia|]. unfold s in Hlt. lia. }
        lia. }
      exists (s - d). split; [lia|]. split; [unfold d; lia|].
      apply N2Z.inj. rewrite !N2Z.inj_mul, !pow10_Z by lia.
      replace s with (d + (s - d)) at 1 by lia.
      rewrite Z.pow_add_r by lia.
      rewrite Z.mul_assoc, <- E. ring. }
  destruct Ht as (t & Ht0 & Hq & Hv).
  rewrite Hv, N.div_mul by exact Hy.
  unfold pow10 at 1. rewrite mk_pow10 by assumption.
  rewrite Z2N.id by exact Ht0. rewrite Hq, <- Hs.
  apply finalise_id. cbn [representable]. auto.
Qed.

End ExactFacts.

(* ------------------------------------------------------------------ *)
(** ** Differences                                         *)
(* ------------------------------------------------------------------ *)

Module SubFacts.

Import Js DecimalJS Spec DecimalFacts FormatFacts.

Lemma pow10_add a b : 0 <= a -> 0 <= b -> (pow10 (a + b) = pow10 a * pow10 b)%N.
Proof.
  intros Ha Hb. unfold pow10. rewrite Z2N.inj_add by assumption.
  apply N.pow_add_r.
Qed.


Lemma toString_zero s : toString (zero s) = "0".
Proof. destruct s; reflexivity. Qed.


End SubFacts.

(* ------------------------------------------------------------------ *)
(** ** Exact differences                                   *)
(* ------------------------------------------------------------------ *)

Module DifferenceFacts.

Import Js DecimalJS Spec DigitFacts DecimalFacts FormatFacts RoundingFacts
  ExactFacts SubFacts.

Lemma signed_eq (n1 n2 : bool) (a b : Q) :
  (0 < a)%Q -> (0 < b)%Q ->
  ((if n1 then - a else a) == (if n2 then - b else b))%Q ->
  n1 = n2 /\ (a == b)%Q.
Proof.
  intros Pa Pb H. destruct n1, n2; try (split; [reflexivity|lra]); exfalso; lra.
Qed.

(** A value has one normal form. *)
Lemma mk_of_value neg c1 q1 c2 q2 :
  (c1 <> 0)%N -> (c1 mod 10 <> 0)%N ->
  (Qmag c1 q1 == Qmag c2 q2)%Q ->
  mk neg c2 q2 = Finite neg c1 q1.
Proof.
  intros Hc Hm H. unfold Qmag in H.
  destruct (Z.le_gt_cases q2 q1) as [Hle|Hgt].
  - pose proof (scaled_eq _ _ _ _ q2 H Hle (Z.le_refl _)) as E.
    rewrite Z.sub_diag, Z.mul_1_r in E.
    assert (E' : c2 = (c1 * 10 ^ Z.to_N (q1 - q2))%N).
    { apply N2Z.inj. rewrite N2Z.inj_mul. fold (pow10 (q1 - q2)).
      rewrite pow10_Z by lia. lia. }
    rewrite E', mk_pow10 by assumption. f_equal. lia.
  - exfalso. pose proof (scaled_eq _ _ _ _ q1 H (Z.le_refl _) ltac:(lia)) as E.
    rewrite Z.sub_diag, Z.mul_1_r in E. apply Hm.
    apply N2Z.inj. rewrite N2Z.inj_mod, E.
    replace (q2 - q1) with (Z.succ (q2 - q1 - 1)) by lia.
    rewrite Z.pow_succ_r by lia.
    replace (Z.of_N c2 * (10 * 10 ^ (q2 - q1 - 1)))
      with (Z.of_N c2 * 10 ^ (q2 - q1 - 1) * 10) by ring.
    apply Z.mod_mul. discriminate.
Qed.

Lemma Qvalue_scaled neg c q m :
  m <= q -> (Qvalue (Finite neg c q) == inject_Z (scaled neg c q m) * ten ^ m)%Q.
Proof.
  intros H. rewrite Qvalue_mag. unfold Qmag, scaled.
  rewrite N2Z.inj_mul, pow10_Z by lia.
  assert (E : (ten ^ q == inject_Z (10 ^ (q - m)) * ten ^ m)%Q).
  { rewrite <- ten_pow_Z by lia. rewrite <- Qpower_plus by apply ten_nonzero.
    replace (q - m + m) with q by lia. reflexivity. }
  destruct neg; [rewrite inject_Z_opp|]; rewrite inject_Z_mult, E; ring.
Qed.

Lemma Qvalue_signed neg c q :
  (Qvalue (Finite neg c q) == if neg then - Qmag c q else Qmag c q)%Q.
Proof. apply Qvalue_mag. Qed.

Lemma representable_value (neg : bool) c q z :
  representable z ->
  (Qvalue z == (if neg then - Qmag c q else Qmag c q))%Q ->
  (c <> 0)%N ->
  finalise (mk neg c q) precision = z.
Proof.
  intros R H Hc. destruct z as [| |nz cz qz]; cbn [representable] in R;
    try contradiction.
  pose proof R as (Hz & Hm & _).
  rewrite Qvalue_mag in H.
  destruct (signed_eq _ _ _ _ (Qmag_pos cz qz Hz) (Qmag_pos c q Hc) H) as [-> E].
  rewrite (mk_of_value neg cz qz c q Hz Hm E).
  apply finalise_id. exact R.
Qed.

(** Subtraction is exact whenever the difference is representable. *)
Lemma sub_exact x y z :
  isFinite x = true -> isFinite y = true ->
  representable z ->
  (Qvalue z == Qvalue x - Qvalue y)%Q ->
  sub x y = z.
Proof.
  destruct x as [| |nx cx qx]; try discriminate.
  destruct y as [| |ny cy qy]; try discriminate.
  intros _ _ R H. cbn [sub].
  assert (Hzero : forall n q, (Qvalue (Finite n 0 q) == 0)%Q).
  { intros n q. cbn [Qvalue]. destruct n; cbn; ring. }
  assert (Hz : ~ (Qvalue z == 0)%Q).
  { destruct z as [| |nz cz qz]; cbn [representable] in R; try contradiction.
    destruct R as (Hc & _). rewrite Qvalue_mag.
    pose proof (Qmag_pos cz qz Hc). destruct nz; lra. }
  destruct (N.eqb_spec cy 0) as [Ey|Ey].
  - subst cy. rewrite Hzero in H.
    destruct (N.eqb_spec cx 0) as [Ex|Ex].
    + subst cx. rewrite Hzero in H. exfalso. apply Hz. rewrite H. ring.
    + apply representable_value; [exact R| |exact Ex].
      rewrite H, Qvalue_mag. ring.
  - destruct (N.eqb_spec cx 0) as [Ex|Ex].
    + subst cx. rewrite Hzero in H.
      apply representable_value; [exact R| |exact Ey].
      rewrite H, Qvalue_mag. destruct ny; cbn [negb]; ring.
    + set (m := Z.min qx qy) in *.
      set (d := scaled nx cx qx m - scaled ny cy qy m) in *.
      rewrite (Qvalue_scaled nx cx qx m), (Qvalue_scaled ny cy qy m) in H
        by (unfold m; lia).
      assert (Hd : (Qvalue z == inject_Z d * ten ^ m)%Q).
      { rewrite H. unfold d, Z.sub.
        rewrite inject_Z_plus, inject_Z_opp. ring. }
      destruct (Z.eqb_spec d 0) as [E0|E0].
      * exfalso. apply Hz. rewrite Hd, E0. ring.
      * apply representable_value; [exact R| |lia].
        rewrite Hd. unfold Qmag. rewrite Z2N.id by lia.
        destruct (Z.ltb_spec d 0) as [Hn|Hn].
        -- rewrite Z.abs_neq by lia. rewrite inject_Z_opp. ring.
        -- rewrite Z.abs_eq by lia. reflexivity.
Qed.

End DifferenceFacts.

(* ------------------------------------------------------------------ *)
(** ** Facts about the handlers                            *)
(* ------------------------------------------------------------------ *)

Module HandlerFacts.

Import Js DecimalJS Spec DigitFacts DecimalFacts StringFacts FormatFacts.

Section WithHost.

Variable lib : Internals.
Variable tz : JsDate.TimeZone.



Lemma calculateRatio_present p r :
  calculateRatio lib (Some p) = Ok r -> exists d, r = Some d.
Proof.
  cbn [calculateRatio].
  destruct (fromString lib (Prisma.currentUsdBalance p)); cbn [bind]; [|discriminate].
  destruct (fromString lib (Prisma.totalShares p)); cbn [bind]; [|discriminate].
  intros H. inversion H. eauto.
Qed.

Lemma getPoolsStats_Ok a e lr wr yr :
  calculateRatio lib (lastEntry e) = Ok lr ->
  calculateRatio lib (weeklyEntry e) = Ok wr ->
  calculateRatio lib (yesterdayEntry e) = Ok yr ->
  getPoolsStats lib a e = Ok (rowOf lib a e lr wr yr).
Proof.
  intros Hl Hw Hy. unfold getPoolsStats. rewrite Hl, Hw, Hy. reflexivity.
Qed.

Lemma getPoolsStats_inv a e row :
  getPoolsStats lib a e = Ok row ->
  exists lr wr yr,
    calculateRatio lib (lastEntry e) = Ok lr /\
    calculateRatio lib (weeklyEntry e) = Ok wr /\
    calculateRatio lib (yesterdayEntry e) = Ok yr /\
    row = rowOf lib a e lr wr yr.
Proof.
  unfold getPoolsStats.
  destruct (calculateRatio lib (lastEntry e)) as [lr|]; cbn [bind]; [|discriminate].
  destruct (calculateRatio lib (weeklyEntry e)) as [wr|]; cbn [bind]; [|discriminate].
  destruct (calculateRatio lib (yesterdayEntry e)) as [yr|]; cbn [bind]; [|discriminate].
  intros H. inversion H. exists lr, wr, yr. auto.
Qed.


(** *** The loop of [getStats] *)

Lemma getStats_loop_addresses clock db i addrs acc rows :
  getStats_loop lib tz clock db i addrs acc = Ok rows ->
  map address rows = (map address acc ++ addrs)%list.
Proof.
  revert i acc; induction addrs as [|a addrs IH]; intros i acc H;
    cbn [getStats_loop] in H.
  - inversion H. now rewrite app_nil_r.
  - destruct (getPoolsStats lib a _) as [row|] eqn:E; cbn [bind] in H; [|discriminate].
    apply IH in H. rewrite H, map_app. cbn [map].
    apply getPoolsStats_inv in E. destruct E as (lr & wr & yr & _ & _ & _ & ->).
    cbn [rowOf address]. now rewrite <- app_assoc.
Qed.

Lemma getStats_loop_ext c1 c2 db i addrs acc :
  (forall j, nowDate (c1 j) = nowDate (c2 j)) ->
  getStats_loop lib tz c1 db i addrs acc = getStats_loop lib tz c2 db i addrs acc.
Proof.
  intros H. revert i acc; induction addrs as [|a addrs IH]; intros i acc;
    cbn [getStats_loop]; [reflexivity|].
  assert (E : getPoolsEntries tz (c1 i) db a = getPoolsEntries tz (c2 i) db a).
  { unfold getPoolsEntries, weeklyDateMin, weeklyDateMax, yesterdayDateMin.
    rewrite (H i). reflexivity. }
  rewrite E. destruct (getPoolsStats lib a _); cbn [bind]; [apply IH|reflexivity].
Qed.

End WithHost.

End HandlerFacts.

(* ------------------------------------------------------------------ *)
(** ** Facts about the table-backed store                  *)
(* ------------------------------------------------------------------ *)

Module StoreFacts.

Import Prisma Spec.

Lemma matches_address q p :
  matches q p = true -> String.eqb (address p) (where_address q) = true.
Proof. unfold matches. intros H. apply andb_prop in H. tauto. Qed.

Lemma table_none rows q :
  snapshots_of rows (where_address q) = [] -> table_findFirst rows q = None.
Proof.
  intros H. unfold table_findFirst.
  assert (E : filter (matches q) rows = []).
  { revert H. unfold snapshots_of. induction rows as [|p rows IH]; [reflexivity|].
    cbn [filter]. destruct (String.eqb (address p) (where_address q)) eqn:Ea.
    - discriminate.
    - intros H. destruct (matches q p) eqn:Em.
      + apply matches_address in Em. congruence.
      + apply IH, H. }
  now rewrite E.
Qed.

Lemma table_single rows a p o :
  snapshots_of rows a = [p] ->
  table_findFirst rows
    {| where_address := a; where_blockTime := None;
       orderBy_blockTime := Some o |} = Some p.
Proof.
  intros H. unfold table_findFirst.
  assert (E : filter (matches {| where_address := a; where_blockTime := None;
                                 orderBy_blockTime := Some o |}) rows = [p]).
  { rewrite <- H. unfold snapshots_of. apply filter_ext. intros x.
    unfold matches. cbn. apply andb_true_r. }
  rewrite E. reflexivity.
Qed.

End StoreFacts.

(* ------------------------------------------------------------------ *)
(** ** Ratios that are not finite                          *)
(* ------------------------------------------------------------------ *)

Module RatioFacts.

Import Js DecimalJS Spec DecimalFacts FormatFacts HandlerFacts.

Lemma div_by_zero_nonfinite x s :
  isZero s = true -> isFinite (div x (div s (ofZ SHARES_SCALE))) = false.
Proof.
  intros Hs. unfold SHARES_SCALE. rewrite ofZ_scale.
  destruct s as [| |ns cs qs]; try discriminate. cbn [isZero] in Hs.
  cbn [div]. cbn [N.eqb]. rewrite Hs.
  destruct x as [| |nx cx qx]; cbn [div zero isFinite]; try reflexivity.
  cbn [N.eqb]. destruct (cx =? 0)%N; reflexivity.
Qed.

Lemma NumDiv_365_7 :
  exists m e,
    JsNumber.div (JsNumber.ofZ DAYS_IN_YEAR) (JsNumber.ofZ AVG_DAYS)
    = SpecFloat.S754_finite false m e /\
    JsNumber.isOddInteger (SpecFloat.S754_finite false m e) = false.
Proof. do 2 eexists. split; vm_compute; reflexivity. Qed.

Section WithLib.

Variable lib : Internals.

Lemma avgApy_nonfinite l w :
  isFinite l = false -> nonfinite_text (avgApyOf lib l w).
Proof.
  unfold nonfinite_text.
  destruct l as [|nl|]; [| |discriminate]; intros _;
    destruct w as [|nw|nw cw qw]; try destruct nl; try destruct nw;
      vm_compute; auto.
Qed.

Lemma weeklyApr_nonfinite l w :
  isFinite l = false -> nonfinite_text (weeklyAprOf l w).
Proof.
  unfold nonfinite_text.
  destruct l as [|nl|]; [| |discriminate]; intros _;
    destruct w as [|nw|nw cw qw]; try destruct nl; try destruct nw;
      vm_compute; auto.
Qed.

Lemma dailyApr_nonfinite l y :
  isFinite l = false -> nonfinite_text (dailyAprOf l y).
Proof.
  unfold nonfinite_text.
  destruct l as [|nl|]; [| |discriminate]; intros _;
    destruct y as [|ny|ny cy qy]; try destruct nl; try destruct ny;
      vm_compute; auto.
Qed.

Lemma earnMultiplier_nonfinite l y :
  isFinite l = false -> nonfinite_text (earnMultiplierOf l y).
Proof.
  unfold nonfinite_text.
  destruct l as [|nl|]; [| |discriminate]; intros _;
    destruct y as [|ny|ny cy qy]; try destruct nl; try destruct ny;
      vm_compute; auto.
Qed.

(** With no day elapsed the exponent is infinite and [pow] falls back
    on [Math.pow]: three outcomes only. *)
Lemma baseApy_zero_days r s :
  baseApyOf lib r (SpecFloat.S754_zero s) = "Infinity" \/
  baseApyOf lib r (SpecFloat.S754_zero s) = "-100.000000" \/
  baseApyOf lib r (SpecFloat.S754_zero s) = "NaN".
Proof.
  unfold baseApyOf.
  assert (E : JsNumber.div (JsNumber.ofZ DAYS_IN_YEAR) (SpecFloat.S754_zero s)
              = SpecFloat.S754_infinity s).
  { destruct s; vm_compute; reflexivity. }
  rewrite E. unfold pow. cbn [ofNumber special isFinite negb].
  rewrite orb_true_r.
  destruct r as [|nr|nr c q]; cbn [mathpow].
  - right. right. vm_compute. reflexivity.
  - destruct s; [right; left|left]; vm_compute; reflexivity.
  - destruct (c =? 0)%N.
    + destruct s; [left|right; left]; vm_compute; reflexivity.
    + destruct (cmp_abs_one c q).
      * right. right. vm_compute. reflexivity.
      * destruct s; [left|right;left]; vm_compute; reflexivity.
      * destruct s; [right; left|left]; vm_compute; reflexivity.
Qed.

End WithLib.

(** The first version of the handler has no placeholder for
    [baseApy]. *)
Lemma legacy_baseApy_computed lib nowFirst nowLast a e row :
  legacyStats lib nowFirst nowLast a e = Ok row -> baseApy row <> placeholder.
Proof.
  unfold legacyStats.
  destruct (legacyRatio lib (lastEntry e)); cbn [bind]; [|discriminate].
  destruct (legacyRatio lib (weeklyEntry e)); cbn [bind]; [|discriminate].
  destruct (legacyRatio lib (yesterdayEntry e)); cbn [bind]; [|discriminate].
  intros H. inversion H. cbn [baseApy]. apply toFixed_not_placeholder.
Qed.

(** The first version of the handler turns a weekly ratio that is NaN
    into the placeholder; [getPoolsStats], which tests the snapshot and
    not the ratio, prints it. *)
Lemma degenerate_weekly_snapshot lib :
  calculateRatio lib (Some Examples.snapW) = Ok (Some NaN) /\
  (exists row,
     legacyStats lib 0 0 "Z" Examples.entriesW = Ok row /\
     avgApy row = placeholder /\ weeklyBasedApr row = placeholder) /\
  (exists row,
     getPoolsStats lib "Z" Examples.entriesW = Ok row /\
     avgApy row = "NaN" /\ weeklyBasedApr row = "NaN").
Proof.
  split; [vm_compute; reflexivity|]. split.
  - eexists. split; [vm_compute; reflexivity|]. split; reflexivity.
  - exists (rowOf lib "Z" Examples.entriesW (Some (Finite false 1 0))
                  (Some NaN) None).
    split; [apply getPoolsStats_Ok; vm_compute; reflexivity|].
    cbn [rowOf avgApy weeklyBasedApr]. split; vm_compute; reflexivity.
Qed.

End RatioFacts.

(* ------------------------------------------------------------------ *)
(** ** Facts about dates                                   *)
(* ------------------------------------------------------------------ *)

Module DateFacts.

Import JsDate.

Lemma month_search_range fuel leap m dwy :
  m <= month_search fuel leap m dwy <= m + Z.of_nat fuel.
Proof.
  revert m; induction fuel as [|f IH]; intros m; cbn [month_search]; [lia|].
  destruct (dwy <? daysBeforeMonth leap (m + 1)); [lia|].
  specialize (IH (m + 1)). lia.
Qed.

Lemma MonthFromTime_range t : 0 <= MonthFromTime t <= 11.
Proof.
  unfold MonthFromTime.
  pose proof (month_search_range 11 (InLeapYear t) 0 (DayWithinYear t)). lia.
Qed.

(** Setting the UTC day of the month moves the date by whole days. *)
Lemma setUTCDate_shift t dt :
  setUTCDate t dt = t + (dt - getUTCDate t) * msPerDay.
Proof.
  unfold setUTCDate, MakeDate, MakeDay, getUTCDate, DateFromTime, DayWithinYear.
  pose proof (MonthFromTime_range t) as Hm.
  rewrite (Z.div_small (MonthFromTime t) 12) by lia.
  rewrite (Z.mod_small (MonthFromTime t) 12) by lia.
  rewrite Z.add_0_r. fold (InLeapYear t).
  unfold TimeWithinDay, Day.
  pose proof (Z.div_mod t msPerDay ltac:(unfold msPerDay; lia)) as Hdm.
  lia.
Qed.

Lemma getDate_UTC t : getDate UTC t = getUTCDate t.
Proof. unfold getDate, LocalTime, UTC, getUTCDate. now rewrite Z.add_0_r. Qed.

(** The window boundaries, on any host: whole days away from
    [nowDate], as many as the local day of the month prescribes. *)
Lemma window_boundaries tz now :
  let d := getDate tz (nowDate now) - getUTCDate (nowDate now) in
  weeklyDateMin tz now = nowDate now + (d - 7) * msPerDay /\
  weeklyDateMax tz now = nowDate now + (d - 6) * msPerDay /\
  yesterdayDateMin tz now = nowDate now + (d - 1) * msPerDay.
Proof.
  unfold weeklyDateMin, weeklyDateMax, yesterdayDateMin, AVG_DAYS.
  rewrite !setUTCDate_shift. cbv zeta. repeat split; f_equal; lia.
Qed.

(** On a host whose local time is UTC the windows are the ones of the
    specification. *)
Lemma windows_on_UTC_host now :
  weeklyDateMin UTC now = nowDate now - 7 * msPerDay /\
  weeklyDateMax UTC now = nowDate now - 6 * msPerDay /\
  yesterdayDateMin UTC now = nowDate now - msPerDay.
Proof.
  destruct (window_boundaries UTC now) as (A & B & C).
  rewrite getDate_UTC in *. rewrite A, B, C. repeat split; lia.
Qed.

Lemma nowDate_midnight now :
  nowDate now <= now < nowDate now + msPerDay /\ nowDate now mod msPerDay = 0.
Proof.
  unfold nowDate, setUTCHours0, MakeDate, Day.
  pose proof (Z.div_mod now msPerDay ltac:(unfold msPerDay; lia)) as Hdm.
  pose proof (Z.mod_pos_bound now msPerDay ltac:(unfold msPerDay; lia)) as Hb.
  split; [lia|]. rewrite Z.add_0_r. apply Z.mod_mul. unfold msPerDay. lia.
Qed.

End DateFacts.

(* ------------------------------------------------------------------ *)
(** ** Powers                                              *)
(* ------------------------------------------------------------------ *)

Module PowFacts.

Import Js DecimalJS Spec DecimalFacts FormatFacts RoundingFacts ExactFacts.

Lemma representable_finite x :
  representable x -> isFinite x = true /\ isZero x = false.
Proof.
  destruct x as [| |neg c q]; cbn [representable]; try contradiction.
  intros (Hc & _). cbn. split; [reflexivity|]. now apply N.eqb_neq.
Qed.



End PowFacts.

(* ------------------------------------------------------------------ *)
(** ** Reading numeric literals                            *)
(* ------------------------------------------------------------------ *)

Module ParseFacts.

Import Js DecimalJS Spec DigitFacts DecimalFacts StringFacts FormatFacts
  RoundingFacts.

Lemma span_digits_run ds rest acc cnt :
  all_digits ds = true -> head_not_digit rest ->
  span_digits (ds ++ rest) acc cnt
  = (value_from acc ds, cnt + Z.of_nat (String.length ds), rest).
Proof.
  revert acc cnt; induction ds as [|a ds IH]; intros acc cnt Hd Hr.
  - cbn [append value_from String.length]. rewrite Z.add_0_r.
    destruct rest as [|b rest]; cbn [span_digits]; [reflexivity|].
    cbn [head_not_digit] in Hr. now rewrite Hr.
  - cbn [all_digits] in Hd. apply andb_prop in Hd. destruct Hd as [Ha Hd].
    cbn [append span_digits]. rewrite Ha. rewrite IH by assumption.
    cbn [value_from String.length]. f_equal. f_equal. lia.
Qed.

Lemma span_digits_all ds acc cnt :
  all_digits ds = true ->
  span_digits ds acc cnt
  = (value_from acc ds, cnt + Z.of_nat (String.length ds), "").
Proof.
  intros H. rewrite <- (append_nil_r ds) at 1.
  apply span_digits_run; [exact H|exact I].
Qed.

Lemma value_from_app acc s t :
  value_from acc (s ++ t) = value_from (value_from acc s) t.
Proof.
  revert acc; induction s as [|a s IH]; intros acc; cbn [append value_from];
    [reflexivity|apply IH].
Qed.

Lemma value_from_zeros k acc :
  value_from acc (getZeroString k) = (acc * 10 ^ N.of_nat k)%N.
Proof.
  revert acc; induction k as [|k IH]; intros acc.
  - cbn. lia.
  - cbn [getZeroString value_from]. rewrite IH.
    change (digit_val "0") with 0%N.
    rewrite Nat2N.inj_succ, N.pow_succ_r'. lia.
Qed.

Lemma value_from_digits_fuel f n acc a :
  (n < 2 ^ N.of_nat f)%N ->
  value_from a (digits_fuel f n acc)
  = value_from (a * 10 ^ Z.to_N (ndigits_fuel f n) + n)%N acc.
Proof.
  revert n acc a; induction f as [|f IH]; intros n acc a Hlt.
  - assert (n = 0%N) by (simpl in Hlt; lia). subst n.
    cbn [digits_fuel ndigits_fuel value_from].
    change (digit_val (digit_char (0 mod 10))) with 0%N.
    f_equal. change (10 ^ Z.to_N 1)%N with 10%N. lia.
  - cbn [digits_fuel ndigits_fuel].
    destruct (N.ltb_spec n 10) as [Hs|Hs].
    + cbn [value_from]. rewrite digit_val_char by exact Hs.
      f_equal. change (10 ^ Z.to_N 1)%N with 10%N. lia.
    + rewrite IH.
      2:{ rewrite Nat2N.inj_succ, N.pow_succ_r' in Hlt.
          apply N.Div0.div_lt_upper_bound. lia. }
      cbn [value_from]. rewrite digit_val_char by apply mod10_lt.
      f_equal.
      pose proof (ndigits_fuel_pos f (n / 10)) as Hp.
      replace (Z.to_N (1 + ndigits_fuel f (n / 10)))
        with (N.succ (Z.to_N (ndigits_fuel f (n / 10)))) by lia.
      rewrite N.pow_succ_r'.
      pose proof (N.div_mod n 10 ltac:(discriminate)) as Hdm.
      revert Hdm. generalize (n / 10)%N (n mod 10)%N (10 ^ Z.to_N (ndigits_fuel f (n / 10)))%N.
      intros x y P Hdm. lia.
Qed.

Lemma value_from_digits c acc :
  value_from acc (digits c) = (acc * 10 ^ Z.to_N (ndigits c) + c)%N.
Proof.
  unfold digits, ndigits. rewrite value_from_digits_fuel.
  - reflexivity.
  - rewrite N2Nat.id. apply N.size_gt.
Qed.

Lemma value_digits c : value_from 0 (digits c) = c.
Proof. rewrite value_from_digits. lia. Qed.

Lemma length_pos_nonempty s :
  s <> "" -> (0 <? 0 + Z.of_nat (String.length s)) = true.
Proof.
  intros H. destruct s as [|a s]; [contradiction|].
  cbn [String.length]. apply Z.ltb_lt. lia.
Qed.

Lemma parse_with_point int_ds frac_ds tail :
  all_digits int_ds = true -> int_ds <> "" ->
  all_digits frac_ds = true -> head_not_digit tail ->
  parse_unsigned (int_ds ++ "." ++ frac_ds ++ tail)
  = tail_exponent tail (Z.of_nat (String.length frac_ds))
                  (value_from (value_from 0 int_ds) frac_ds).
Proof.
  intros Hi Hne Hf Ht. unfold parse_unsigned.
  rewrite span_digits_run; [|exact Hi|reflexivity].
  cbn [append]. rewrite span_digits_run by assumption.
  rewrite (length_pos_nonempty _ Hne). cbn [orb]. rewrite Z.add_0_l.
  unfold tail_exponent. destruct tail; reflexivity.
Qed.

Lemma parse_without_point int_ds tail :
  all_digits int_ds = true -> int_ds <> "" ->
  head_not_digit tail ->
  (tail = "" \/ exists a r, tail = String a r /\ is_e a = true) ->
  parse_unsigned (int_ds ++ tail)
  = tail_exponent tail 0 (value_from 0 int_ds).
Proof.
  intros Hi Hne Ht Hs. unfold parse_unsigned.
  rewrite span_digits_run by assumption.
  rewrite (length_pos_nonempty _ Hne). cbn [orb].
  destruct Hs as [->|(a & r & -> & Ha)].
  - reflexivity.
  - assert (E : forall A (x y : A),
               match String a r with String "." r0 => x | _ => y end = y).
    { intros A x y. unfold is_e in Ha.
      destruct a as [[] [] [] [] [] [] [] []]; try reflexivity; discriminate Ha. }
    unfold tail_exponent. rewrite Ha.
    destruct a as [[] [] [] [] [] [] [] []]; try discriminate Ha; reflexivity.
Qed.

Lemma parse_exponent_digits n :
  parse_exponent (String "+" (digits n)) = Some (Z.of_N n) /\
  parse_exponent (String "-" (digits n)) = Some (- Z.of_N n).
Proof.
  unfold parse_exponent.
  rewrite (span_digits_all _ 0%N 0 (digits_all_digits n)), value_digits.
  pose proof (digits_nonempty n) as Hne.
  rewrite (length_pos_nonempty _ Hne). cbn [andb is_empty]. auto.
Qed.

Lemma parse_exponent_printed e :
  parse_exponent ((if e <? 0 then "" else "+") ++ string_of_Z e) = Some e.
Proof.
  destruct e as [|p|p]; cbn [Z.ltb Z.compare append string_of_Z].
  - apply (parse_exponent_digits 0).
  - apply (parse_exponent_digits (N.pos p)).
  - apply (parse_exponent_digits (N.pos p)).
Qed.

End ParseFacts.

(* ------------------------------------------------------------------ *)
(** ** Printing and reading back                           *)
(* ------------------------------------------------------------------ *)

Module PrintFacts.

Import Js DecimalJS Spec DigitFacts DecimalFacts StringFacts FormatFacts
  RoundingFacts ParseFacts.

Lemma head_digit ds rest :
  all_digits ds = true -> ds <> "" ->
  exists a r, ds ++ rest = String a r /\ is_digit a = true.
Proof.
  intros Hd Hne. destruct ds as [|a ds]; [contradiction|].
  cbn [all_digits] in Hd. apply andb_prop in Hd. destruct Hd as [Ha _].
  cbn [append]. eauto.
Qed.

Lemma exponent_mark e :
  (if e <? 0 then "e" else "e+") ++ string_of_Z e
  = String "e" ((if e <? 0 then "" else "+") ++ string_of_Z e).
Proof. destruct (e <? 0); reflexivity. Qed.

(** What [toString] prints for a non-zero value in normal form reads
    back, as a plain decimal literal, to the same value. *)
Lemma printed_body_parses c q isExp :
  (c <> 0)%N -> (c mod 10 <> 0)%N ->
  let body := finiteToString (Finite false c q) isExp 0 in
  (exists c' q',
     parse_unsigned body = Some (c', q') /\
     forall neg, mk neg c' q' = Finite neg c q) /\
  exists a r, body = String a r /\ is_digit a = true.
Proof.
  intros Hc Hm body. unfold body, finiteToString.
  rewrite mk_id by assumption. rewrite (sciexp_nonzero c q Hc).
  pose proof (digits_length c) as Hlen.
  pose proof (digits_all_digits c) as Hdig.
  pose proof (digits_nonempty c) as Hne.
  pose proof (ndigits_pos c) as Hnd.
  pose proof (value_digits c) as Hval.
  set (str := digits c) in *. set (nd := ndigits c) in *.
  rewrite Hlen.
  assert (Hself : forall neg, mk neg c q = Finite neg c q)
    by (intros; apply mk_id; assumption).
  destruct isExp.
  - (* exponential notation *)
    destruct (Z.ltb_spec 0 (0 - nd)) as [|_]; [lia|].
    rewrite exponent_mark.
    destruct (Z.ltb_spec 1 nd) as [H1|H1].
    + assert (Hk : (1 <= String.length str)%nat) by lia.
      destruct (all_digits_split 1 str Hk Hdig) as [D1 D2].
      assert (N1 : charAt0 str <> "").
      { unfold charAt0. intros E. apply (f_equal String.length) in E.
        rewrite substring_0_length in E by exact Hk. discriminate E. }
      unfold slice_from. rewrite !append_assoc. split.
      * exists c, q. split; [|exact Hself].
        rewrite parse_with_point; try assumption; [|reflexivity].
        unfold tail_exponent. change (is_e "e") with true. cbv iota.
        rewrite parse_exponent_printed. rewrite <- value_from_app.
        unfold charAt0. rewrite <- (substring_split 1 str Hk), Hval.
        rewrite length_split_tail by exact Hk. do 2 f_equal. lia.
      * apply head_digit; assumption.
    + split.
      * exists c, q. split; [|exact Hself].
        rewrite parse_without_point; try assumption;
          [|reflexivity|right; do 2 eexists; split; reflexivity].
        unfold tail_exponent. change (is_e "e") with true. cbv iota.
        rewrite parse_exponent_printed, Hval. do 2 f_equal. lia.
      * apply head_digit; assumption.
  - destruct (Z.ltb_spec (nd - 1 + q) 0) as [He|He].
    + (* 0.00ddd *)
      destruct (Z.ltb_spec 0 (0 - nd)) as [|_]; [lia|].
      rewrite append_nil_r. split.
      * exists c, q. split; [|exact Hself].
        replace ("0." ++ zeros (- (nd - 1 + q) - 1) ++ str)
          with ("0" ++ "." ++ (zeros (- (nd - 1 + q) - 1) ++ str) ++ "")
          by (rewrite append_nil_r; reflexivity).
        rewrite parse_with_point;
          [|reflexivity|discriminate
           |rewrite all_digits_app, zeros_digits, Hdig; reflexivity|exact I].
        cbn [tail_exponent]. rewrite value_from_app.
        unfold zeros. rewrite value_from_zeros. cbn [value_from].
        change (10 * 0 + digit_val "0")%N with 0%N. rewrite N.mul_0_l, Hval.
        rewrite length_append, Nat2Z.inj_add, Hlen, length_zeros.
        do 2 f_equal. lia.
      * do 2 eexists. split; [reflexivity|reflexivity].
    + destruct (Z.leb_spec nd (nd - 1 + q)) as [Hb|Hb].
      * (* ddd000 *)
        destruct (Z.ltb_spec 0 (0 - (nd - 1 + q) - 1)) as [|_]; [lia|].
        rewrite append_nil_r. split.
        -- exists (c * pow10 (nd - 1 + q + 1 - nd))%N, 0. split.
           ++ rewrite <- (append_nil_r (str ++ zeros _)).
              rewrite parse_without_point;
                [|rewrite all_digits_app, Hdig, zeros_digits; reflexivity
                 |destruct str; [contradiction|discriminate]
                 |exact I|left; reflexivity].
              cbn [tail_exponent]. rewrite value_from_app, Hval.
              unfold zeros. rewrite value_from_zeros. unfold pow10.
              rewrite Z_nat_N. reflexivity.
           ++ intros neg. unfold pow10. rewrite mk_pow10 by assumption.
              f_equal. lia.
        -- apply head_digit; assumption.
      * destruct (Z.ltb_spec 0 (0 - nd)) as [|_]; [lia|].
        rewrite append_nil_r.
        destruct (Z.ltb_spec (nd - 1 + q + 1) nd) as [Hc'|Hc'].
        -- (* dd.ddd *)
           assert (Hk : (Z.to_nat (nd - 1 + q + 1) <= String.length str)%nat) by lia.
           destruct (all_digits_split _ _ Hk Hdig) as [D1 D2].
           assert (N1 : substring 0 (Z.to_nat (nd - 1 + q + 1)) str <> "").
           { intros E. apply (f_equal String.length) in E.
             rewrite substring_0_length in E by exact Hk.
             cbn [String.length] in E. lia. }
           unfold slice_from. split.
           ++ exists c, q. split; [|exact Hself].
              rewrite <- (append_nil_r (substring (Z.to_nat _) _ str)).
              rewrite parse_with_point; try assumption; [|exact I].
              cbn [tail_exponent]. rewrite <- value_from_app.
              rewrite <- (substring_split _ str Hk), Hval.
              rewrite length_split_tail by exact Hk. do 2 f_equal. lia.
           ++ apply head_digit; assumption.
        -- (* ddd *)
           split.
           ++ exists c, q. split; [|exact Hself].
              rewrite <- (append_nil_r str).
              rewrite parse_without_point; try assumption;
                [|exact I|left; reflexivity].
              cbn [tail_exponent]. rewrite Hval. do 2 f_equal. lia.
           ++ rewrite <- (append_nil_r str). apply head_digit; assumption.
Qed.

Lemma finiteToString_sign neg c q isExp sd :
  (c <> 0)%N -> (c mod 10 <> 0)%N ->
  finiteToString (Finite neg c q) isExp sd
  = finiteToString (Finite false c q) isExp sd.
Proof.
  intros Hc Hm. unfold finiteToString. rewrite !mk_id by assumption. reflexivity.
Qed.

Section WithLib.

Variable lib : Internals.







End WithLib.

End PrintFacts.

(* ------------------------------------------------------------------ *)
(** ** The properties                                      *)
(* ------------------------------------------------------------------ *)

Import Js DecimalJS Spec DecimalFacts FormatFacts RoundingFacts ExactFacts
  SubFacts DifferenceFacts HandlerFacts StoreFacts RatioFacts DateFacts
  PowFacts PrintFacts Examples.

(** C1 (as the code has it): a last snapshot whose [totalShares] decodes
    to zero gives a ratio that is present and not finite (NaN or an
    infinity); no placeholder is substituted for it: [baseApy] is a
    formatted value, and each of the other four fields whose second
    snapshot is present prints as NaN, Infinity or -Infinity. *)
Theorem C1_zero_shares_propagate :
  forall lib a e l u s,
    lastEntry e = Some l ->
    fromString lib (Prisma.currentUsdBalance l) = Ok u ->
    fromString lib (Prisma.totalShares l) = Ok s ->
    isZero s = true ->
    exists r,
      calculateRatio lib (Some l) = Ok (Some r) /\ isFinite r = false /\
      forall row,
        getPoolsStats lib a e = Ok row ->
        baseApy row <> placeholder /\
        (weeklyEntry e <> None ->
         nonfinite_text (avgApy row) /\ nonfinite_text (weeklyBasedApr row)) /\
        (yesterdayEntry e <> None ->
         nonfinite_text (dailyBasedApr row) /\
         nonfinite_text (earnMultiplier row)).
Proof.
  intros lib a e l u s Hl Hu Hs Hz.
  assert (Hr : calculateRatio lib (Some l)
               = Ok (Some (div (div u (ofZ USD_SCALE)) (div s (ofZ SHARES_SCALE))))).
  { cbn [calculateRatio]. rewrite Hu. cbn [bind]. rewrite Hs. reflexivity. }
  eexists. split; [exact Hr|].
  pose proof (div_by_zero_nonfinite (div u (ofZ USD_SCALE)) s Hz) as Hnf.
  split; [exact Hnf|].
  intros row Hrow. apply getPoolsStats_inv in Hrow.
  destruct Hrow as (lr & wr & yr & El & Ew & Ey & ->).
  rewrite Hl, Hr in El. inversion El; subst lr. clear El.
  cbn [rowOf baseApy avgApy weeklyBasedApr dailyBasedApr earnMultiplier].
  split; [apply toFixed_not_placeholder|]. split.
  - intros Hw. destruct (weeklyEntry e) as [w|]; [|contradiction].
    apply calculateRatio_present in Ew. destruct Ew as [dw ->].
    split; [apply avgApy_nonfinite|apply weeklyApr_nonfinite]; exact Hnf.
  - intros Hy. destruct (yesterdayEntry e) as [y|]; [|contradiction].
    apply calculateRatio_present in Ey. destruct Ey as [dy ->].
    split; [apply dailyApr_nonfinite|apply earnMultiplier_nonfinite]; exact Hnf.
Qed.

Lemma C1_zero_shares_witness :
  exists r row,
    calculateRatio plain (Some snapZ) = Ok (Some r) /\ isFinite r = false /\
    getPoolsStats plain "Z" entriesZfull = Ok row /\
    baseApy row <> placeholder /\
    nonfinite_text (avgApy row) /\ nonfinite_text (weeklyBasedApr row) /\
    nonfinite_text (dailyBasedApr row) /\ nonfinite_text (earnMultiplier row).
Proof.
  destruct (C1_zero_shares_propagate plain "Z" entriesZfull snapZ
              (Finite false 1 6) (Finite false 0 0)
              eq_refl eq_refl eq_refl eq_refl)
    as (r & Hr & Hf & H).
  destruct (getPoolsStats plain "Z" entriesZfull) as [row|msg] eqn:E;
    [|vm_compute in E; discriminate E].
  destruct (H row eq_refl) as (Hb & Hw & Hy).
  destruct (Hw ltac:(discriminate)) as [H1 H2].
  destruct (Hy ltac:(discriminate)) as [H3 H4].
  exists r, row. auto 10.
Defined.

(** C1, as stated, fails: with a last snapshot of zero shares the
    field [baseApy] is the text Infinity, not the placeholder. *)
Lemma C1_counterexample :
  (forall lib,
     getPoolsStats lib "Z" entriesZ
     = Ok {| address := "Z"; baseApy := "Infinity";
             avgApy := placeholder; dailyBasedApr := placeholder;
             weeklyBasedApr := placeholder; earnMultiplier := "0" |})
  /\ fromString plain (Prisma.totalShares snapZ) = Ok (Finite false 0 0)
  /\ includes "Infinity" "Infinity" = true
  /\ "Infinity" <> placeholder.
Proof.
  split; [intros lib; vm_compute; reflexivity|].
  split; [reflexivity|]. split; [reflexivity|discriminate].
Qed.




(** C3 (as the code has it): an address without any snapshot gets the
    four placeholders and the multiplier 0; an address with exactly one
    snapshot has it as last entry, so its [baseApy] is computed and is
    never the placeholder. *)
Theorem C3_no_snapshot_placeholders :
  forall lib tz rows a now,
    (snapshots_of rows a = [] ->
     getPoolsStats lib a (getPoolsEntries tz now (Prisma.table rows) a)
     = Ok (emptyRow a)) /\
    (forall p row,
       snapshots_of rows a = [p] ->
       getPoolsStats lib a (getPoolsEntries tz now (Prisma.table rows) a)
       = Ok row ->
       baseApy row <> placeholder).
Proof.
  intros lib tz rows a now. split.
  - intros H. unfold getPoolsEntries. cbn [Prisma.table Prisma.findFirst].
    rewrite !table_none by exact H. reflexivity.
  - intros p row H Hrow. apply getPoolsStats_inv in Hrow.
    destruct Hrow as (lr & wr & yr & El & _ & _ & ->).
    unfold getPoolsEntries in El. cbn [Prisma.table Prisma.findFirst lastEntry] in El.
    rewrite (table_single rows a p Prisma.desc H) in El.
    destruct (calculateRatio_present lib _ _ El) as [r ->].
    cbn [rowOf baseApy]. apply toFixed_not_placeholder.
Qed.

Lemma C3_no_snapshot_witness :
  getPoolsStats plain "Q" (getPoolsEntries JsDate.UTC now (Prisma.table rowsB) "Q")
  = Ok (emptyRow "Q") /\
  exists row,
    getPoolsStats plain "B" (getPoolsEntries JsDate.UTC now (Prisma.table rowsB) "B")
    = Ok row /\
    baseApy row <> placeholder.
Proof.
  split.
  - apply (proj1 (C3_no_snapshot_placeholders plain JsDate.UTC rowsB "Q" now)).
    reflexivity.
  - destruct (getPoolsStats plain "B"
                (getPoolsEntries JsDate.UTC now (Prisma.table rowsB) "B"))
      as [row|msg] eqn:E; [|vm_compute in E; discriminate E].
    exists row. split; [reflexivity|].
    apply (proj2 (C3_no_snapshot_placeholders plain JsDate.UTC rowsB "B" now)
             snapB row eq_refl E).
Defined.

(** C3, as stated, fails: the table holds one snapshot of B, fewer
    than two, and [baseApy] is the text Infinity. *)
Lemma C3_counterexample :
  (length (snapshots_of rowsB "B") < 2)%nat /\
  (forall lib,
     getStats lib JsDate.UTC (fun _ => now) (Prisma.table rowsB)
     = Ok [ {| address := "B"; baseApy := "Infinity";
               avgApy := placeholder; dailyBasedApr := placeholder;
               weeklyBasedApr := placeholder; earnMultiplier := "0" |} ])
  /\ "Infinity" <> placeholder.
Proof.
  split; [cbn; lia|].
  split; [intros lib; vm_compute; reflexivity|discriminate].
Qed.

(** C8 (as the code has it): [getStats] returns one row per listed
    address, in the order of the list, without removing anything; the
    addresses of the rows are exactly the listed ones, so the output
    repeats an address as often as the list does. *)
Theorem C8_one_row_per_listed_address :
  forall lib tz clock dbClient rows,
    getStats lib tz clock dbClient = Ok rows ->
    map address rows
    = map Prisma.address (Prisma.findMany_distinct_address dbClient) /\
    (NoDup (map address rows) <->
     NoDup (map Prisma.address (Prisma.findMany_distinct_address dbClient))).
Proof.
  intros lib tz clock db rows H. unfold getStats in H.
  apply getStats_loop_addresses in H. cbn [map app] in H.
  split; [exact H|]. rewrite H. tauto.
Qed.

Lemma C8_one_row_witness :
  map address [emptyRow "B"; emptyRow "B"]
  = map Prisma.address (Prisma.findMany_distinct_address listsTwice) /\
  (NoDup (map address [emptyRow "B"; emptyRow "B"]) <->
   NoDup (map Prisma.address (Prisma.findMany_distinct_address listsTwice))).
Proof.
  apply (C8_one_row_per_listed_address plain JsDate.UTC (fun _ => now) listsTwice).
  reflexivity.
Defined.

(** C8, as stated, fails: a store that lists address B twice gets two
    identical rows for B. *)
Lemma C8_counterexample :
  ~ NoDup (map Prisma.address (Prisma.findMany_distinct_address listsTwice)) /\
  (forall lib tz clock,
     getStats lib tz clock listsTwice = Ok [emptyRow "B"; emptyRow "B"]) /\
  ~ NoDup [emptyRow "B"; emptyRow "B"].
Proof.
  split; [|split].
  - intros H. inversion H as [|x l Hin _]. apply Hin. left. reflexivity.
  - reflexivity.
  - intros H. inversion H as [|x l Hin _]. apply Hin. left. reflexivity.
Qed.

(** C9: the output of a run depends on the clock only through the UTC
    day of each reading: two runs on the same store and host whose
    readings truncate to the same UTC midnight (in particular two runs
    with the same "now") return the same rows, or throw the same error,
    and the handler sends the same response. *)
Theorem C9_same_day_same_output :
  forall lib tz dbClient (clock1 clock2 : nat -> Z),
    (forall i, nowDate (clock1 i) = nowDate (clock2 i)) ->
    getStats lib tz clock1 dbClient = getStats lib tz clock2 dbClient /\
    handler lib tz clock1 dbClient = handler lib tz clock2 dbClient.
Proof.
  intros lib tz db c1 c2 H.
  assert (E : getStats lib tz c1 db = getStats lib tz c2 db).
  { unfold getStats. apply getStats_loop_ext. exact H. }
  split; [exact E|]. unfold handler. now rewrite E.
Qed.

Lemma C9_same_day_witness :
  getStats plain JsDate.UTC (fun _ => now) (Prisma.table rowsA)
  = getStats plain JsDate.UTC (fun _ => now + 1000) (Prisma.table rowsA) /\
  handler plain JsDate.UTC (fun _ => now) (Prisma.table rowsA)
  = handler plain JsDate.UTC (fun _ => now + 1000) (Prisma.table rowsA).
Proof.
  apply (C9_same_day_same_output plain JsDate.UTC (Prisma.table rowsA)
           (fun _ => now) (fun _ => now + 1000)).
  intros i. reflexivity.
Defined.



(** C5 (as the code has it): an absent snapshot gives an absent ratio;
    for a present one both strings are decoded, each is divided by
    1,000,000 and the results are divided, all in decimal.js
    arithmetic, where every division is rounded to 20 significant
    digits: the ratio is NaN, an infinity, a zero or a value of at most
    20 digits, and it is the exact quotient whenever the two scaled
    operands and their quotient can be written with at most 20
    digits. *)
Theorem C5_ratio_is_rounded_decimal :
  forall lib,
    calculateRatio lib None = Ok None /\
    forall p u s,
      fromString lib (Prisma.currentUsdBalance p) = Ok u ->
      fromString lib (Prisma.totalShares p) = Ok s ->
      let ratio := div (div u (ofZ USD_SCALE)) (div s (ofZ SHARES_SCALE)) in
      calculateRatio lib (Some p) = Ok (Some ratio) /\
      result_form ratio /\
      forall a b z,
        isFinite u = true -> isZero u = false ->
        isFinite s = true -> isZero s = false ->
        representable a -> representable b -> representable z ->
        (Qvalue a * inject_Z USD_SCALE == Qvalue u)%Q ->
        (Qvalue b * inject_Z SHARES_SCALE == Qvalue s)%Q ->
        (Qvalue z * Qvalue b == Qvalue a)%Q ->
        ratio = z.
Proof.
  intros lib. split; [reflexivity|].
  intros p u s Hu Hs ratio. split.
  { cbn [calculateRatio]. rewrite Hu. cbn [bind]. rewrite Hs. reflexivity. }
  split; [apply div_form|].
  intros a b z Fu Zu Fs Zs Ra Rb Rz Ea Eb Ez. unfold ratio.
  unfold USD_SCALE, SHARES_SCALE in *. rewrite ofZ_scale.
  assert (Q6 : (Qvalue (Finite false 1 6) == inject_Z 1000000)%Q) by reflexivity.
  rewrite (div_exact u (Finite false 1 6) a Fu Zu eq_refl eq_refl Ra)
    by (rewrite Q6; exact Ea).
  rewrite (div_exact s (Finite false 1 6) b Fs Zs eq_refl eq_refl Rb)
    by (rewrite Q6; exact Eb).
  destruct (representable_finite a Ra) as [Fa Za].
  destruct (representable_finite b Rb) as [Fb Zb].
  apply div_exact; assumption.
Qed.

Lemma C5_ratio_witness :
  calculateRatio plain None = Ok None /\
  calculateRatio plain (Some snapB) = Ok (Some (Finite false 11 (-1))) /\
  result_form (Finite false 11 (-1)).
Proof.
  destruct (C5_ratio_is_rounded_decimal plain) as [HNone HSome].
  destruct (HSome snapB (Finite false 11 5) (Finite false 1 6)
              eq_refl eq_refl) as (E & F & X).
  assert (R : div (div (Finite false 11 5) (ofZ USD_SCALE))
                  (div (Finite false 1 6) (ofZ SHARES_SCALE))
              = Finite false 11 (-1)).
  { apply (X (Finite false 11 (-1)) (Finite false 1 0) (Finite false 11 (-1)));
      try reflexivity;
      cbn [representable]; repeat split; try discriminate;
        vm_compute; congruence. }
  rewrite R in E, F. split; [exact HNone|]. split; [exact E|exact F].
Defined.

(** C5, as stated, fails: a balance of 31 digits over one share has
    the exact ratio 1000000000000000000000001, a decimal of 25 digits;
    the code returns 1e24. *)
Lemma C5_counterexample :
  (forall lib,
     fromString lib (Prisma.currentUsdBalance snapBig)
     = Ok (Finite false 1000000000000000000000001 6) /\
     fromString lib (Prisma.totalShares snapBig) = Ok (Finite false 1 6) /\
     calculateRatio lib (Some snapBig) = Ok (Some (Finite false 1 24))) /\
  ~ (Qvalue (Finite false 1 24)
     == (Qvalue (Finite false 1000000000000000000000001 6)
         / inject_Z USD_SCALE)
        / (Qvalue (Finite false 1 6) / inject_Z SHARES_SCALE))%Q.
Proof.
  split.
  - intros lib. repeat split; vm_compute; reflexivity.
  - intros H. vm_compute in H. discriminate H.
Qed.



(** C7 at a host five hours west of Greenwich: the day of the month is
    read in local time, where UTC midnight still belongs to the day
    before.  In mid-November the weekly window starts eight days back
    and the yesterday window two days back; on the first of March the
    day read is the 28th, and both lower bounds land in the future. *)
Theorem C7_windows_depend_on_time_zone :
  (weeklyDateMin west5 now = nowDate now - 8 * JsDate.msPerDay /\
   weeklyDateMax west5 now = nowDate now - 7 * JsDate.msPerDay /\
   yesterdayDateMin west5 now = nowDate now - 2 * JsDate.msPerDay) /\
  (weeklyDateMin west5 march1 = nowDate march1 + 20 * JsDate.msPerDay /\
   weeklyDateMax west5 march1 = nowDate march1 + 21 * JsDate.msPerDay /\
   yesterdayDateMin west5 march1 = nowDate march1 + 26 * JsDate.msPerDay) /\
  (weeklyDateMin JsDate.UTC now = nowDate now - 7 * JsDate.msPerDay /\
   weeklyDateMax JsDate.UTC now = nowDate now - 6 * JsDate.msPerDay /\
   yesterdayDateMin JsDate.UTC now = nowDate now - JsDate.msPerDay).
Proof. vm_compute. repeat split. Qed.



(* ------------------------------------------------------------------ *)
(** ** Further facts about the calendar, the store and the loop        *)
(* ------------------------------------------------------------------ *)

(** The calendar functions invert each other: the year and month
    searches find the year and the month a day belongs to. *)
Module CalendarFacts.

Import JsDate Spec.

Lemma DayFromYear_succ y : DayFromYear (y + 1) = DayFromYear y + DaysInYear y.
Proof.
  unfold DayFromYear, DaysInYear.
  destruct (Z.eqb_spec (y mod 4) 0); cbn [negb];
  destruct (Z.eqb_spec (y mod 100) 0); cbn [negb];
  destruct (Z.eqb_spec (y mod 400) 0); cbn [negb]; Z.div_mod_to_equations; lia.
Qed.

Lemma DaysInYear_cases y :
  (DaysInYear y =? 366) = true /\ DaysInYear y = 366 \/
  (DaysInYear y =? 366) = false /\ DaysInYear y = 365.
Proof. unfold DaysInYear. repeat destruct (_ =? 0); cbn; auto. Qed.

Lemma start_above d : d < DayFromYear (1970 + Z.max (d / 365) (d / 366) + 1).
Proof. unfold DayFromYear. Z.div_mod_to_equations. lia. Qed.

Lemma fuel_enough d :
  DayFromYear (1970 + Z.max (d / 365) (d / 366) - (Z.abs d / 100000 + 3)) <= d.
Proof. unfold DayFromYear. Z.div_mod_to_equations. lia. Qed.

Lemma year_search_spec fuel y d :
  DayFromYear (y - Z.of_nat fuel) <= d -> d < DayFromYear (y + 1) ->
  DayFromYear (year_search fuel y d) <= d < DayFromYear (year_search fuel y d + 1).
Proof.
  revert y. induction fuel as [|f IH]; intros y Hlo Hhi.
  - cbn [year_search]. replace (y - Z.of_nat 0) with y in Hlo by lia. lia.
  - cbn [year_search]. destruct (Z.leb_spec (DayFromYear y) d) as [H|H]; [lia|].
    apply IH.
    + replace (y - 1 - Z.of_nat f) with (y - Z.of_nat (S f)) by lia. exact Hlo.
    + replace (y - 1 + 1) with y by lia. exact H.
Qed.

Lemma YearFromDay_spec d :
  DayFromYear (YearFromDay d) <= d < DayFromYear (YearFromDay d + 1).
Proof.
  unfold YearFromDay. apply year_search_spec.
  - rewrite Z2Nat.id by (pose proof (Z.abs_nonneg d); Z.div_mod_to_equations; lia).
    apply fuel_enough.
  - apply start_above.
Qed.

Lemma DayFromYear_mono_le y1 y2 : y1 <= y2 -> DayFromYear y1 <= DayFromYear y2.
Proof. unfold DayFromYear. intros H. Z.div_mod_to_equations. lia. Qed.

Lemma YearFromDay_unique d y :
  DayFromYear y <= d < DayFromYear (y + 1) -> YearFromDay d = y.
Proof.
  intros H. pose proof (YearFromDay_spec d) as S.
  destruct (Z.lt_trichotomy (YearFromDay d) y) as [L|[E|G]]; [|exact E|].
  - pose proof (DayFromYear_mono_le (YearFromDay d + 1) y). lia.
  - pose proof (DayFromYear_mono_le (y + 1) (YearFromDay d)). lia.
Qed.

Lemma daysBeforeMonth_12 leap y :
  leap = (DaysInYear y =? 366) -> daysBeforeMonth leap 12 = DaysInYear y.
Proof. intros ->. destruct (DaysInYear_cases y) as [[-> ->]|[-> ->]]; reflexivity. Qed.

Lemma monthLength_range leap m : 0 <= m <= 11 -> 28 <= monthLength leap m <= 31.
Proof.
  intros H. unfold monthLength.
  assert (C : m = 0 \/ m = 1 \/ m = 2 \/ m = 3 \/ m = 4 \/ m = 5 \/ m = 6 \/
              m = 7 \/ m = 8 \/ m = 9 \/ m = 10 \/ m = 11) by lia.
  destruct leap; repeat (destruct C as [->|C]; [cbn; lia|]); subst; cbn; lia.
Qed.

Lemma daysBeforeMonth_range leap m :
  0 <= m <= 11 -> 0 <= daysBeforeMonth leap m /\
  daysBeforeMonth leap (m + 1) <= daysBeforeMonth leap 12.
Proof.
  intros H.
  assert (C : m = 0 \/ m = 1 \/ m = 2 \/ m = 3 \/ m = 4 \/ m = 5 \/ m = 6 \/
              m = 7 \/ m = 8 \/ m = 9 \/ m = 10 \/ m = 11) by lia.
  destruct leap; repeat (destruct C as [->|C]; [cbn; lia|]); subst; cbn; lia.
Qed.

Lemma month_search_unique leap m dwy :
  0 <= m <= 11 ->
  daysBeforeMonth leap m <= dwy < daysBeforeMonth leap (m + 1) ->
  month_search 11 leap 0 dwy = m.
Proof.
  intros H.
  assert (C : m = 0 \/ m = 1 \/ m = 2 \/ m = 3 \/ m = 4 \/ m = 5 \/ m = 6 \/
              m = 7 \/ m = 8 \/ m = 9 \/ m = 10 \/ m = 11) by lia.
  destruct leap;
    repeat (destruct C as [->|C];
            [cbn; intros B;
             repeat (match goal with
                     | |- context [?a <? ?b] => destruct (Z.ltb_spec a b); try lia
                     end); reflexivity|]);
    subst; cbn; intros B;
    repeat (match goal with
            | |- context [?a <? ?b] => destruct (Z.ltb_spec a b); try lia
            end); reflexivity.
Qed.

Lemma month_search_spec leap dwy :
  0 <= dwy < daysBeforeMonth leap 12 ->
  let m := month_search 11 leap 0 dwy in
  0 <= m <= 11 /\ daysBeforeMonth leap m <= dwy < daysBeforeMonth leap (m + 1).
Proof.
  intros B.
  destruct leap; cbn in B |- *;
    repeat (match goal with
            | |- context [?a <? ?b] => destruct (Z.ltb_spec a b)
            end; [cbn; lia|]); cbn; lia.
Qed.

(** The day [DayFromYear y + daysBeforeMonth m + k - 1] is day [k] of
    month [m] of year [y]. *)
Lemma date_of_day t y m k :
  0 <= m <= 11 ->
  1 <= k <= monthLength (DaysInYear y =? 366) m ->
  Day t = DayFromYear y + daysBeforeMonth (DaysInYear y =? 366) m + k - 1 ->
  YearFromTime t = y /\ MonthFromTime t = m /\ DateFromTime t = k.
Proof.
  intros Hm Hk Hd. unfold monthLength in Hk.
  pose proof (daysBeforeMonth_range (DaysInYear y =? 366) m Hm) as [B0 B1].
  rewrite (daysBeforeMonth_12 _ y eq_refl) in B1.
  assert (Y : YearFromTime t = y).
  { unfold YearFromTime. apply YearFromDay_unique.
    rewrite DayFromYear_succ. lia. }
  assert (M : MonthFromTime t = m).
  { unfold MonthFromTime, InLeapYear, DayWithinYear. rewrite Y.
    apply month_search_unique; [exact Hm|lia]. }
  split; [exact Y|]. split; [exact M|].
  unfold DateFromTime, InLeapYear, DayWithinYear. rewrite M, Y. lia.
Qed.

(** Every time value is some day [k] of some month of some year. *)
Lemma day_of_date t :
  let y := YearFromTime t in
  let m := MonthFromTime t in
  let k := DateFromTime t in
  0 <= m <= 11 /\ 1 <= k <= monthLength (DaysInYear y =? 366) m /\
  Day t = DayFromYear y + daysBeforeMonth (DaysInYear y =? 366) m + k - 1.
Proof.
  cbv zeta. unfold DateFromTime, MonthFromTime, InLeapYear, DayWithinYear, monthLength.
  pose proof (YearFromDay_spec (Day t)) as S. fold (YearFromTime t) in S.
  rewrite DayFromYear_succ in S.
  pose proof (month_search_spec (DaysInYear (YearFromTime t) =? 366)
                (Day t - DayFromYear (YearFromTime t))) as MS.
  rewrite (daysBeforeMonth_12 _ (YearFromTime t) eq_refl) in MS.
  specialize (MS ltac:(lia)). cbv zeta in MS. lia.
Qed.

Lemma DateFromTime_same_day t t' : Day t' = Day t -> DateFromTime t' = DateFromTime t.
Proof.
  intros H. unfold DateFromTime, MonthFromTime, InLeapYear, DayWithinYear, YearFromTime.
  now rewrite H.
Qed.

(** Going [j] days back, up to four weeks: within the month the day of
    the month drops by [j]; otherwise it counts from the end of the
    month before. *)
Lemma days_back t t' j :
  1 <= j <= 28 -> Day t' = Day t - j ->
  (j < DateFromTime t -> DateFromTime t' = DateFromTime t - j) /\
  (DateFromTime t <= j ->
   exists L, 28 <= L <= 31 /\ DateFromTime t' = DateFromTime t - j + L).
Proof.
  intros Hj Hd. pose proof (day_of_date t) as (Hm & Hk & HD). cbv zeta in *.
  set (y := YearFromTime t) in *. set (m := MonthFromTime t) in *.
  set (k := DateFromTime t) in *. split.
  - intros H.
    destruct (date_of_day t' y m (k - j)) as (_ & _ & E); [exact Hm|lia|lia|exact E].
  - intros H. destruct (Z.eq_dec m 0) as [M0|M0].
    + exists 31. split; [lia|].
      destruct (date_of_day t' (y - 1) 11 (k - j + 31)) as (_ & _ & E);
        [lia| | |exact E].
      * unfold monthLength.
        destruct (DaysInYear_cases (y - 1)) as [[-> _]|[-> _]]; cbn; lia.
      * pose proof (DayFromYear_succ (y - 1)) as S.
        replace (y - 1 + 1) with y in S by lia.
        rewrite M0 in HD.
        destruct (DaysInYear_cases (y - 1)) as [[-> E1]|[-> E1]];
          destruct (DaysInYear_cases y) as [[E2 _]|[E2 _]];
          rewrite E2 in HD; cbn in HD |- *; lia.
    + exists (monthLength (DaysInYear y =? 366) (m - 1)).
      pose proof (monthLength_range (DaysInYear y =? 366) (m - 1) ltac:(lia)) as R.
      split; [exact R|].
      destruct (date_of_day t' y (m - 1)
                  (k - j + monthLength (DaysInYear y =? 366) (m - 1)))
        as (_ & _ & E); [lia|lia| |exact E].
      unfold monthLength. replace (m - 1 + 1) with m by lia. lia.
Qed.

End CalendarFacts.

(** Queries on a table. *)
Module TableFacts.

Import Prisma Spec StoreFacts.

Lemma extremum_In o best rows : In (extremum o best rows) (best :: rows).
Proof.
  revert best. induction rows as [|p rows IH]; intros best; [left; reflexivity|].
  cbn [extremum]. destruct (IH (if match o with
                                      | asc => blockTime p <? blockTime best
                                      | desc => blockTime best <? blockTime p
                                      end then p else best)) as [E|E].
  - rewrite <- E. destruct (match o with asc => _ | desc => _ end);
      [right; left; reflexivity|left; reflexivity].
  - right. right. exact E.
Qed.

Lemma extremum_asc best rows p :
  In p (best :: rows) -> blockTime (extremum asc best rows) <= blockTime p.
Proof.
  revert best p. induction rows as [|q rows IH]; intros best p H.
  - destruct H as [<-|[]]. cbn. lia.
  - cbn [extremum].
    assert (B : blockTime (extremum asc (if blockTime q <? blockTime best then q else best) rows)
                <= blockTime (if blockTime q <? blockTime best then q else best))
      by (apply IH; left; reflexivity).
    destruct H as [<-|[<-|H]]; [| |apply IH; right; exact H];
      destruct (blockTime q <? blockTime best) eqn:E;
      [apply Z.ltb_lt in E|apply Z.ltb_ge in E|apply Z.ltb_lt in E|apply Z.ltb_ge in E];
      lia.
Qed.

Lemma extremum_desc best rows p :
  In p (best :: rows) -> blockTime p <= blockTime (extremum desc best rows).
Proof.
  revert best p. induction rows as [|q rows IH]; intros best p H.
  - destruct H as [<-|[]]. cbn. lia.
  - cbn [extremum].
    assert (B : blockTime (if blockTime best <? blockTime q then q else best)
                <= blockTime (extremum desc (if blockTime best <? blockTime q then q else best) rows))
      by (apply IH; left; reflexivity).
    destruct H as [<-|[<-|H]]; [| |apply IH; right; exact H];
      destruct (blockTime best <? blockTime q) eqn:E;
      [apply Z.ltb_lt in E|apply Z.ltb_ge in E|apply Z.ltb_lt in E|apply Z.ltb_ge in E];
      lia.
Qed.

Lemma table_findFirst_In rows q p :
  table_findFirst rows q = Some p -> In p (filter (matches q) rows).
Proof.
  unfold table_findFirst. destruct (filter (matches q) rows) as [|p0 ps]; [discriminate|].
  destruct (orderBy_blockTime q) as [o|]; intros H; inversion H; subst.
  - apply extremum_In.
  - left. reflexivity.
Qed.

Lemma table_findFirst_None rows q :
  table_findFirst rows q = None <-> filter (matches q) rows = [].
Proof.
  unfold table_findFirst. destruct (filter (matches q) rows) as [|p0 ps].
  - tauto.
  - destruct (orderBy_blockTime q); split; discriminate.
Qed.

Lemma filter_unordered a o rows :
  filter (matches {| where_address := a; where_blockTime := None;
                     orderBy_blockTime := o |}) rows
  = snapshots_of rows a.
Proof.
  unfold snapshots_of. apply filter_ext. intros p. unfold matches. cbn.
  apply andb_true_r.
Qed.

Lemma filter_window a lo hi rows p :
  In p (filter (matches {| where_address := a; where_blockTime := Some (lo, hi);
                           orderBy_blockTime := None |}) rows) <->
  In p (snapshots_of rows a) /\ lo <= blockTime p < hi.
Proof.
  unfold snapshots_of. rewrite !filter_In. unfold matches. cbn.
  rewrite !andb_true_iff, Z.leb_le, Z.ltb_lt. tauto.
Qed.

Lemma window_entry rows a lo hi :
  let o := table_findFirst rows
             {| where_address := a; where_blockTime := Some (lo, hi);
                orderBy_blockTime := None |} in
  (forall w, o = Some w -> In w (snapshots_of rows a) /\ lo <= blockTime w < hi) /\
  (o = None <->
   forall p, In p (snapshots_of rows a) -> ~ lo <= blockTime p < hi).
Proof.
  cbv zeta. split.
  - intros w H. apply table_findFirst_In in H. now apply filter_window in H.
  - rewrite table_findFirst_None. split.
    + intros E p Hp B.
      assert (I : In p []) by (rewrite <- E; apply filter_window; auto).
      destruct I.
    + intros H.
      destruct (filter _ rows) as [|p ps] eqn:E; [reflexivity|].
      assert (I : In p (p :: ps)) by (left; reflexivity).
      rewrite <- E in I. apply filter_window in I. destruct I as [I B].
      destruct (H p I B).
Qed.

Lemma extreme_entries rows a :
  snapshots_of rows a <> [] ->
  exists f l,
    table_findFirst rows
      {| where_address := a; where_blockTime := None;
         orderBy_blockTime := Some asc |} = Some f /\
    table_findFirst rows
      {| where_address := a; where_blockTime := None;
         orderBy_blockTime := Some desc |} = Some l /\
    In f (snapshots_of rows a) /\ In l (snapshots_of rows a) /\
    forall p, In p (snapshots_of rows a) ->
      blockTime f <= blockTime p <= blockTime l.
Proof.
  intros NE. unfold table_findFirst. rewrite !filter_unordered.
  destruct (snapshots_of rows a) as [|p0 ps] eqn:O; [congruence|].
  cbn [orderBy_blockTime].
  exists (extremum asc p0 ps), (extremum desc p0 ps).
  split; [reflexivity|]. split; [reflexivity|].
  split; [apply extremum_In|]. split; [apply extremum_In|].
  intros p Hp. split; [now apply extremum_asc|now apply extremum_desc].
Qed.

Lemma seen_spec a seen :
  existsb (String.eqb a) seen = true <-> In a seen.
Proof.
  rewrite existsb_exists. split.
  - intros (x & Hx & E). apply String.eqb_eq in E. now subst.
  - intros H. exists a. split; [exact H|apply String.eqb_refl].
Qed.

Lemma distinct_In seen rows a :
  In a (map address (distinct_by_address seen rows)) <->
  In a (map address rows) /\ ~ In a seen.
Proof.
  revert seen. induction rows as [|p rows IH]; intros seen; cbn [distinct_by_address map In].
  - tauto.
  - destruct (existsb (String.eqb (address p)) seen) eqn:E.
    + apply seen_spec in E. rewrite IH. split.
      * tauto.
      * intros [[<-|H] N]; [contradiction|tauto].
    + assert (N : ~ In (address p) seen).
      { intros H. apply seen_spec in H. congruence. }
      cbn [map In]. rewrite IH. cbn [In].
      destruct (string_dec (address p) a) as [<-|D]; tauto.
Qed.


End TableFacts.

(** Days and offsets at UTC midnight. *)
Module WindowFacts.

Import JsDate Spec DateFacts CalendarFacts StoreFacts.

Lemma Day_shift t k : Day (t + k * msPerDay) = Day t + k.
Proof. unfold Day, msPerDay. Z.div_mod_to_equations. lia. Qed.

Lemma Day_offset_east t off :
  t mod msPerDay = 0 -> 0 <= off < msPerDay -> Day (t + off) = Day t.
Proof. unfold Day, msPerDay. intros. Z.div_mod_to_equations. lia. Qed.

Lemma Day_offset_west t off :
  t mod msPerDay = 0 -> - msPerDay <= off < 0 -> Day (t + off) = Day t - 1.
Proof. unfold Day, msPerDay. intros. Z.div_mod_to_equations. lia. Qed.

Lemma getDate_east tz now :
  0 <= tz (nowDate now) < msPerDay ->
  getDate tz (nowDate now) = getUTCDate (nowDate now).
Proof.
  intros H. unfold getDate, getUTCDate, LocalTime.
  apply DateFromTime_same_day. apply Day_offset_east; [|exact H].
  apply nowDate_midnight.
Qed.

Lemma getDate_west tz now :
  - msPerDay <= tz (nowDate now) < 0 ->
  (2 <= getUTCDate (nowDate now) ->
   getDate tz (nowDate now) = getUTCDate (nowDate now) - 1) /\
  (getUTCDate (nowDate now) = 1 -> 28 <= getDate tz (nowDate now) <= 31).
Proof.
  intros H. unfold getDate, getUTCDate, LocalTime.
  assert (D : Day (nowDate now + tz (nowDate now)) = Day (nowDate now) - 1).
  { apply Day_offset_west; [|exact H]. apply nowDate_midnight. }
  destruct (days_back (nowDate now) _ 1 ltac:(lia) D) as [A B]. split.
  - intros G. rewrite A; lia.
  - intros G. destruct (B ltac:(lia)) as (L & HL & E). lia.
Qed.

(** A window whose lower bound is not below its upper bound selects
    nothing. *)
Lemma table_empty_window rows a lo hi :
  hi <= lo ->
  Prisma.table_findFirst rows
    {| Prisma.where_address := a; Prisma.where_blockTime := Some (lo, hi);
       Prisma.orderBy_blockTime := None |} = None.
Proof.
  intros H. unfold Prisma.table_findFirst.
  replace (filter _ rows) with (@nil Prisma.Pools); [reflexivity|].
  symmetry. induction rows as [|p rows IH]; [reflexivity|].
  cbn [filter]. rewrite IH.
  unfold Prisma.matches at 1. cbn [Prisma.where_blockTime Prisma.where_address].
  destruct (String.eqb _ a); cbn [andb]; [|reflexivity].
  destruct (Z.leb_spec lo (Prisma.blockTime p)); cbn [andb]; [|reflexivity].
  destruct (Z.ltb_spec (Prisma.blockTime p) hi); [lia|reflexivity].
Qed.

Lemma setDate_shift off t dt :
  setDate (fixedOffset off) (fixedOffset off) t dt
  = t + (dt - DateFromTime (t + off)) * msPerDay.
Proof.
  unfold setDate, toUTC, LocalTime, fixedOffset. cbv zeta.
  pose proof (setUTCDate_shift (t + off) dt) as S.
  unfold setUTCDate, getUTCDate in S. rewrite S. lia.
Qed.

End WindowFacts.

(** The loop of [getStats], turn by turn. *)
Module LoopFacts.

Import Js DecimalJS Spec HandlerFacts.

Section WithHost.

Variable lib : Internals.
Variable tz : JsDate.TimeZone.
Variable clock : nat -> Z.
Variable db : Prisma.Delegate.

Lemma getStats_loop_step i a rest acc :
  getStats_loop lib tz clock db i (a :: rest) acc
  = (row <- rowAt lib tz clock db i a ;;
     getStats_loop lib tz clock db (S i) rest (acc ++ [row])%list).
Proof. reflexivity. Qed.

Lemma getStats_loop_Ok addrs : forall i acc rows,
  getStats_loop lib tz clock db i addrs acc = Ok rows <->
  exists news,
    rows = (acc ++ news)%list /\ length news = length addrs /\
    forall k a, nth_error addrs k = Some a ->
      exists row, nth_error news k = Some row /\
                  rowAt lib tz clock db (i + k) a = Ok row.
Proof.
  induction addrs as [|a rest IH]; intros i acc rows.
  - cbn [getStats_loop]. split.
    + intros H. inversion H; subst. exists []. rewrite app_nil_r.
      split; [reflexivity|]. split; [reflexivity|].
      intros k b Hk. destruct k; discriminate Hk.
    + intros (news & -> & Hl & _). destruct news; [|discriminate Hl].
      now rewrite app_nil_r.
  - rewrite getStats_loop_step. split.
    + intros H. destruct (rowAt lib tz clock db i a) as [row|msg] eqn:E;
        cbn [bind] in H; [|discriminate H].
      apply IH in H. destruct H as (news & -> & Hl & Hk).
      exists (row :: news). split; [now rewrite <- app_assoc|].
      split; [cbn; now rewrite Hl|].
      intros k b Hb. destruct k as [|k].
      * cbn in Hb. inversion Hb; subst b. exists row. split; [reflexivity|].
        now rewrite Nat.add_0_r.
      * cbn in Hb. destruct (Hk k b Hb) as (r & Hr & Er). exists r.
        split; [exact Hr|]. now rewrite <- plus_n_Sm.
    + intros (news & -> & Hl & Hk). destruct news as [|row news]; [discriminate Hl|].
      destruct (Hk 0%nat a eq_refl) as (r & Hr & Er). cbn in Hr. inversion Hr; subst r.
      rewrite Nat.add_0_r in Er. rewrite Er. cbn [bind]. apply IH.
      exists news. split; [now rewrite <- app_assoc|].
      split; [cbn in Hl; lia|].
      intros k b Hb. destruct (Hk (S k) b Hb) as (r2 & Hr2 & Er2).
      exists r2. split; [exact Hr2|]. now rewrite <- plus_n_Sm in Er2.
Qed.



End WithHost.

End LoopFacts.

(** The fields of a row. *)
Module FieldFacts.

Import Js DecimalJS Spec DecimalFacts FormatFacts RoundingFacts ExactFacts
  SubFacts HandlerFacts PowFacts.

Lemma representable_one : representable one.
Proof. cbn. repeat split; try discriminate; vm_compute; congruence. Qed.

(** A finite non-zero result divided by itself is exactly one. *)
Lemma div_self x :
  result_form x -> isFinite x = true -> isZero x = false -> div x x = one.
Proof.
  intros R F Z. apply div_exact; try assumption; [apply representable_one|].
  destruct x as [|s|s c q]; try discriminate. unfold one. cbn [Qvalue].
  change ((10 # 1) ^ 0)%Q with 1%Q. ring.
Qed.

Section WithLib.

Variable lib : Internals.

Lemma calculateRatio_form o r :
  calculateRatio lib o = Ok (Some r) -> result_form r.
Proof.
  destruct o as [p|]; cbn [calculateRatio]; [|discriminate].
  destruct (fromString lib (Prisma.currentUsdBalance p)); cbn [bind]; [|discriminate].
  destruct (fromString lib (Prisma.totalShares p)); cbn [bind]; [|discriminate].
  intros H. inversion H. apply div_form.
Qed.

Lemma calculateRatio_None o :
  calculateRatio lib o = Ok None -> o = None.
Proof.
  destruct o as [p|]; [|reflexivity]. intros H.
  apply calculateRatio_present in H. destruct H as [d H]. discriminate H.
Qed.

Lemma ratio_absent o r :
  calculateRatio lib o = Ok r -> (o = None <-> r = None).
Proof.
  intros H. split.
  - intros ->. now inversion H.
  - intros ->. now apply calculateRatio_None in H.
Qed.

Lemma rowOf_placeholder a e lr wr yr :
  let row := rowOf lib a e lr wr yr in
  (baseApy row = placeholder <-> lr = None) /\
  (avgApy row = placeholder <-> lr = None \/ wr = None) /\
  (weeklyBasedApr row = placeholder <-> lr = None \/ wr = None) /\
  (dailyBasedApr row = placeholder <-> lr = None \/ yr = None).
Proof.
  cbv zeta. cbn [rowOf baseApy avgApy weeklyBasedApr dailyBasedApr].
  pose proof toFixed_not_placeholder as NP.
  unfold baseApyOf, avgApyOf, weeklyAprOf, dailyAprOf.
  destruct lr as [l|], wr as [w|], yr as [y|];
    repeat split; try tauto; intros H;
    solve [ exfalso; eapply NP; exact H
          | destruct H as [H|H]; discriminate H
          | discriminate H
          | auto ].
Qed.

Lemma dailyApr_unchanged r :
  result_form r -> isFinite r = true -> isZero r = false ->
  dailyAprOf r r = "0.000000".
Proof. intros R F Z. unfold dailyAprOf. rewrite (div_self r R F Z). reflexivity. Qed.

Lemma weeklyApr_unchanged r :
  result_form r -> isFinite r = true -> isZero r = false ->
  weeklyAprOf r r = "0.000000".
Proof.
  intros R F Z. unfold weeklyAprOf. rewrite (div_self r R F Z).
  vm_compute. reflexivity.
Qed.

Lemma avgApy_unchanged r :
  result_form r -> isFinite r = true -> isZero r = false ->
  avgApyOf lib r r = "0.000000".
Proof.
  intros R F Z. unfold avgApyOf. rewrite (div_self r R F Z).
  vm_compute. reflexivity.
Qed.

End WithLib.

End FieldFacts.

(** The first version against [getPoolsStats]. *)
Module LegacyFacts.

Import Js DecimalJS Spec HandlerFacts FieldFacts.

Section WithLib.

Variable lib : Internals.

Lemma legacyRatio_absent : legacyRatio lib None = Ok NaN.
Proof. vm_compute. reflexivity. Qed.

Lemma legacyRatio_present p :
  legacyRatio lib (Some p)
  = match calculateRatio lib (Some p) with
    | Ok (Some r) => Ok r
    | Ok None => Ok NaN
    | Throw msg => Throw msg
    end.
Proof.
  unfold legacyRatio, calculateRatio.
  destruct (fromString lib (Prisma.currentUsdBalance p)); cbn [bind]; [|reflexivity].
  destruct (fromString lib (Prisma.totalShares p)); cbn [bind]; reflexivity.
Qed.

Lemma legacyDays_present nowFirst nowLast e f l :
  firstEntry e = Some f -> lastEntry e = Some l ->
  legacyDays nowFirst nowLast e = daysElapsedSinceIndexed e.
Proof.
  intros Hf Hl. unfold legacyDays, daysElapsedSinceIndexed. now rewrite Hf, Hl.
Qed.

End WithLib.

End LegacyFacts.

(** A query only sees the snapshots of its address. *)
Module IsolationFacts.

Import Prisma Spec TableFacts.

Lemma filter_own q rows :
  filter (matches q) (snapshots_of rows (where_address q))
  = filter (matches q) rows.
Proof.
  unfold snapshots_of. induction rows as [|p rows IH]; [reflexivity|].
  cbn [filter]. destruct (String.eqb (address p) (where_address q)) eqn:E.
  - cbn [filter]. now rewrite IH.
  - rewrite IH. unfold matches at 2. now rewrite E.
Qed.

Lemma table_findFirst_own rows q :
  table_findFirst (snapshots_of rows (where_address q)) q = table_findFirst rows q.
Proof. unfold table_findFirst. now rewrite filter_own. Qed.

Lemma getPoolsEntries_own tz now rows a :
  getPoolsEntries tz now (table (snapshots_of rows a)) a
  = getPoolsEntries tz now (table rows) a.
Proof.
  unfold getPoolsEntries. cbn [table findFirst].
  f_equal;
    match goal with
    | |- table_findFirst _ ?q = _ => exact (table_findFirst_own rows q)
    end.
Qed.

End IsolationFacts.

(** Signs of differences and of their texts. *)
Module SignFacts.

Import Js DecimalJS Spec DigitFacts DecimalFacts FormatFacts RoundingFacts
  ExactFacts SubFacts DifferenceFacts PrintFacts FieldFacts.

Lemma isNeg_finalise_mk neg c q sd :
  isNeg (finalise (mk neg c q) sd) = neg.
Proof.
  destruct (mk_shape neg c q) as (c1 & q1 & -> & _).
  destruct (finalise_shape neg c1 q1 sd) as [->|(c2 & q2 & -> & _)]; reflexivity.
Qed.

Lemma Qvalue_zero neg q : (Qvalue (Finite neg 0 q) == 0)%Q.
Proof. cbn [Qvalue]. destruct neg; cbn; ring. Qed.

Lemma Qvalue_sign neg c q :
  (c <> 0)%N -> ((Qvalue (Finite neg c q) < 0)%Q <-> neg = true) /\
                ((0 < Qvalue (Finite neg c q))%Q <-> neg = false).
Proof.
  intros H. pose proof (Qmag_pos c q H) as P.
  pose proof (Qvalue_mag neg c q) as E. destruct neg; rewrite E; split; split;
    intros; try reflexivity; try discriminate; lra.
Qed.

Lemma scaled_order nx cx qx ny cy qy m :
  m <= qx -> m <= qy ->
  ((Qvalue (Finite nx cx qx) < Qvalue (Finite ny cy qy))%Q <->
   scaled nx cx qx m < scaled ny cy qy m).
Proof.
  intros Hx Hy.
  rewrite (Qvalue_scaled nx cx qx m Hx), (Qvalue_scaled ny cy qy m Hy).
  pose proof (ten_pow_pos m) as P. rewrite Zlt_Qlt. split; intros H.
  - apply Qmult_lt_r in H; assumption.
  - apply Qmult_lt_r; assumption.
Qed.

(** The difference is negative exactly when the first operand is the
    smaller one; it can only lose its sign by becoming a zero. *)
Lemma sub_sign x y :
  isFinite x = true -> isFinite y = true ->
  (isNeg (sub x y) = true -> isZero (sub x y) = false ->
   (Qvalue x < Qvalue y)%Q) /\
  ((Qvalue x < Qvalue y)%Q -> isNeg (sub x y) = true).
Proof.
  destruct x as [|sx|nx cx qx]; try discriminate.
  destruct y as [|sy|ny cy qy]; try discriminate. intros _ _.
  unfold sub.
  destruct (N.eqb_spec cy 0) as [Zy|Zy]; [subst cy|];
    (destruct (N.eqb_spec cx 0) as [Zx|Zx]; [subst cx|]).
  - split.
    + intros _ H. destruct (Bool.eqb nx ny); cbn in H; discriminate H.
    + intros H. rewrite !Qvalue_zero in H. lra.
  - rewrite isNeg_finalise_mk. destruct (Qvalue_sign nx cx qx Zx) as [S _].
    rewrite Qvalue_zero. split; [intros ->; tauto|tauto].
  - rewrite isNeg_finalise_mk. destruct (Qvalue_sign ny cy qy Zy) as [_ S].
    rewrite Qvalue_zero. split.
    + intros H _. apply S. now destruct ny.
    + intros H. apply S in H. now subst ny.
  - pose proof (scaled_order nx cx qx ny cy qy (Z.min qx qy)
                  ltac:(lia) ltac:(lia)) as O.
    destruct (Z.eqb_spec (scaled nx cx qx (Z.min qx qy)
                          - scaled ny cy qy (Z.min qx qy)) 0) as [D|D].
    + split; [intros H; discriminate H|]. intros H. apply O in H. lia.
    + rewrite isNeg_finalise_mk. split.
      * intros H _. apply O. apply Z.ltb_lt in H. lia.
      * intros H. apply O in H. apply Z.ltb_lt. lia.
Qed.

Lemma prefix_minus str : prefix_b "-" ("-" ++ str) = true.
Proof. reflexivity. Qed.

Lemma prefix_digit a r : is_digit a = true -> prefix_b "-" (String a r) = false.
Proof.
  intros H. cbn [prefix_b].
  destruct (Ascii.eqb_spec "-"%char a) as [<-|N]; [discriminate H|reflexivity].
Qed.

(** A printed value starts with the minus sign exactly when it is
    negative and not a zero. *)
Lemma toString_minus x :
  result_form x ->
  prefix_b "-" (toString x) = isNeg x && negb (isZero x).
Proof.
  intros R. unfold toString, with_sign.
  destruct (isNeg x && negb (isZero x)) eqn:S; [apply prefix_minus|].
  destruct x as [|s|neg c q]; [reflexivity|reflexivity|].
  cbn [result_form] in R. destruct R as [[-> ->]|R].
  - destruct neg; reflexivity.
  - cbn [representable] in R. destruct R as (Hc & Hm & _).
    rewrite finiteToString_sign by assumption.
    destruct (printed_body_parses c q
                ((xe (Finite neg c q) <=? toExpNeg) || (toExpPos <=? xe (Finite neg c q)))
                Hc Hm) as (_ & a & r & -> & Ha).
    now apply prefix_digit.
Qed.

End SignFacts.

(** The day count for equal block times. *)
Module DaysFacts.

Import Js DecimalJS Spec RatioFacts.

Lemma sub_self n :
  JsNumber.sub n n = SpecFloat.S754_zero false \/
  JsNumber.sub n n = SpecFloat.S754_nan.
Proof.
  destruct n as [s|s| |s m e]; unfold JsNumber.sub; cbn [SpecFloat.SFsub].
  - left. destruct s; reflexivity.
  - right. destruct s; reflexivity.
  - right. reflexivity.
  - left. rewrite Z.sub_diag. reflexivity.
Qed.

Lemma days_of_equal_times t :
  let n := JsNumber.ofZ t in
  let days :=
    JsNumber.ceil (JsNumber.div (JsNumber.sub n n) (JsNumber.ofZ (1000 * 3600 * 24))) in
  days = SpecFloat.S754_zero false \/ days = SpecFloat.S754_nan.
Proof.
  cbv zeta. destruct (sub_self (JsNumber.ofZ t)) as [-> | ->];
    [left|right]; vm_compute; reflexivity.
Qed.

Lemma baseApy_nan_days lib r : baseApyOf lib r SpecFloat.S754_nan = "NaN".
Proof.
  unfold baseApyOf.
  assert (P : pow lib r (JsNumber.div (JsNumber.ofZ DAYS_IN_YEAR) SpecFloat.S754_nan) = NaN).
  { unfold pow. change (JsNumber.div (JsNumber.ofZ DAYS_IN_YEAR) SpecFloat.S754_nan)
      with SpecFloat.S754_nan.
    change (ofNumber SpecFloat.S754_nan) with NaN.
    change (special NaN) with true. rewrite orb_true_r. reflexivity. }
  rewrite P. reflexivity.
Qed.

End DaysFacts.

(** Strings the constructor rejects. *)
Module ErrorFacts.

Import Js DecimalJS Spec HandlerFacts LoopFacts.

Section WithLib.

Variable lib : Internals.

Lemma calculateRatio_rejects p :
  (exists msg, fromString lib (Prisma.currentUsdBalance p) = Throw msg) \/
  (exists msg, fromString lib (Prisma.totalShares p) = Throw msg) ->
  exists msg, calculateRatio lib (Some p) = Throw msg.
Proof.
  intros H. cbn [calculateRatio].
  destruct (fromString lib (Prisma.currentUsdBalance p)) as [u|m] eqn:U; cbn [bind];
    [|eauto].
  destruct H as [[msg H]|[msg H]]; [discriminate H|].
  rewrite H. cbn [bind]. eauto.
Qed.

Lemma getPoolsStats_rejects a e p :
  lastEntry e = Some p \/ weeklyEntry e = Some p \/ yesterdayEntry e = Some p ->
  (exists msg, calculateRatio lib (Some p) = Throw msg) ->
  exists msg, getPoolsStats lib a e = Throw msg.
Proof.
  intros H [msg R].
  destruct (getPoolsStats lib a e) as [row|m] eqn:E; [|eauto].
  apply getPoolsStats_inv in E. destruct E as (lr & wr & yr & El & Ew & Ey & _).
  destruct H as [H|[H|H]]; rewrite H in *; congruence.
Qed.

End WithLib.

End ErrorFacts.

(** The scale factors of [calculateRatio]. *)
Module ScaleFacts.

Import Js DecimalJS Spec DigitFacts DecimalFacts FormatFacts RoundingFacts
  ExactFacts PowFacts.

(** Dividing a value of at most 20 digits by 1e6 only moves its
    exponent. *)
Lemma div_scale neg c q :
  representable (Finite neg c q) -> minE + 6 <= sciexp c q ->
  div (Finite neg c q) (ofZ 1000000) = Finite neg c (q - 6).
Proof.
  intros R E. rewrite ofZ_scale.
  pose proof R as R'. cbn [representable] in R'. destruct R' as (Hc & Hm & Hd & He).
  apply div_exact; try reflexivity.
  - cbn [isZero]. now apply N.eqb_neq.
  - cbn [representable]. rewrite sciexp_nonzero in * by assumption.
    repeat split; try assumption; lia.
  - cbn [Qvalue]. replace q with ((q - 6) + 6) at 2 by lia.
    rewrite Qpower_plus by discriminate.
    change ((10 # 1) ^ 6)%Q with (inject_Z 1000000).
    change ((10 # 1) ^ 0)%Q with 1%Q.
    change (inject_Z (Z.of_N 1)) with 1%Q. ring.
Qed.

(** A quotient depends on the exponents through their difference. *)
Lemma div_shift nx cx qx ny cy qy k :
  div (Finite nx cx (qx - k)) (Finite ny cy (qy - k))
  = div (Finite nx cx qx) (Finite ny cy qy).
Proof.
  unfold div. replace (qx - k - (qy - k)) with (qx - qy) by lia. reflexivity.
Qed.

End ScaleFacts.

(** The numbers [toFixed] prints. *)
Module RoundFacts.

Import Js DecimalJS Spec DigitFacts DecimalFacts StringFacts FormatFacts
  RoundingFacts SubFacts ParseFacts.

Lemma value_from_0_zeros k s : value_from 0 (zeros k ++ s) = value_from 0 s.
Proof.
  unfold zeros. rewrite value_from_app, value_from_zeros. reflexivity.
Qed.

Lemma value_from_digits_zeros c k :
  0 <= k -> value_from 0 (digits c ++ zeros k) = (c * pow10 k)%N.
Proof.
  intros H. unfold zeros. rewrite value_from_app, value_digits, value_from_zeros.
  unfold pow10. now rewrite Z_nat_N.
Qed.

(** The digits of a value printed by [toFixed], read as one number,
    count its millionths. *)
Lemma finiteToString_fixed_value neg c q :
  normal (Finite neg c q) -> -6 <= q ->
  exists ip fp,
    finiteToString (Finite neg c q) false (6 + sciexp c q + 1) = ip ++ "." ++ fp /\
    ip <> "" /\ all_digits ip = true /\ all_digits fp = true /\
    String.length fp = 6%nat /\
    value_from 0 (ip ++ fp) = (c * pow10 (q + 6))%N.
Proof.
  intros Hn Hq. unfold finiteToString.
  rewrite (normal_mk _ _ _ Hn), (normal_sciexp _ _ _ Hn).
  pose proof (digits_length c) as Hlen.
  pose proof (digits_all_digits c) as Hdig.
  pose proof (digits_nonempty c) as Hne.
  pose proof (ndigits_pos c) as Hnd.
  pose proof (value_from_digits_zeros c (q + 6) ltac:(lia)) as V.
  set (str := digits c) in *. set (nd := ndigits c) in *.
  rewrite Hlen.
  destruct (Z.ltb_spec (nd - 1 + q) 0) as [He|He].
  - (* 0.00ddd *)
    exists "0". eexists. split; [cbn [append]; reflexivity|].
    split; [discriminate|]. split; [reflexivity|].
    destruct (Z.ltb_spec 0 (6 + (nd - 1 + q) + 1 - nd)) as [Hp|Hp].
    + split; [|split].
      * rewrite !all_digits_app, zeros_digits, Hdig, zeros_digits. reflexivity.
      * apply Nat2Z.inj. rewrite !length_append, !Nat2Z.inj_add, Hlen.
        rewrite !zeros_length by lia. lia.
      * change ("0" ++ ?s) with (String "0" s). cbn [append value_from].
        change (10 * 0 + digit_val "0")%N with 0%N.
        rewrite value_from_0_zeros.
        replace (6 + (nd - 1 + q) + 1 - nd) with (q + 6) by lia. exact V.
    + split; [|split].
      * rewrite !all_digits_app, zeros_digits, Hdig. reflexivity.
      * apply Nat2Z.inj. rewrite !length_append, !Nat2Z.inj_add, Hlen.
        rewrite !zeros_length by lia. cbn [String.length]. lia.
      * cbn [append value_from].
        change (10 * 0 + digit_val "0")%N with 0%N.
        rewrite value_from_0_zeros, append_nil_r.
        replace (q + 6) with 0 in * by lia.
        change (zeros 0) with "" in V. rewrite append_nil_r in V. exact V.
  - destruct (Z.leb_spec nd (nd - 1 + q)) as [Hb|Hb].
    + (* ddd000 *)
      destruct (Z.ltb_spec 0 (6 + (nd - 1 + q) + 1 - (nd - 1 + q) - 1)) as [Hp|Hp]; [|lia].
      exists (str ++ zeros (nd - 1 + q + 1 - nd)). eexists.
      split; [rewrite append_assoc; reflexivity|].
      split; [destruct str; [contradiction|discriminate]|].
      split; [rewrite all_digits_app, Hdig, zeros_digits; reflexivity|].
      split; [apply zeros_digits|].
      split; [apply Nat2Z.inj; rewrite zeros_length by lia; lia|].
      replace (nd - 1 + q + 1 - nd) with q by lia.
      replace (6 + (nd - 1 + q) + 1 - (nd - 1 + q) - 1) with 6 by lia.
      unfold zeros in *. rewrite !value_from_app, value_from_zeros.
      fold (value_from 0 str). unfold str at 1. rewrite value_digits, value_from_zeros.
      unfold pow10. rewrite <- N.mul_assoc, <- N.pow_add_r.
      rewrite !Z_nat_N. f_equal. f_equal. lia.
    + destruct (Z.ltb_spec (nd - 1 + q + 1) nd) as [Hc|Hc].
      * (* dd.ddd *)
        assert (Hk : (Z.to_nat (nd - 1 + q + 1) <= String.length str)%nat) by lia.
        destruct (all_digits_split _ _ Hk Hdig) as [D1 D2].
        exists (substring 0 (Z.to_nat (nd - 1 + q + 1)) str). eexists.
        split; [rewrite !append_assoc; reflexivity|].
        split.
        { intros E. apply (f_equal String.length) in E.
          rewrite substring_0_length in E by exact Hk. cbn [String.length] in E. lia. }
        split; [exact D1|].
        unfold slice_from.
        destruct (Z.ltb_spec 0 (6 + (nd - 1 + q) + 1 - nd)) as [Hp|Hp].
        -- destruct (Z.eqb_spec (nd - 1 + q + 1) nd) as [Hx|Hx]; [lia|].
           split; [rewrite !all_digits_app, D2, zeros_digits; reflexivity|].
           split.
           { apply Nat2Z.inj. rewrite !length_append, !Nat2Z.inj_add.
             rewrite length_split_tail by exact Hk.
             cbn [append String.length]. rewrite zeros_length by lia. lia. }
           cbn [append]. rewrite <- append_assoc.
           rewrite <- (substring_split _ _ Hk).
           replace (6 + (nd - 1 + q) + 1 - nd) with (q + 6) by lia. exact V.
        -- split; [rewrite !all_digits_app, D2; reflexivity|].
           split.
           { apply Nat2Z.inj. rewrite !length_append, !Nat2Z.inj_add.
             rewrite length_split_tail by exact Hk.
             cbn [String.length]. lia. }
           rewrite append_nil_r. rewrite <- (substring_split _ _ Hk).
           replace (q + 6) with 0 in * by lia.
           change (zeros 0) with "" in V. rewrite append_nil_r in V. exact V.
      * (* ddd *)
        destruct (Z.ltb_spec 0 (6 + (nd - 1 + q) + 1 - nd)) as [Hp|Hp]; [|lia].
        destruct (Z.eqb_spec (nd - 1 + q + 1) nd) as [Hx|Hx]; [|lia].
        exists str. eexists. split; [reflexivity|].
        split; [exact Hne|]. split; [exact Hdig|].
        split; [apply zeros_digits|].
        split; [apply Nat2Z.inj; rewrite zeros_length by lia; lia|].
        cbn [append].
        replace (6 + (nd - 1 + q) + 1 - nd) with (q + 6) by lia. exact V.
Qed.

Lemma half_below c k :
  1 <= k -> (c < pow10 (k - 1))%N ->
  ((c + 5 * pow10 (k - 1)) / pow10 k = 0)%N.
Proof.
  intros Hk C. apply N.div_small.
  replace k with ((k - 1) + 1) at 2 by lia.
  rewrite pow10_add by lia. change (pow10 1) with 10%N. lia.
Qed.

Lemma few_digits c k : (c <> 0)%N -> ndigits c < k -> (c < pow10 (k - 1))%N.
Proof.
  intros Hc Hd. pose proof (ndigits_bounds_Z c Hc) as [_ B].
  pose proof (ndigits_pos c).
  apply N2Z.inj_lt. rewrite pow10_Z by lia.
  eapply Z.lt_le_trans; [exact B|]. apply Z.pow_le_mono_r; lia.
Qed.

Lemma mk_units neg c q c1 q1 :
  -6 <= q -> mk neg c q = Finite neg c1 q1 ->
  (c1 * pow10 (q1 + 6) = c * pow10 (q + 6))%N.
Proof.
  intros Hq E. destruct (N.eq_dec c 0) as [->|Hc].
  - rewrite mk_zero in E. inversion E. reflexivity.
  - destruct (sciexp_mk neg c q c1 q1 Hc E) as (_ & _ & Hle & -> & _).
    replace (q1 + 6) with ((q1 - q) + (q + 6)) by lia.
    rewrite pow10_add by lia. lia.
Qed.

(** Rounding at the sixth decimal keeps the millionths. *)
Lemma finalise_millionths neg c q c1 q1 :
  finalise (Finite neg c q) (6 + sciexp c q + 1) = Finite neg c1 q1 ->
  (c1 * pow10 (q1 + 6) = millionths c q)%N.
Proof.
  unfold finalise, millionths. destruct (N.eqb_spec c 0) as [->|Hc].
  - intros E. inversion E. cbn [N.mul].
    destruct (Z.leb_spec (-6) q) as [Hq|Hq]; [reflexivity|].
    symmetry. apply (half_below 0 (- 6 - q)); [lia|apply pow10_pos].
  - replace (sciexp c q - (6 + sciexp c q + 1) + 1) with (-6) by lia.
    assert (R : forall c' q', round_at neg c q (-6) = Finite neg c' q' ->
                  (c' * pow10 (q' + 6))%N
                  = if -6 <=? q then (c * pow10 (q + 6))%N
                    else ((c + 5 * pow10 (- 6 - q - 1)) / pow10 (- 6 - q))%N).
    { intros c' q'. unfold round_at.
      destruct (Z.leb_spec (-6) q) as [Hq|Hq]; [apply mk_units; exact Hq|].
      destruct (Z.ltb_spec (ndigits c) (- 6 - q)) as [Hd|Hd].
      - intros E. inversion E. cbn [N.mul]. symmetry.
        apply half_below; [lia|]. apply few_digits; assumption.
      - intros E. apply mk_units in E; [|lia]. rewrite E.
        change (pow10 (-6 + 6)) with 1%N. apply N.mul_1_r. }
    destruct (round_at_shape neg c q (-6)) as (c' & q' & E' & Hn & Hq').
    rewrite E'. specialize (R c' q' E').
    destruct (6 + sciexp c q + 1 <? 1).
    + intros E. inversion E; subst. exact R.
    + cbn [checkRange]. destruct (N.eqb_spec c' 0) as [Z|Z].
      * intros E. inversion E; subst. exact R.
      * assert (S : -6 <= sciexp c' q').
        { rewrite (sciexp_nonzero c' q' Z). pose proof (ndigits_pos c').
          destruct Hq' as [->|Hq']; [contradiction|lia]. }
        destruct (maxE <? sciexp c' q'); [discriminate|].
        destruct (Z.ltb_spec (sciexp c' q') minE) as [U|U];
          [unfold minE in U; lia|].
        intros E. inversion E; subst. exact R.
Qed.

Lemma rounds_finite x :
  result_form x -> isFinite x = true ->
  isFinite (finalise x (6 + xe x + 1)) = true.
Proof.
  destruct x as [| |neg c q]; try discriminate. intros [[-> ->]|R] _.
  - reflexivity.
  - cbn [xe]. destruct R as (Hc & Hm & Hd & Hr).
    cbn [finalise]. destruct (N.eqb_spec c 0) as [|_]; [contradiction|].
    destruct (round_at_shape neg c q (sciexp c q - (6 + sciexp c q + 1) + 1))
      as (c1 & q1 & E & Hn & _).
    rewrite E. destruct (6 + sciexp c q + 1 <? 1); [reflexivity|].
    cbn [checkRange]. destruct (N.eqb_spec c1 0) as [|Hc1]; [reflexivity|].
    destruct (round_at_digits neg c q _ c1 q1 Hc E Hc1) as (_ & Hs & He & _).
    assert (Hle : sciexp c1 q1 <= maxE).
    { destruct (Z.le_gt_cases (-6) q) as [Hq|Hq].
      - rewrite He by (try exact Hq; reflexivity). lia.
      - rewrite (sciexp_nonzero c q Hc) in *. unfold precision, maxE in *. lia. }
    destruct (Z.ltb_spec maxE (sciexp c1 q1)); [lia|].
    destruct (sciexp c1 q1 <? minE); reflexivity.
Qed.

(** What [toFixed(6)] prints for the result of an operation. *)
Lemma toFixed_six_decimals x :
  result_form x -> six_decimals_of x (toFixed x 6).
Proof.
  intros R. destruct x as [|neg|neg c q].
  - reflexivity.
  - destruct neg; reflexivity.
  - pose proof (rounds_finite _ R eq_refl) as F. cbn [xe] in F.
    unfold toFixed. cbn [xe].
    destruct (finalise_shape neg c q (6 + sciexp c q + 1))
      as [E|(c1 & q1 & E & Hn & Hq)]; rewrite E in *; [discriminate F|].
    cbn [xe].
    assert (Hq' : -6 <= q1).
    { destruct Hq as [->|Hq]; [|lia]. cbn in Hn. lia. }
    destruct (finiteToString_fixed_value neg c1 q1 Hn Hq')
      as (ip & fp & Es & H1 & H2 & H3 & H4 & H5).
    rewrite Es. cbn [six_decimals_of]. exists ip, fp.
    split.
    { unfold with_sign. cbn [isNeg isZero].
      destruct (neg && negb (c =? 0)%N); reflexivity. }
    repeat split; try assumption.
    rewrite H5. exact (finalise_millionths neg c q c1 q1 E).
Qed.

End RoundFacts.

(** Exact products. *)
Module ProductFacts.

Import Js DecimalJS Spec DigitFacts DecimalFacts FormatFacts RoundingFacts
  ExactFacts SubFacts DifferenceFacts PowFacts SignFacts.

Lemma Qmag_mul cx qx cy qy :
  (Qmag (cx * cy) (qx + qy) == Qmag cx qx * Qmag cy qy)%Q.
Proof.
  unfold Qmag. rewrite N2Z.inj_mul, inject_Z_mult.
  rewrite Qpower_plus by (apply ten_nonzero). ring.
Qed.

Lemma result_form_representable x :
  result_form x -> isFinite x = true -> isZero x = false -> representable x.
Proof.
  destruct x as [|s|s c q]; cbn; try discriminate.
  intros [[-> _]|H] _ Z; [discriminate Z|exact H].
Qed.

Lemma representable_nonzero z : representable z -> ~ (Qvalue z == 0)%Q.
Proof.
  destruct z as [| |n c q]; try contradiction. intros (Hc & _) E.
  destruct (Qvalue_sign n c q Hc) as [A B]. destruct n.
  - assert (Qvalue (Finite true c q) < 0)%Q by now apply A. lra.
  - assert (0 < Qvalue (Finite false c q))%Q by now apply B. lra.
Qed.

(** A product that fits the precision is exact. *)
Lemma mul_exact x y z :
  isFinite x = true -> isFinite y = true ->
  representable z ->
  (Qvalue z == Qvalue x * Qvalue y)%Q ->
  mul x y = z.
Proof.
  destruct x as [| |nx cx qx]; try discriminate.
  destruct y as [| |ny cy qy]; try discriminate.
  intros _ _ R E. pose proof (representable_nonzero z R) as NZ.
  unfold mul.
  destruct (N.eqb_spec cx 0) as [Zx|Zx].
  { subst cx. rewrite Qvalue_zero in E. exfalso. apply NZ. rewrite E. ring. }
  destruct (N.eqb_spec cy 0) as [Zy|Zy].
  { subst cy. rewrite Qvalue_zero in E. exfalso. apply NZ. rewrite E. ring. }
  cbn [orb]. apply representable_value; [exact R| |lia].
  rewrite E, !Qvalue_mag. pose proof (Qmag_mul cx qx cy qy) as M.
  destruct nx, ny; cbn [xorb]; rewrite M; ring.
Qed.

End ProductFacts.

(** Integers, differences and day counts as Numbers. *)
Module NumberFacts.

Import SpecFloat.

(** *** Bits *)

Lemma digits2_bounds m :
  2 ^ (Z.pos (digits2_pos m) - 1) <= Z.pos m < 2 ^ Z.pos (digits2_pos m).
Proof.
  induction m as [p IH|p IH|]; cbn [digits2_pos].
  - rewrite Pos2Z.inj_succ. replace (Z.succ (Z.pos (digits2_pos p)) - 1)
      with (Z.succ (Z.pos (digits2_pos p) - 1)) by lia.
    rewrite !Z.pow_succ_r by lia. lia.
  - rewrite Pos2Z.inj_succ. replace (Z.succ (Z.pos (digits2_pos p)) - 1)
      with (Z.succ (Z.pos (digits2_pos p) - 1)) by lia.
    rewrite !Z.pow_succ_r by lia. lia.
  - cbn. lia.
Qed.

Lemma digits2_unique m d :
  2 ^ (d - 1) <= Z.pos m < 2 ^ d -> Z.pos (digits2_pos m) = d.
Proof.
  intros [L U]. pose proof (digits2_bounds m) as [L' U'].
  destruct (Z.lt_trichotomy (Z.pos (digits2_pos m)) d) as [H|[H|H]]; [|exact H|].
  - assert (2 ^ Z.pos (digits2_pos m) <= 2 ^ (d - 1)) by (apply Z.pow_le_mono_r; lia).
    lia.
  - assert (0 <= d - 1 \/ d - 1 < 0) as [P|P] by lia.
    + assert (2 ^ d <= 2 ^ (Z.pos (digits2_pos m) - 1)) by (apply Z.pow_le_mono_r; lia).
      lia.
    + assert (d <= 0) by lia.
      assert (2 ^ d <= 1).
      { destruct (Z.eq_dec d 0) as [->|N]; [cbn; lia|].
        rewrite Z.pow_neg_r by lia. lia. }
      lia.
Qed.

Lemma iter_pos_nat {A} (f : A -> A) n x :
  iter_pos f n x = Nat.iter (Pos.to_nat n) f x.
Proof.
  revert x. induction n as [p IH|p IH|]; intros x; cbn [iter_pos].
  - rewrite !IH, Pos2Nat.inj_xI. cbn [Nat.iter].
    rewrite <- Nat.iter_add. replace (Pos.to_nat p + Pos.to_nat p)%nat
      with (2 * Pos.to_nat p)%nat by lia.
    now rewrite Nat.iter_swap.
  - rewrite !IH, Pos2Nat.inj_xO. rewrite <- Nat.iter_add.
    f_equal. lia.
  - reflexivity.
Qed.

Lemma Pos_iter_xO m k : Z.pos (Pos.iter xO m k) = Z.pos m * 2 ^ Z.pos k.
Proof.
  induction k as [|k IH] using Pos.peano_ind.
  - cbn. lia.
  - rewrite Pos.iter_succ, Pos2Z.inj_xO, IH, Pos2Z.inj_succ, Z.pow_succ_r by lia. lia.
Qed.

(** Shifting out [j] zero bits is exact. *)
Lemma shr_exact_nat j m :
  Nat.iter j shr_1 {| shr_m := Z.pos m * 2 ^ Z.of_nat j; shr_r := false; shr_s := false |}
  = {| shr_m := Z.pos m; shr_r := false; shr_s := false |}.
Proof.
  revert m. induction j as [|j IH]; intros m.
  - change (Z.of_nat 0) with 0. rewrite Z.pow_0_r, Z.mul_1_r. reflexivity.
  - rewrite Nat.iter_succ.
    replace (Z.pos m * 2 ^ Z.of_nat (S j)) with (Z.pos (xO m) * 2 ^ Z.of_nat j).
    + rewrite IH. reflexivity.
    + rewrite Nat2Z.inj_succ, Z.pow_succ_r by lia. lia.
Qed.

(** *** Rounding a value that needs none *)

Lemma fexp_normal e : -1021 <= e -> fexp 53 1024 e = e - 53.
Proof. intros H. unfold fexp, emin. lia. Qed.

Lemma Zdigits2_53 m : 2 ^ 52 <= Z.pos m < 2 ^ 53 -> Zdigits2 (Z.pos m) = 53.
Proof. intros H. cbn [Zdigits2]. now apply digits2_unique. Qed.

Lemma round_aux_id s m e :
  2 ^ 52 <= Z.pos m < 2 ^ 53 -> -1074 <= e <= 971 ->
  binary_round_aux 53 1024 s (Z.pos m) e loc_Exact = S754_finite s m e.
Proof.
  intros Hm He. unfold binary_round_aux, shr_fexp.
  rewrite (Zdigits2_53 m Hm), fexp_normal by lia.
  replace (53 + e - 53 - e) with 0 by lia.
  cbn [shr shr_record_of_loc shr_m loc_of_shr_record round_nearest_even].
  rewrite (Zdigits2_53 m Hm), fexp_normal by lia.
  replace (53 + e - 53 - e) with 0 by lia.
  cbn [shr shr_record_of_loc shr_m].
  destruct (Z.leb_spec e (1024 - 53)) as [_|H]; [reflexivity|lia].
Qed.

Lemma pow2_split a b : 0 <= a -> 0 <= b -> 2 ^ (a + b) = 2 ^ a * 2 ^ b.
Proof. intros. now apply Z.pow_add_r. Qed.

Lemma round_aux_exact s n e m E :
  2 ^ 52 <= Z.pos m < 2 ^ 53 -> -1074 <= E <= 971 ->
  e <= E -> Z.pos n = Z.pos m * 2 ^ (E - e) ->
  binary_round_aux 53 1024 s (Z.pos n) e loc_Exact = S754_finite s m E.
Proof.
  intros Hm HE Hle Hn.
  destruct (Z.eq_dec e E) as [->|Hne].
  { replace (E - E) with 0 in Hn by lia. rewrite Z.pow_0_r, Z.mul_1_r in Hn.
    inversion Hn; subst n. now apply round_aux_id. }
  assert (Dn : Zdigits2 (Z.pos n) = 53 + (E - e)).
  { cbn [Zdigits2]. apply digits2_unique. rewrite Hn.
    replace (53 + (E - e) - 1) with (52 + (E - e)) by lia.
    rewrite !pow2_split by lia.
    assert (0 < 2 ^ (E - e)) by (apply Z.pow_pos_nonneg; lia). nia. }
  unfold binary_round_aux, shr_fexp at 1. rewrite Dn, fexp_normal by lia.
  replace (53 + (E - e) + e - 53 - e) with (E - e) by lia.
  destruct (E - e) as [|p|p] eqn:Ep; [lia| |lia].
  cbn [shr shr_record_of_loc]. rewrite iter_pos_nat.
  assert (S : Nat.iter (Pos.to_nat p) shr_1
                {| shr_m := Z.pos n; shr_r := false; shr_s := false |}
              = {| shr_m := Z.pos m; shr_r := false; shr_s := false |}).
  { rewrite Hn. rewrite <- (positive_nat_Z p). apply shr_exact_nat. }
  rewrite S. cbn [shr_m loc_of_shr_record round_nearest_even].
  unfold shr_fexp. rewrite (Zdigits2_53 m Hm), fexp_normal by lia.
  replace (53 + (e + Z.pos p) - 53 - (e + Z.pos p)) with 0 by lia.
  cbn [shr shr_record_of_loc shr_m].
  replace (e + Z.pos p) with E by lia.
  destruct (Z.leb_spec E (1024 - 53)) as [_|H]; [reflexivity|lia].
Qed.

(** A number that fits 53 bits is rounded to itself. *)
Lemma binary_round_exact s n e m E :
  2 ^ 52 <= Z.pos m < 2 ^ 53 -> -1074 <= E <= 971 ->
  (e <= E /\ Z.pos n = Z.pos m * 2 ^ (E - e)) \/
  (E <= e /\ Z.pos m = Z.pos n * 2 ^ (e - E)) ->
  binary_round 53 1024 s n e = S754_finite s m E.
Proof.
  intros Hm HE [[Hle Hn]|[Hle Hn]].
  - unfold binary_round.
    assert (Dn : Z.pos (digits2_pos n) = 53 + (E - e)).
    { apply digits2_unique. rewrite Hn.
      replace (53 + (E - e) - 1) with (52 + (E - e)) by lia.
      rewrite !pow2_split by lia.
      assert (0 < 2 ^ (E - e)) by (apply Z.pow_pos_nonneg; lia). nia. }
    rewrite Dn, fexp_normal by lia. unfold shl_align.
    replace (53 + (E - e) + e - 53 - e) with (E - e) by lia.
    destruct (E - e) as [|p|p] eqn:Ep; [| |lia];
      apply (round_aux_exact s n e m E); try assumption; rewrite <- Ep in *; assumption.
  - destruct (Z.eq_dec e E) as [->|Hne].
    { replace (E - E) with 0 in Hn by lia. rewrite Z.pow_0_r, Z.mul_1_r in Hn.
      inversion Hn; subst n. unfold binary_round.
      change (Z.pos (digits2_pos m)) with (Zdigits2 (Z.pos m)).
      rewrite (Zdigits2_53 m Hm), fexp_normal by lia. unfold shl_align.
      replace (53 + E - 53 - E) with 0 by lia. now apply round_aux_id. }
    unfold binary_round.
    assert (Dn : Z.pos (digits2_pos n) = 53 - (e - E)).
    { apply digits2_unique.
      assert (P : 0 < 2 ^ (e - E)) by (apply Z.pow_pos_nonneg; lia).
      assert (e - E <= 52).
      { destruct (Z.le_gt_cases (e - E) 52) as [L|G]; [exact L|].
        assert (2 ^ 53 <= 2 ^ (e - E)) by (apply Z.pow_le_mono_r; lia). nia. }
      assert (A : 2 ^ 52 = 2 ^ (53 - (e - E) - 1) * 2 ^ (e - E)).
      { rewrite <- pow2_split by lia. f_equal. lia. }
      assert (B : 2 ^ 53 = 2 ^ (53 - (e - E)) * 2 ^ (e - E)).
      { rewrite <- pow2_split by lia. f_equal. lia. }
      rewrite A, B, Hn in Hm. nia. }
    rewrite Dn, fexp_normal by lia. unfold shl_align.
    replace (53 - (e - E) + e - 53 - e) with (E - e) by lia.
    destruct (E - e) as [|p|p] eqn:Ep; [lia|lia|].
    assert (Q : Pos.iter xO n p = m).
    { apply Pos2Z.inj. rewrite Pos_iter_xO, Hn. f_equal. f_equal. lia. }
    rewrite Q. replace (53 - (e - E) + e - 53) with E by lia.
    now apply round_aux_id.
Qed.

(** *** Integers as Numbers *)

Import JsNumber.

(** The bits of a positive integer below 2^53: a 53-bit significand
    and an exponent in [-52, 0]. *)
Lemma ofZ_pos z :
  0 < z < 2 ^ 53 ->
  exists m E, ofZ z = S754_finite false m E /\
              2 ^ 52 <= Z.pos m < 2 ^ 53 /\ -52 <= E <= 0 /\
              Z.pos m = z * 2 ^ (- E).
Proof.
  intros Hz. destruct z as [|p|p]; try lia.
  pose proof (digits2_bounds p) as Hd.
  set (d := Z.pos (digits2_pos p)) in *.
  assert (Hd1 : 1 <= d <= 53).
  { split; [unfold d; lia|].
    destruct (Z.le_gt_cases d 53) as [L|G]; [exact L|].
    assert (2 ^ 53 <= 2 ^ (d - 1)) by (apply Z.pow_le_mono_r; lia). lia. }
  assert (P : 0 < 2 ^ (53 - d)) by (apply Z.pow_pos_nonneg; lia).
  assert (A : 2 ^ 52 = 2 ^ (d - 1) * 2 ^ (53 - d)).
  { rewrite <- pow2_split by lia. f_equal. lia. }
  assert (B : 2 ^ 53 = 2 ^ d * 2 ^ (53 - d)).
  { rewrite <- pow2_split by lia. f_equal. lia. }
  assert (M : 0 < Z.pos p * 2 ^ (53 - d)) by nia.
  destruct (Z.pos p * 2 ^ (53 - d)) as [|m|m] eqn:Em; try lia.
  exists m, (d - 53). replace (- (d - 53)) with (53 - d) by lia.
  split; [|split; [nia|split; [lia|now rewrite Em]]].
  unfold ofZ, binary_normalize, prec, emax.
  apply binary_round_exact; [nia|lia|]. right. split; [lia|].
  rewrite <- Em. f_equal. f_equal. lia.
Qed.

Lemma ofZ_0 : ofZ 0 = S754_zero false.
Proof. reflexivity. Qed.

(** Subtraction of integers below 2^53 is exact. *)
Lemma sub_integers l f :
  0 <= f -> f <= l -> l < 2 ^ 53 ->
  sub (ofZ l) (ofZ f) = ofZ (l - f).
Proof.
  intros Hf Hfl Hl.
  destruct (Z.eq_dec f 0) as [->|F0].
  { rewrite Z.sub_0_r, ofZ_0. destruct (Z.eq_dec l 0) as [->|L0]; [reflexivity|].
    destruct (ofZ_pos l ltac:(lia)) as (m & E & -> & _). reflexivity. }
  destruct (ofZ_pos f ltac:(lia)) as (mf & Ef & Rf & Bf & Xf & Vf).
  destruct (ofZ_pos l ltac:(lia)) as (ml & El & Rl & Bl & Xl & Vl).
  destruct (Z.eq_dec l f) as [->|N].
  { rewrite Z.sub_diag, ofZ_0, Rf. unfold sub. cbn [SFsub].
    rewrite Z.sub_diag. reflexivity. }
  destruct (ofZ_pos (l - f) ltac:(lia)) as (md & Ed & Rd & Bd & Xd & Vd).
  rewrite Rl, Rf, Rd. unfold sub. cbn [SFsub].
  set (ez := Z.min El Ef).
  assert (Al : Z.pos (fst (shl_align ml El ez)) = Z.pos ml * 2 ^ (El - ez)).
  { unfold shl_align. destruct (ez - El) as [|p|p] eqn:Ep; cbn [fst].
    - replace (El - ez) with 0 by lia. cbn. lia.
    - lia.
    - rewrite Pos_iter_xO. f_equal. f_equal. lia. }
  assert (Af : Z.pos (fst (shl_align mf Ef ez)) = Z.pos mf * 2 ^ (Ef - ez)).
  { unfold shl_align. destruct (ez - Ef) as [|p|p] eqn:Ep; cbn [fst].
    - replace (Ef - ez) with 0 by lia. cbn. lia.
    - lia.
    - rewrite Pos_iter_xO. f_equal. f_equal. lia. }
  rewrite Al, Af, Vl, Vf.
  assert (Pz : 0 < 2 ^ (- ez)) by (apply Z.pow_pos_nonneg; lia).
  assert (V : l * 2 ^ (- El) * 2 ^ (El - ez) - f * 2 ^ (- Ef) * 2 ^ (Ef - ez)
              = (l - f) * 2 ^ (- ez)).
  { rewrite <- !Z.mul_assoc, <- !pow2_split by lia.
    replace (- El + (El - ez)) with (- ez) by lia.
    replace (- Ef + (Ef - ez)) with (- ez) by lia. ring. }
  cbn [cond_Zopp]. rewrite V.
  assert (Pd : 0 < (l - f) * 2 ^ (- ez)) by nia.
  destruct ((l - f) * 2 ^ (- ez)) as [|p|p] eqn:Ep; try lia.
  unfold binary_normalize. apply binary_round_exact; [exact Bd|lia|].
  destruct (Z.le_gt_cases ez Ed) as [L|G].
  - left. split; [exact L|]. rewrite <- Ep, Vd, <- Z.mul_assoc, <- pow2_split by lia.
    f_equal. f_equal. lia.
  - right. split; [lia|]. rewrite <- Ep, Vd, <- Z.mul_assoc, <- pow2_split by lia.
    f_equal. f_equal. lia.
Qed.

(** *** Rounding a quotient *)

(** The second half of [binary_round_aux]: a rounded significand that
    reached 2^53 is brought back to 53 bits. *)
Lemma renormalise R e :
  2 ^ 52 <= R <= 2 ^ 53 -> -1074 <= e <= 901 ->
  exists M E,
    (let '(mrs, e2) := shr_fexp 53 1024 R e loc_Exact in
     match shr_m mrs with
     | Z0 => S754_zero false
     | Z.pos m => if e2 <=? 1024 - 53 then S754_finite false m e2
                  else S754_infinity false
     | Z.neg _ => S754_nan
     end) = S754_finite false M E /\
    e <= E <= e + 1 /\ Z.pos M * 2 ^ (E - e) = R.
Proof.
  intros HR He. destruct (Z.eq_dec R (2 ^ 53)) as [->|N].
  - exists (Z.to_pos (2 ^ 52)), (e + 1). split; [|split; [lia|]].
    + unfold shr_fexp. change (Zdigits2 (2 ^ 53)) with 54.
      rewrite fexp_normal by lia. replace (54 + e - 53 - e) with 1 by lia.
      cbn [shr shr_record_of_loc iter_pos]. change (2 ^ 53) with (Z.pos (Z.to_pos (2 ^ 53))).
      cbn [Z.to_pos Z.pow Z.pow_pos Pos.iter Z.mul Pos.mul shr_1 shr_m orb].
      destruct (Z.leb_spec (e + 1) (1024 - 53)) as [_|H]; [reflexivity|lia].
    + replace (e + 1 - e) with 1 by lia. reflexivity.
  - destruct R as [|m|m]; try lia. exists m, e. split; [|split; [lia|]].
    + unfold shr_fexp. rewrite (Zdigits2_53 m) by lia.
      rewrite fexp_normal by lia. replace (53 + e - 53 - e) with 0 by lia.
      cbn [shr shr_record_of_loc shr_m].
      destruct (Z.leb_spec e (1024 - 53)) as [_|H]; [reflexivity|lia].
    + rewrite Z.sub_diag. cbn. lia.
Qed.

Lemma round_nearest_even_up m loc :
  exists up, (up = 0 \/ up = 1 /\ loc <> loc_Exact) /\
             round_nearest_even m loc = m + up.
Proof.
  destruct loc as [|[| |]]; cbn [round_nearest_even].
  - exists 0. split; [now left|lia].
  - destruct (Z.even m).
    + exists 0. split; [now left|lia].
    + exists 1. split; [right; split; [reflexivity|discriminate]|reflexivity].
  - exists 0. split; [now left|lia].
  - exists 1. split; [right; split; [reflexivity|discriminate]|reflexivity].
Qed.

Lemma loc_of_record_of m loc : loc_of_shr_record (shr_record_of_loc m loc) = loc.
Proof. destruct loc as [|[| |]]; reflexivity. Qed.

Lemma shr_m_record_of m loc : shr_m (shr_record_of_loc m loc) = m.
Proof. destruct loc as [|[| |]]; reflexivity. Qed.

(** A 53-bit quotient is rounded in place: it stays, or (only when
    inexact) moves up by one unit. *)
Lemma round_aux_53 q e loc :
  2 ^ 52 <= Z.pos q < 2 ^ 53 -> -1074 <= e <= 900 ->
  exists M E up,
    binary_round_aux 53 1024 false (Z.pos q) e loc = S754_finite false M E /\
    e <= E <= e + 1 /\
    Z.pos M * 2 ^ (E - e) = Z.pos q + up /\
    (up = 0 \/ up = 1 /\ loc <> loc_Exact).
Proof.
  intros Hq He.
  destruct (round_nearest_even_up (Z.pos q) loc) as (up & Hup & Eup).
  destruct (renormalise (Z.pos q + up) e ltac:(lia) ltac:(lia)) as (M & E & R & HE & V).
  exists M, E, up. split; [|split; [exact HE|split; [exact V|exact Hup]]].
  unfold binary_round_aux. unfold shr_fexp at 1.
  rewrite (Zdigits2_53 q Hq), fexp_normal by lia.
  replace (53 + e - 53 - e) with 0 by lia. cbn [shr].
  rewrite loc_of_record_of, shr_m_record_of, Eup. exact R.
Qed.

(** A 54-bit quotient loses its last bit: the result is the half, moved
    up by one unit only if that bit was set, and always then if the
    quotient was inexact. *)
Lemma round_aux_54 q e loc :
  2 ^ 53 <= Z.pos q < 2 ^ 54 -> -1074 <= e <= 900 ->
  exists M E up,
    binary_round_aux 53 1024 false (Z.pos q) e loc = S754_finite false M E /\
    e + 1 <= E <= e + 2 /\
    Z.pos M * 2 ^ (E - (e + 1)) = Z.pos q / 2 + up /\
    (up = 0 \/ up = 1 /\ Z.odd (Z.pos q) = true) /\
    (Z.odd (Z.pos q) = true -> loc <> loc_Exact -> up = 1).
Proof.
  intros Hq He.
  assert (D : Zdigits2 (Z.pos q) = 54) by (cbn [Zdigits2]; now apply digits2_unique).
  assert (S1 : exists p b st,
             shr_1 (shr_record_of_loc (Z.pos q) loc)
             = {| shr_m := Z.pos p; shr_r := b; shr_s := st |} /\
             Z.pos p = Z.pos q / 2 /\ b = Z.odd (Z.pos q) /\
             (loc <> loc_Exact -> st = true)).
  { destruct q as [p|p|]; [| |lia].
    - exists p, true. destruct loc as [|[| |]]; eexists; (split; [reflexivity|]);
        (split; [rewrite Pos2Z.inj_xI; Z.div_mod_to_equations; lia|]);
        (split; [reflexivity|]); intros H; try reflexivity; now elim H.
    - exists p, false. destruct loc as [|[| |]]; eexists; (split; [reflexivity|]);
        (split; [rewrite Pos2Z.inj_xO; Z.div_mod_to_equations; lia|]);
        (split; [reflexivity|]); intros H; try reflexivity; now elim H. }
  destruct S1 as (p & b & st & S1 & Hp & Hb & Hst).
  assert (P53 : 2 ^ 53 = 2 * 2 ^ 52) by reflexivity.
  assert (P54 : 2 ^ 54 = 2 * 2 ^ 53) by reflexivity.
  assert (Bp : 2 ^ 52 <= Z.pos p < 2 ^ 53) by (rewrite Hp; Z.div_mod_to_equations; lia).
  set (loc' := loc_of_shr_record {| shr_m := Z.pos p; shr_r := b; shr_s := st |}).
  destruct (round_nearest_even_up (Z.pos p) loc') as (up & Hup & Eup).
  destruct (renormalise (Z.pos p + up) (e + 1) ltac:(lia) ltac:(lia))
    as (M & E & R & HE & V).
  exists M, E, up. split; [|split; [lia|split; [now rewrite <- Hp|split]]].
  - unfold binary_round_aux. unfold shr_fexp at 1.
    rewrite D, fexp_normal by lia.
    replace (54 + e - 53 - e) with 1 by lia. cbn [shr iter_pos].
    rewrite S1. cbn [shr_m]. fold loc'. rewrite Eup. exact R.
  - destruct Hup as [->|[-> Hl]]; [now left|right]. split; [reflexivity|].
    rewrite <- Hb. subst loc'.
    destruct b; [reflexivity|].
    destruct st; cbn [loc_of_shr_record round_nearest_even] in Eup; exfalso; clear - Eup; lia.
  - intros Ho Hl. rewrite Ho in Hb. pose proof (Hst Hl) as Hs. subst b st loc'.
    cbn [loc_of_shr_record round_nearest_even] in Eup. clear - Eup. lia.
Qed.

(** *** Whole days *)

Lemma ceil_finite M E K :
  E < 0 -> (K - 1) * 2 ^ (- E) < Z.pos M <= K * 2 ^ (- E) ->
  ceil (S754_finite false M E) = ofZ K.
Proof.
  intros HE HM. unfold ceil.
  destruct (Z.leb_spec 0 E) as [H|_]; [lia|]. cbv zeta. f_equal.
  assert (P : 0 < 2 ^ (- E)) by (apply Z.pow_pos_nonneg; lia).
  pose proof (Z.div_mod (Z.pos M) (2 ^ (- E)) ltac:(lia)) as Dm.
  pose proof (Z.mod_pos_bound (Z.pos M) (2 ^ (- E)) P) as Bm.
  set (d := 2 ^ (- E)) in *. set (q := Z.pos M / d) in *. set (r := Z.pos M mod d) in *.
  destruct (Z.eqb_spec r 0) as [R0|R0]; nia.
Qed.

(** The quotient of a positive integer below 2^53 by the milliseconds
    of a day lies within one unit of the least integer not below it. *)
Lemma div_by_day delta :
  0 < delta < 2 ^ 53 ->
  let K := (delta + 86399999) / 86400000 in
  exists M E,
    div (ofZ delta) (ofZ (1000 * 3600 * 24)) = S754_finite false M E /\
    E < 0 /\ (K - 1) * 2 ^ (- E) < Z.pos M <= K * 2 ^ (- E).
Proof.
  intros Hd K.
  destruct (ofZ_pos delta Hd) as (m1 & E1 & R1 & B1 & X1 & V1).
  rewrite R1.
  change (ofZ (1000 * 3600 * 24)) with (S754_finite false 5798205849600000 (-26)).
  unfold div. cbn [SFdiv xorb]. unfold SFdiv_core_binary, prec, emax.
  rewrite (Zdigits2_53 m1 B1).
  change (Zdigits2 5798205849600000) with 53.
  replace (Z.min (fexp 53 1024 (53 + E1 - (53 + -26))) (E1 - -26)) with (E1 - 27)
    by (rewrite fexp_normal by lia; lia).
  replace (E1 - -26 - (E1 - 27)) with 53 by lia.
  rewrite Z.shiftl_mul_pow2 by lia.
  pose proof (Z_div_mod (Z.pos m1 * 2 ^ 53) 5798205849600000 ltac:(lia)) as Q.
  destruct (Z.div_eucl (Z.pos m1 * 2 ^ 53) 5798205849600000) as [q r].
  destruct Q as [Q Br].
  (* the scaled numerator and the bounds around it *)
  set (P := 2 ^ (27 - E1)).
  assert (HP : 2 ^ 27 <= P) by (apply Z.pow_le_mono_r; lia).
  assert (Hm1 : Z.pos m1 * 2 ^ 27 = delta * P).
  { rewrite V1, <- Z.mul_assoc, <- pow2_split by lia. unfold P. f_equal. f_equal. lia. }
  assert (HK : (K - 1) * 86400000 < delta <= K * 86400000)
    by (unfold K; Z.div_mod_to_equations; lia).
  assert (HA : (K - 1) * P * 86400000 + P <= delta * P <= ((K - 1) * P + P) * 86400000)
    by nia.
  set (A := delta * P) in *. set (B := (K - 1) * P) in *.
  change (2 ^ 53) with 9007199254740992 in *.
  change (2 ^ 52) with 4503599627370496 in *.
  change (2 ^ 27) with 134217728 in *.
  assert (Hq : 4503599627370496 <= q < 18014398509481984) by lia.
  assert (Hr : exists r', r = 67108864 * r' /\ A = 86400000 * q + r' /\ 0 <= r' < 86400000).
  { exists (A - 86400000 * q). lia. }
  destruct Hr as (r' & -> & HA' & Br').
  assert (Hloc : new_location 5798205849600000 (67108864 * r') <> loc_Exact <-> r' <> 0).
  { unfold new_location. change (Z.even 5798205849600000) with true. cbv iota.
    unfold new_location_even.
    destruct (Z.eqb_spec (67108864 * r') 0) as [Z0|Z0];
      (split; [intros H|intros H; try discriminate]); try congruence; lia. }
  set (loc := new_location 5798205849600000 (67108864 * r')) in *.
  destruct q as [|q|q]; try lia.
  assert (PE : forall E, E1 - 27 <= E <= 0 -> P = 2 ^ (- E) * 2 ^ (E - (E1 - 27))).
  { intros E HE. unfold P. rewrite <- pow2_split by lia. f_equal. lia. }
  destruct (Z.lt_ge_cases (Z.pos q) 9007199254740992) as [S|L].
  - destruct (round_aux_53 q (E1 - 27) loc) as (M & E & up & R & HE & V & Hup);
      [change (2 ^ 52) with 4503599627370496;
       change (2 ^ 53) with 9007199254740992; lia|lia|].
    exists M, E. split; [exact R|]. split; [lia|].
    pose proof (PE E ltac:(lia)) as PE'.
    assert (C : 0 < 2 ^ (E - (E1 - 27))) by (apply Z.pow_pos_nonneg; lia).
    assert (W : B < Z.pos M * 2 ^ (E - (E1 - 27)) <= B + P).
    { rewrite V. destruct Hup as [->|[-> Hl]]; [lia|].
      apply Hloc in Hl. lia. }
    set (c := 2 ^ (E - (E1 - 27))) in *. set (d := 2 ^ (- E)) in *.
    unfold B in W. rewrite PE' in W. nia.
  - destruct (round_aux_54 q (E1 - 27) loc) as (M & E & up & R & HE & V & Hup & Hodd);
      [change (2 ^ 53) with 9007199254740992;
       change (2 ^ 54) with 18014398509481984; lia|lia|].
    exists M, E. split; [exact R|]. split; [lia|].
    pose proof (PE E ltac:(lia)) as PE'.
    assert (C : 0 < 2 ^ (E - (E1 - 27 + 1))) by (apply Z.pow_pos_nonneg; lia).
    assert (C2 : 2 ^ (E - (E1 - 27)) = 2 * 2 ^ (E - (E1 - 27 + 1))).
    { replace (E - (E1 - 27)) with (Z.succ (E - (E1 - 27 + 1))) by lia.
      rewrite Z.pow_succ_r by lia. reflexivity. }
    pose proof (Zmod_odd (Z.pos q)) as Od.
    pose proof (Z.div_mod (Z.pos q) 2 ltac:(lia)) as Dq.
    assert (W : B < 2 * (Z.pos M * 2 ^ (E - (E1 - 27 + 1))) <= B + P).
    { rewrite V. destruct Hup as [->|[-> Ho]].
      - destruct (Z.odd (Z.pos q)) eqn:O.
        + assert (r' <> 0) by lia.
          assert (loc <> loc_Exact) by now apply Hloc.
          specialize (Hodd eq_refl ltac:(assumption)). lia.
        + split; [lia|lia].
      - rewrite Ho in Od. assert (Ev : exists h, P = 2 * h).
        { exists (2 ^ (27 - E1 - 1)). unfold P.
          replace (27 - E1) with (Z.succ (27 - E1 - 1)) at 1 by lia.
          now rewrite Z.pow_succ_r by lia. }
        destruct Ev as (h & Eh).
        assert (Bh : B = 2 * ((K - 1) * h)) by (unfold B; rewrite Eh; ring).
        lia. }
    set (c := 2 ^ (E - (E1 - 27 + 1))) in *. set (d := 2 ^ (- E)) in *.
    unfold B in W. rewrite PE', C2 in W. nia.
Qed.

Lemma leb_one_ofZ K : 1 <= K < 2 ^ 53 -> leb (ofZ 1) (ofZ K) = true.
Proof.
  intros HK. destruct (ofZ_pos K ltac:(lia)) as (m & E & -> & Bm & XE & _).
  change (ofZ 1) with (S754_finite false 4503599627370496 (-52)).
  unfold leb, SFleb. cbn [SFcompare].
  destruct (Z.compare_spec (-52) E) as [<-|L|G]; [|reflexivity|lia].
  change (2 ^ 52) with (Z.pos 4503599627370496) in Bm.
  destruct Bm as [Bm _].
  change (Pos.compare_cont Eq 4503599627370496 m)
    with (Pos.compare 4503599627370496 m).
  destruct (Pos.compare 4503599627370496 m) eqn:C; [reflexivity|reflexivity|].
  exfalso. apply Bm. exact C.
Qed.

(** The day count of two time values below 2^53. *)
Lemma days_between f l :
  0 <= f -> f <= l -> l < 2 ^ 53 ->
  ceil (div (sub (ofZ l) (ofZ f)) (ofZ (1000 * 3600 * 24)))
  = ofZ ((l - f + 86399999) / 86400000).
Proof.
  intros Hf Hfl Hl. rewrite sub_integers by assumption.
  destruct (Z.eq_dec l f) as [->|N].
  - rewrite Z.sub_diag. reflexivity.
  - destruct (div_by_day (l - f) ltac:(lia)) as (M & E & -> & HE & HM).
    now apply ceil_finite.
Qed.

End NumberFacts.

(* ------------------------------------------------------------------ *)
(** ** Further properties of the handlers                              *)
(* ------------------------------------------------------------------ *)

Import JsDate CalendarFacts TableFacts WindowFacts LoopFacts FieldFacts
  LegacyFacts IsolationFacts SignFacts DaysFacts ErrorFacts ScaleFacts
  RoundFacts ProductFacts NumberFacts.

(** X1: a field of a row is the placeholder exactly when a snapshot it
    needs is absent: the last one for [baseApy], the last or the weekly
    one for [avgApy] and [weeklyBasedApr], the last or the yesterday one
    for [dailyBasedApr].  A snapshot that is present never gives the
    placeholder, whatever it holds. *)
Theorem placeholder_iff_snapshot_absent :
  forall lib a e row,
    getPoolsStats lib a e = Ok row ->
    (baseApy row = placeholder <-> lastEntry e = None) /\
    (avgApy row = placeholder <-> lastEntry e = None \/ weeklyEntry e = None) /\
    (weeklyBasedApr row = placeholder <->
     lastEntry e = None \/ weeklyEntry e = None) /\
    (dailyBasedApr row = placeholder <->
     lastEntry e = None \/ yesterdayEntry e = None).
Proof.
  intros lib a e row H. apply getPoolsStats_inv in H.
  destruct H as (lr & wr & yr & El & Ew & Ey & ->).
  rewrite (ratio_absent lib _ _ El), (ratio_absent lib _ _ Ew),
    (ratio_absent lib _ _ Ey).
  apply rowOf_placeholder.
Qed.

Lemma placeholder_iff_witness :
  exists row,
    getPoolsStats plain "C" entriesC = Ok row /\
    baseApy row <> placeholder /\ avgApy row = placeholder /\
    weeklyBasedApr row = placeholder /\ dailyBasedApr row <> placeholder.
Proof.
  destruct (getPoolsStats plain "C" entriesC) as [row|msg] eqn:E;
    [|vm_compute in E; discriminate E].
  destruct (placeholder_iff_snapshot_absent plain "C" entriesC row E)
    as (B & A & W & D).
  exists row. split; [reflexivity|]. split; [|split; [|split]].
  - intros H. apply B in H. discriminate H.
  - apply A. right. reflexivity.
  - apply W. right. reflexivity.
  - intros H. apply D in H. destruct H as [H|H]; discriminate H.
Defined.

(** X2: every percentage field that is computed is its decimal.js value
    printed with six decimals: the texts NaN, Infinity or -Infinity for
    a value that is not finite, and otherwise an optional minus sign, at
    least one digit, a point and exactly six digits, which read as one
    number count the millionths of the value, a half rounded upwards in
    magnitude.  The sign is that of the value before rounding: a
    negative value below half a millionth keeps its minus sign. *)
Theorem percentage_fields_six_decimals :
  forall lib a e row l rl,
    getPoolsStats lib a e = Ok row ->
    lastEntry e = Some l ->
    calculateRatio lib (Some l) = Ok (Some rl) ->
    six_decimals_of
      (mul (sub (pow lib rl (JsNumber.div (JsNumber.ofZ DAYS_IN_YEAR)
                                          (daysElapsedSinceIndexed e)))
                (ofZ 1))
           (ofZ 100))
      (baseApy row) /\
    (forall w rw,
       weeklyEntry e = Some w ->
       calculateRatio lib (Some w) = Ok (Some rw) ->
       six_decimals_of
         (mul (sub (pow lib (div rl rw)
                        (JsNumber.div (JsNumber.ofZ DAYS_IN_YEAR)
                                      (JsNumber.ofZ AVG_DAYS)))
                   (ofZ 1))
              (ofZ 100))
         (avgApy row) /\
       six_decimals_of
         (mul (mul (sub (div rl rw) (ofZ 1))
                   (ofNumber (JsNumber.div (JsNumber.ofZ 365)
                                           (JsNumber.ofZ AVG_DAYS))))
              (ofZ 100))
         (weeklyBasedApr row)) /\
    (forall y ry,
       yesterdayEntry e = Some y ->
       calculateRatio lib (Some y) = Ok (Some ry) ->
       six_decimals_of
         (mul (mul (sub (div rl ry) (ofZ 1)) (ofZ 365)) (ofZ 100))
         (dailyBasedApr row)).
Proof.
  intros lib a e row l rl H Hl Rl. apply getPoolsStats_inv in H.
  destruct H as (lr & wr & yr & El & Ew & Ey & ->).
  rewrite Hl, Rl in El. inversion El; subst lr. clear El.
  cbn [rowOf baseApy avgApy weeklyBasedApr dailyBasedApr].
  split; [apply toFixed_six_decimals, mul_form|]. split.
  - intros w rw Hw Rw. rewrite Hw, Rw in Ew. inversion Ew; subst wr.
    split; apply toFixed_six_decimals, mul_form.
  - intros y ry Hy Ry. rewrite Hy, Ry in Ey. inversion Ey; subst yr.
    apply toFixed_six_decimals, mul_form.
Qed.

Lemma percentage_fields_witness :
  exists row,
    getPoolsStats plain "C" entriesC = Ok row /\
    six_decimals_of
      (mul (mul (sub (div (Finite false 2 0) (Finite false 199 (-2))) (ofZ 1))
                (ofZ 365)) (ofZ 100))
      (dailyBasedApr row) /\
    dailyBasedApr row = "183.417085".
Proof.
  destruct (getPoolsStats plain "C" entriesC) as [row|msg] eqn:E;
    [|vm_compute in E; discriminate E].
  exists row. split; [reflexivity|]. split.
  - exact (proj2 (proj2 (percentage_fields_six_decimals plain "C" entriesC row
                    snapC2 (Finite false 2 0) E eq_refl eq_refl))
             snapC1 (Finite false 199 (-2)) eq_refl eq_refl).
  - vm_compute in E. inversion E. reflexivity.
Defined.

(** X3: when the ratio of the last snapshot is finite and not zero, every
    metric that compares it with an equal ratio reads zero:
    [dailyBasedApr] for an equal yesterday ratio, [avgApy] and
    [weeklyBasedApr] for an equal weekly ratio.  This is the case
    whenever the snapshot found in a window is the last snapshot
    itself. *)
Theorem unchanged_ratio_reads_zero :
  forall lib a e l r row,
    lastEntry e = Some l ->
    calculateRatio lib (Some l) = Ok (Some r) ->
    isFinite r = true -> isZero r = false ->
    getPoolsStats lib a e = Ok row ->
    (forall y, yesterdayEntry e = Some y ->
       calculateRatio lib (Some y) = Ok (Some r) ->
       dailyBasedApr row = "0.000000") /\
    (forall w, weeklyEntry e = Some w ->
       calculateRatio lib (Some w) = Ok (Some r) ->
       avgApy row = "0.000000" /\ weeklyBasedApr row = "0.000000") /\
    (yesterdayEntry e = Some l -> dailyBasedApr row = "0.000000") /\
    (weeklyEntry e = Some l ->
     avgApy row = "0.000000" /\ weeklyBasedApr row = "0.000000").
Proof.
  intros lib a e l r row Hl Rl F Z H. apply getPoolsStats_inv in H.
  destruct H as (lr & wr & yr & El & Ew & Ey & ->).
  rewrite Hl, Rl in El. inversion El; subst lr. clear El.
  pose proof (calculateRatio_form lib _ _ Rl) as R.
  cbn [rowOf avgApy weeklyBasedApr dailyBasedApr].
  assert (D : forall y, yesterdayEntry e = Some y ->
                calculateRatio lib (Some y) = Ok (Some r) ->
                match yr with Some y0 => dailyAprOf r y0 | None => placeholder end
                = "0.000000").
  { intros y Hy Ry. rewrite Hy, Ry in Ey. inversion Ey; subst yr.
    now apply dailyApr_unchanged. }
  assert (W : forall w, weeklyEntry e = Some w ->
                calculateRatio lib (Some w) = Ok (Some r) ->
                match wr with Some w0 => avgApyOf lib r w0 | None => placeholder end
                = "0.000000" /\
                match wr with Some w0 => weeklyAprOf r w0 | None => placeholder end
                = "0.000000").
  { intros w Hw Rw. rewrite Hw, Rw in Ew. inversion Ew; subst wr.
    split; [now apply avgApy_unchanged|now apply weeklyApr_unchanged]. }
  split; [exact D|]. split; [exact W|]. split.
  - intros Hy. exact (D l Hy Rl).
  - intros Hw. exact (W l Hw Rl).
Qed.

Lemma unchanged_ratio_witness :
  exists row,
    getPoolsStats plain "E" entriesE = Ok row /\
    dailyBasedApr row = "0.000000".
Proof.
  destruct (getPoolsStats plain "E" entriesE) as [row|msg] eqn:E;
    [|vm_compute in E; discriminate E].
  exists row. split; [reflexivity|].
  apply (proj1 (unchanged_ratio_reads_zero plain "E" entriesE snapE2
                  (Finite false 15 (-1)) row
                  eq_refl eq_refl eq_refl eq_refl E) snapE1);
    reflexivity.
Defined.

(** X4: the sign of [earnMultiplier] is that of the change: with both
    ratios finite, the text starts with a minus sign only if the last
    ratio is below the yesterday ratio, and whenever it is below, the
    text starts with a minus sign or is the text 0 (a difference too
    small for the exponent range). *)
Theorem earnMultiplier_sign :
  forall lib a e l y rl ry row,
    lastEntry e = Some l -> yesterdayEntry e = Some y ->
    calculateRatio lib (Some l) = Ok (Some rl) ->
    calculateRatio lib (Some y) = Ok (Some ry) ->
    isFinite rl = true -> isFinite ry = true ->
    getPoolsStats lib a e = Ok row ->
    (prefix_b "-" (earnMultiplier row) = true -> (Qvalue rl < Qvalue ry)%Q) /\
    ((Qvalue rl < Qvalue ry)%Q ->
     prefix_b "-" (earnMultiplier row) = true \/ earnMultiplier row = "0").
Proof.
  intros lib a e l y rl ry row Hl Hy Rl Ry Fl Fy H.
  apply getPoolsStats_inv in H. destruct H as (lr & wr & yr & El & _ & Ey & ->).
  rewrite Hl, Rl in El. rewrite Hy, Ry in Ey. inversion El; inversion Ey; subst lr yr.
  cbn [rowOf earnMultiplier]. unfold earnMultiplierOf.
  rewrite (toString_minus (sub rl ry) (sub_form rl ry)).
  destruct (sub_sign rl ry Fl Fy) as [A B]. split.
  - intros H. apply andb_true_iff in H. destruct H as [N Z].
    apply A; [exact N|]. now destruct (isZero (sub rl ry)).
  - intros H. rewrite (B H). cbn [andb].
    pose proof (sub_form rl ry) as R.
    destruct (sub rl ry) as [|s|s c q]; [left; reflexivity|left; reflexivity|].
    cbn [isZero]. destruct (N.eqb_spec c 0) as [Z|Z]; [right|left; reflexivity].
    subst c. cbn [result_form] in R. destruct R as [[_ ->]|R].
    + apply toString_zero.
    + cbn [representable] in R. destruct R as [R _]. congruence.
Qed.

Lemma earnMultiplier_sign_witness :
  exists row,
    getPoolsStats plain "C" (entries (Some snapC1) (Some snapC1) None (Some snapC2))
    = Ok row /\
    prefix_b "-" (earnMultiplier row) = true.
Proof.
  set (e := entries (Some snapC1) (Some snapC1) None (Some snapC2)).
  destruct (getPoolsStats plain "C" e) as [row|msg] eqn:E;
    [|vm_compute in E; discriminate E].
  exists row. split; [reflexivity|].
  destruct (proj2 (earnMultiplier_sign plain "C" e snapC1 snapC2
                     (Finite false 199 (-2)) (Finite false 2 0) row
                     eq_refl eq_refl eq_refl eq_refl eq_refl eq_refl E))
    as [H|H].
  - vm_compute. reflexivity.
  - exact H.
  - vm_compute in E. inversion E; subst row. discriminate H.
Defined.

(** X5: the rows of a run are computed one by one: [getStats] returns a
    list exactly when every listed address gets its row, and then the
    [k]-th row is what [getPoolsStats] computes for the [k]-th address
    from the entries fetched at the [k]-th reading of the clock. *)
Theorem getStats_rows_pointwise :
  forall lib tz clock dbClient rows,
    getStats lib tz clock dbClient = Ok rows <->
    length rows = length (listed dbClient) /\
    forall k a, nth_error (listed dbClient) k = Some a ->
      exists row, nth_error rows k = Some row /\
                  rowAt lib tz clock dbClient k a = Ok row.
Proof.
  intros lib tz clock db rows. unfold getStats. rewrite getStats_loop_Ok.
  fold (listed db). cbn [app plus]. split.
  - intros (news & -> & H). exact H.
  - intros H. exists rows. split; [reflexivity|exact H].
Qed.




(** X8: the two-network handler, when every reading of the clock falls on
    the UTC day of [now]: the response is that of the single-table
    handler run on each table; an error of the polygon table is the one
    reported. *)
Theorem handlerNetworks_same_day :
  forall lib tz clock now polygonPool optimismPool,
    (forall i, nowDate (clock i) = nowDate now) ->
    handlerNetworks lib tz clock polygonPool optimismPool
    = match handler lib tz (fun _ => now) polygonPool with
      | Status500 err => Status500 err
      | Status200 polygonStats =>
          match handler lib tz (fun _ => now) optimismPool with
          | Status500 err => Status500 err
          | Status200 optimismStats => Status200 (polygonStats, optimismStats)
          end
      end.
Proof.
  intros lib tz clock now p o H. unfold handlerNetworks, handler, getStats.
  rewrite (getStats_loop_ext lib tz clock (fun _ => now) p) by exact H.
  rewrite (getStats_loop_ext lib tz
             (fun i => clock (length (Prisma.findMany_distinct_address p) + i)%nat)
             (fun _ => now) o) by (intros j; apply H).
  destruct (getStats_loop lib tz (fun _ => now) p 0 _ []); [|reflexivity].
  destruct (getStats_loop lib tz (fun _ => now) o 0 _ []); reflexivity.
Qed.

Lemma handlerNetworks_witness :
  handlerNetworks plain JsDate.UTC (fun i => now + Z.of_nat (Nat.min i 5))
    (Prisma.table rowsA) (Prisma.table [snapBad])
  = Status500 "Error: [DecimalError] Invalid argument: ".
Proof.
  rewrite (handlerNetworks_same_day plain JsDate.UTC _ now).
  - vm_compute. reflexivity.
  - intros i. unfold nowDate, JsDate.setUTCHours0, JsDate.MakeDate, JsDate.Day,
      JsDate.msPerDay, now.
    assert (0 <= Z.of_nat (Nat.min i 5) <= 5) by lia.
    Z.div_mod_to_equations. lia.
Defined.

(** X9: whatever the host's time zone, the weekly window is one day wide,
    it ends five days before the yesterday window starts, and the three
    computed boundaries are UTC midnights. *)
Theorem window_geometry :
  forall tz now,
    weeklyDateMax tz now = weeklyDateMin tz now + msPerDay /\
    yesterdayDateMin tz now = weeklyDateMax tz now + 5 * msPerDay /\
    weeklyDateMin tz now mod msPerDay = 0 /\
    weeklyDateMax tz now mod msPerDay = 0 /\
    yesterdayDateMin tz now mod msPerDay = 0.
Proof.
  intros tz now. pose proof (window_boundaries tz now) as (A & B & C).
  cbv zeta in *. pose proof (nowDate_midnight now) as (_ & M).
  rewrite A, B, C. unfold msPerDay in *.
  repeat split; try lia; Z.div_mod_to_equations; lia.
Qed.

(** X10: on a host whose local time at UTC midnight is between zero and
    twenty-four hours ahead of UTC, the windows are the UTC day seven
    days back and the previous UTC day. *)
Theorem windows_east_of_Greenwich :
  forall tz now,
    0 <= tz (nowDate now) < msPerDay ->
    weeklyDateMin tz now = nowDate now - 7 * msPerDay /\
    weeklyDateMax tz now = nowDate now - 6 * msPerDay /\
    yesterdayDateMin tz now = nowDate now - msPerDay.
Proof.
  intros tz now H. pose proof (window_boundaries tz now) as (A & B & C).
  cbv zeta in *. rewrite (getDate_east tz now H) in *. lia.
Qed.

Lemma windows_east_witness :
  weeklyDateMin east2 now = nowDate now - 7 * msPerDay /\
  weeklyDateMax east2 now = nowDate now - 6 * msPerDay /\
  yesterdayDateMin east2 now = nowDate now - msPerDay.
Proof.
  apply (windows_east_of_Greenwich east2 now).
  unfold east2, fixedOffset, msPerDay. lia.
Defined.

(** X11: on a host behind UTC (by at most a day) the day of the month read
    at UTC midnight is that of the day before.  From the second of the
    month on, both windows start one day early: the weekly window is the
    UTC day eight days back and the yesterday window is two days wide.
    On the first of the month the day read is the last of the month
    before, the weekly window lies three weeks or more in the future and
    the yesterday window is empty: a table never has a yesterday entry. *)
Theorem windows_west_of_Greenwich :
  forall tz now,
    - msPerDay <= tz (nowDate now) < 0 ->
    (2 <= getUTCDate (nowDate now) ->
     weeklyDateMin tz now = nowDate now - 8 * msPerDay /\
     weeklyDateMax tz now = nowDate now - 7 * msPerDay /\
     yesterdayDateMin tz now = nowDate now - 2 * msPerDay) /\
    (getUTCDate (nowDate now) = 1 ->
     nowDate now + 20 * msPerDay <= weeklyDateMin tz now /\
     nowDate now + 26 * msPerDay <= yesterdayDateMin tz now /\
     forall rows a,
       yesterdayEntry (getPoolsEntries tz now (Prisma.table rows) a) = None).
Proof.
  intros tz now H. pose proof (window_boundaries tz now) as (A & B & C).
  cbv zeta in *. destruct (getDate_west tz now H) as [G2 G1]. split.
  - intros G. rewrite (G2 G) in *. lia.
  - intros G. specialize (G1 G).
    assert (Y : nowDate now + 26 * msPerDay <= yesterdayDateMin tz now)
      by (unfold msPerDay in *; lia).
    split; [unfold msPerDay in *; lia|]. split; [exact Y|].
    intros rows a. unfold getPoolsEntries. cbn [yesterdayEntry Prisma.table Prisma.findFirst].
    apply table_empty_window. unfold msPerDay in *. lia.
Qed.

Lemma windows_west_witness :
  (weeklyDateMin west5 now = nowDate now - 8 * msPerDay /\
   weeklyDateMax west5 now = nowDate now - 7 * msPerDay /\
   yesterdayDateMin west5 now = nowDate now - 2 * msPerDay) /\
  (nowDate march1 + 20 * msPerDay <= weeklyDateMin west5 march1 /\
   nowDate march1 + 26 * msPerDay <= yesterdayDateMin west5 march1 /\
   forall rows a,
     yesterdayEntry (getPoolsEntries west5 march1 (Prisma.table rows) a) = None).
Proof.
  split.
  - apply (proj1 (windows_west_of_Greenwich west5 now
                    ltac:(unfold west5, msPerDay; lia))).
    vm_compute. discriminate.
  - apply (proj2 (windows_west_of_Greenwich west5 march1
                    ltac:(unfold west5, msPerDay; lia))).
    vm_compute. reflexivity.
Defined.

(** X12: the entries [getPoolsEntries] reads from a table: the first and
    the last entry are snapshots of the address with the least and the
    greatest block time, present as soon as the address has a snapshot;
    the weekly and the yesterday entry are snapshots of the address
    inside their window, and are absent exactly when the window holds
    none. *)
Theorem entries_of_a_table :
  forall tz now rows a,
    let e := getPoolsEntries tz now (Prisma.table rows) a in
    let own := snapshots_of rows a in
    (own <> [] ->
     exists f l,
       firstEntry e = Some f /\ lastEntry e = Some l /\
       In f own /\ In l own /\
       forall p, In p own ->
         Prisma.blockTime f <= Prisma.blockTime p <= Prisma.blockTime l) /\
    (forall w, weeklyEntry e = Some w ->
       In w own /\
       weeklyDateMin tz now <= Prisma.blockTime w < weeklyDateMax tz now) /\
    (forall y, yesterdayEntry e = Some y ->
       In y own /\
       yesterdayDateMin tz now <= Prisma.blockTime y < nowDate now) /\
    (weeklyEntry e = None <->
     forall p, In p own ->
       ~ weeklyDateMin tz now <= Prisma.blockTime p < weeklyDateMax tz now) /\
    (yesterdayEntry e = None <->
     forall p, In p own ->
       ~ yesterdayDateMin tz now <= Prisma.blockTime p < nowDate now).
Proof.
  intros tz now rows a e own. unfold e, getPoolsEntries.
  cbn [firstEntry lastEntry weeklyEntry yesterdayEntry Prisma.table Prisma.findFirst].
  destruct (window_entry rows a (weeklyDateMin tz now) (weeklyDateMax tz now))
    as [Wk WN].
  destruct (window_entry rows a (yesterdayDateMin tz now) (nowDate now))
    as [Ye YN].
  split; [apply extreme_entries|].
  split; [exact Wk|]. split; [exact Ye|]. split; [exact WN|exact YN].
Qed.

(** X13: the pools are kept apart: what a table yields for an address, the
    four entries and hence the row, depends only on the snapshots of
    that address, in their order; the snapshots of other addresses
    change nothing. *)
Theorem row_depends_on_own_snapshots :
  forall lib tz now rows1 rows2 a,
    snapshots_of rows1 a = snapshots_of rows2 a ->
    getPoolsEntries tz now (Prisma.table rows1) a
    = getPoolsEntries tz now (Prisma.table rows2) a /\
    getPoolsStats lib a (getPoolsEntries tz now (Prisma.table rows1) a)
    = getPoolsStats lib a (getPoolsEntries tz now (Prisma.table rows2) a).
Proof.
  intros lib tz now rows1 rows2 a H.
  assert (E : getPoolsEntries tz now (Prisma.table rows1) a
              = getPoolsEntries tz now (Prisma.table rows2) a).
  { rewrite <- (getPoolsEntries_own tz now rows1 a).
    rewrite <- (getPoolsEntries_own tz now rows2 a). now rewrite H. }
  split; [exact E|now rewrite E].
Qed.

Lemma row_depends_on_own_snapshots_witness :
  getPoolsEntries JsDate.UTC now (Prisma.table (rowsA ++ rowsB)) "B"
  = getPoolsEntries JsDate.UTC now (Prisma.table rowsB) "B" /\
  getPoolsStats plain "B"
    (getPoolsEntries JsDate.UTC now (Prisma.table (rowsA ++ rowsB)) "B")
  = getPoolsStats plain "B"
      (getPoolsEntries JsDate.UTC now (Prisma.table rowsB) "B").
Proof.
  apply (row_depends_on_own_snapshots plain JsDate.UTC now (rowsA ++ rowsB) rowsB "B").
  reflexivity.
Defined.

(** X14: the first version of the handler and [getPoolsStats] build the same
    row, or throw the same error, from entries whose first and last
    snapshots are present, as long as no weekly or yesterday snapshot
    that is present has a NaN ratio; the readings of the clock the first
    version would fall back on are not used. *)
Theorem legacy_agrees_on_complete_data :
  forall lib nowFirst nowLast a e,
    firstEntry e <> None -> lastEntry e <> None ->
    (forall w r, weeklyEntry e = Some w ->
       calculateRatio lib (Some w) = Ok (Some r) -> isNaN r = false) ->
    (forall y r, yesterdayEntry e = Some y ->
       calculateRatio lib (Some y) = Ok (Some r) -> isNaN r = false) ->
    legacyStats lib nowFirst nowLast a e = getPoolsStats lib a e.
Proof.
  intros lib n1 n2 a e Hf Hl Hw Hy.
  destruct (firstEntry e) as [f|] eqn:Ef; [|congruence].
  destruct (lastEntry e) as [l|] eqn:El; [|congruence].
  unfold legacyStats, getPoolsStats.
  rewrite (legacyDays_present n1 n2 e f l Ef El). rewrite El.
  rewrite legacyRatio_present.
  destruct (calculateRatio lib (Some l)) as [[rl|]|msg] eqn:Rl; cbn [bind];
    [|apply calculateRatio_present in Rl; destruct Rl as [d Rl]; discriminate Rl
     |reflexivity].
  destruct (weeklyEntry e) as [w|] eqn:Ew.
  - rewrite legacyRatio_present.
    destruct (calculateRatio lib (Some w)) as [[rw|]|msg] eqn:Rw; cbn [bind];
      [|apply calculateRatio_present in Rw; destruct Rw as [d Rw]; discriminate Rw
       |reflexivity].
    rewrite (Hw w rw eq_refl Rw).
    destruct (yesterdayEntry e) as [y|] eqn:Ey.
    + rewrite legacyRatio_present.
      destruct (calculateRatio lib (Some y)) as [[ry|]|msg] eqn:Ry; cbn [bind];
        [|apply calculateRatio_present in Ry; destruct Ry as [d Ry]; discriminate Ry
         |reflexivity].
      rewrite (Hy y ry eq_refl Ry). reflexivity.
    + rewrite legacyRatio_absent. cbn [bind calculateRatio isNaN]. reflexivity.
  - rewrite legacyRatio_absent. cbn [bind calculateRatio isNaN].
    destruct (yesterdayEntry e) as [y|] eqn:Ey.
    + rewrite legacyRatio_present.
      destruct (calculateRatio lib (Some y)) as [[ry|]|msg] eqn:Ry; cbn [bind];
        [|apply calculateRatio_present in Ry; destruct Ry as [d Ry]; discriminate Ry
         |reflexivity].
      rewrite (Hy y ry eq_refl Ry). reflexivity.
    + rewrite legacyRatio_absent. cbn [bind calculateRatio isNaN]. reflexivity.
Qed.

Lemma legacy_agrees_witness :
  legacyStats plain 0 0 "C" entriesC = getPoolsStats plain "C" entriesC.
Proof.
  apply (legacy_agrees_on_complete_data plain 0 0 "C" entriesC).
  - discriminate.
  - discriminate.
  - intros w r H. discriminate H.
  - intros y r H R. cbn in H. inversion H; subst y.
    vm_compute in R. inversion R. reflexivity.
Defined.

(** X15: the first version of the handler, on a host with a fixed offset:
    the lower bounds are rolling, eight days and one day before the
    readings of the clock.  The upper bound of the average window is the
    second reading with its day of the month replaced by that of the
    lower bound plus two: six days back when the local day of the month
    is the ninth or later; otherwise, the lower bound lying in the month
    before, more than three weeks in the future, so that every snapshot
    of the last eight days, the newest included, is inside the window. *)
Theorem legacy_windows :
  forall off now1 now2 now3 now4,
    let tz := fixedOffset off in
    minAvgDate tz tz now1 = now1 - 8 * msPerDay /\
    minYesterdayDate tz tz now3 = now3 - msPerDay /\
    (getDate tz now2 = getDate tz now1 ->
     (9 <= getDate tz now1 ->
      maxAvgDate tz tz now1 now2 = now2 - 6 * msPerDay) /\
     (getDate tz now1 <= 8 ->
      now2 + 22 * msPerDay <= maxAvgDate tz tz now1 now2
      <= now2 + 25 * msPerDay /\
      forall rows a p,
        In p (snapshots_of rows a) ->
        now1 - 8 * msPerDay <= Prisma.blockTime p <= now2 ->
        weeklyEntry (legacyEntries tz tz now1 now2 now3 now4
                       (Prisma.table rows) a) <> None)).
Proof.
  intros off now1 now2 now3 now4 tz.
  assert (M : minAvgDate tz tz now1 = now1 + (-8) * msPerDay).
  { unfold minAvgDate, tz. rewrite setDate_shift.
    unfold getDate, LocalTime, fixedOffset, AVG_DAYS. lia. }
  split; [rewrite M; lia|]. split.
  { unfold minYesterdayDate, tz. rewrite setDate_shift.
    unfold getDate, LocalTime, fixedOffset. lia. }
  intros E.
  assert (X : maxAvgDate tz tz now1 now2
              = now2 + (DateFromTime (now1 + (-8) * msPerDay + off) + 2
                        - DateFromTime (now1 + off)) * msPerDay).
  { unfold maxAvgDate. rewrite M. unfold tz in *. rewrite setDate_shift.
    unfold getDate, LocalTime, fixedOffset in *. now rewrite E. }
  assert (D : Day (now1 + (-8) * msPerDay + off) = Day (now1 + off) - 8).
  { replace (now1 + (-8) * msPerDay + off) with (now1 + off + (-8) * msPerDay) by lia.
    rewrite Day_shift. lia. }
  destruct (days_back (now1 + off) _ 8 ltac:(lia) D) as [A B].
  unfold tz, getDate, LocalTime, fixedOffset in *. split.
  - intros G. rewrite X, (A ltac:(lia)). lia.
  - intros G. destruct (B G) as (L & HL & EL).
    assert (R : now2 + 22 * msPerDay <= maxAvgDate (fun _ => off) (fun _ => off) now1 now2
                <= now2 + 25 * msPerDay).
    { rewrite X, EL. unfold msPerDay. lia. }
    split; [exact R|].
    intros rows a p Hp Hb N. unfold legacyEntries in N.
    cbn [weeklyEntry Prisma.table Prisma.findFirst] in N.
    apply TableFacts.table_findFirst_None in N.
    assert (I : In p []).
    { rewrite <- N. apply TableFacts.filter_window. split; [exact Hp|].
      rewrite M. unfold msPerDay in *. lia. }
    destruct I.
Qed.

Lemma legacy_windows_witness :
  (maxAvgDate UTC UTC march15 march15 = march15 - 6 * msPerDay) /\
  (march5 + 22 * msPerDay <= maxAvgDate UTC UTC march5 march5
   <= march5 + 25 * msPerDay).
Proof.
  split.
  - apply (proj2 (proj2 (legacy_windows 0 march15 march15 march15 march15)) eq_refl).
    vm_compute. discriminate.
  - apply (proj2 (proj2 (legacy_windows 0 march5 march5 march5 march5)) eq_refl).
    vm_compute. discriminate.
Defined.

(** X16: when the first and the last entry carry the same block time,
    as they do for an address with a single snapshot, no day has elapsed
    (the count is +0, or NaN for a block time beyond the range of
    Numbers), and [baseApy] is never a plain number: it is the text
    Infinity, -100.000000 or NaN. *)
Theorem same_block_time_baseApy :
  forall lib a e f l,
    firstEntry e = Some f -> lastEntry e = Some l ->
    Prisma.blockTime f = Prisma.blockTime l ->
    (daysElapsedSinceIndexed e = SpecFloat.S754_zero false \/
     daysElapsedSinceIndexed e = SpecFloat.S754_nan) /\
    (forall row,
       getPoolsStats lib a e = Ok row ->
       baseApy row = "Infinity" \/ baseApy row = "-100.000000" \/
       baseApy row = "NaN") /\
    (forall tz now rows,
       snapshots_of rows a = [l] ->
       firstEntry (getPoolsEntries tz now (Prisma.table rows) a) = Some l /\
       lastEntry (getPoolsEntries tz now (Prisma.table rows) a) = Some l).
Proof.
  intros lib a e f l Hf Hl Ht.
  assert (D : daysElapsedSinceIndexed e = SpecFloat.S754_zero false \/
              daysElapsedSinceIndexed e = SpecFloat.S754_nan).
  { unfold daysElapsedSinceIndexed. rewrite Hf, Hl, Ht.
    apply (days_of_equal_times (Prisma.blockTime l)). }
  split; [exact D|]. split.
  - intros row H. apply getPoolsStats_inv in H.
    destruct H as (lr & wr & yr & El & _ & _ & ->).
    rewrite Hl in El. destruct (calculateRatio_present lib _ _ El) as [r ->].
    cbn [rowOf baseApy]. destruct D as [-> | ->].
    + apply baseApy_zero_days.
    + right. right. apply baseApy_nan_days.
  - intros tz now rows H. unfold getPoolsEntries.
    cbn [firstEntry lastEntry Prisma.table Prisma.findFirst].
    split; apply table_single; exact H.
Qed.

Lemma same_block_time_witness :
  daysElapsedSinceIndexed entriesB = SpecFloat.S754_zero false /\
  exists row,
    getPoolsStats plain "B" entriesB = Ok row /\ baseApy row = "Infinity".
Proof.
  destruct (same_block_time_baseApy plain "B" entriesB snapB snapB
              eq_refl eq_refl eq_refl) as (D & B & _).
  split.
  - destruct D as [D|D]; [exact D|vm_compute in D; discriminate D].
  - destruct (getPoolsStats plain "B" entriesB) as [row|msg] eqn:E;
      [|vm_compute in E; discriminate E].
    exists row. split; [reflexivity|].
    destruct (B row eq_refl) as [H|[H|H]]; [exact H| |];
      vm_compute in E; inversion E; subst row; discriminate H.
Defined.

(** X17: on a host at or ahead of UTC (by less than a day) and a store
    given as a table, the metrics of a row appear exactly when the data
    are there: [baseApy] is computed if and only if the address has a
    snapshot, [dailyBasedApr] if and only if it has one in the previous
    UTC day, [avgApy] and [weeklyBasedApr] if and only if it has one in
    the UTC day seven days back. *)
Theorem metrics_appear_with_data :
  forall lib tz now rows a row,
    0 <= tz (nowDate now) < msPerDay ->
    getPoolsStats lib a (getPoolsEntries tz now (Prisma.table rows) a) = Ok row ->
    let inside lo hi :=
      exists p, In p (snapshots_of rows a) /\ lo <= Prisma.blockTime p < hi in
    (baseApy row <> placeholder <-> snapshots_of rows a <> []) /\
    (dailyBasedApr row <> placeholder <->
     inside (nowDate now - msPerDay) (nowDate now)) /\
    (avgApy row <> placeholder <->
     inside (nowDate now - 7 * msPerDay) (nowDate now - 6 * msPerDay)) /\
    (weeklyBasedApr row <> placeholder <->
     inside (nowDate now - 7 * msPerDay) (nowDate now - 6 * msPerDay)).
Proof.
  intros lib tz now rows a row East H inside.
  pose proof (window_boundaries tz now) as (Wmin & Wmax & Ymin). cbv zeta in *.
  rewrite (getDate_east tz now East) in *.
  replace (getUTCDate (nowDate now) - getUTCDate (nowDate now) - 7) with (-7) in Wmin by lia.
  replace (getUTCDate (nowDate now) - getUTCDate (nowDate now) - 6) with (-6) in Wmax by lia.
  replace (getUTCDate (nowDate now) - getUTCDate (nowDate now) - 1) with (-1) in Ymin by lia.
  set (e := getPoolsEntries tz now (Prisma.table rows) a) in *.
  destruct (window_entry rows a (weeklyDateMin tz now) (weeklyDateMax tz now))
    as [Wk WN].
  destruct (window_entry rows a (yesterdayDateMin tz now) (nowDate now))
    as [Ye YN].
  change (Prisma.table_findFirst rows _) with (weeklyEntry e) in Wk, WN.
  change (Prisma.table_findFirst rows _) with (yesterdayEntry e) in Ye, YN.
  rewrite Wmin, Wmax in Wk, WN. rewrite Ymin in Ye, YN.
  replace (nowDate now + -7 * msPerDay) with (nowDate now - 7 * msPerDay) in Wk, WN by lia.
  replace (nowDate now + -6 * msPerDay) with (nowDate now - 6 * msPerDay) in Wk, WN by lia.
  replace (nowDate now + -1 * msPerDay) with (nowDate now - msPerDay) in Ye, YN by lia.
  pose proof (extreme_entries rows a) as FL.
  apply getPoolsStats_inv in H. destruct H as (lr & wr & yr & El & Ew & Ey & ->).
  destruct (rowOf_placeholder lib a e lr wr yr) as (B & A & W & D). cbv zeta in B, A, W, D.
  rewrite <- (ratio_absent lib _ _ El) in B, A, W, D.
  rewrite <- (ratio_absent lib _ _ Ew) in A, W.
  rewrite <- (ratio_absent lib _ _ Ey) in D.
  assert (L : lastEntry e <> None <-> snapshots_of rows a <> []).
  { split.
    - intros N E0. apply N. unfold e, getPoolsEntries.
      cbn [lastEntry Prisma.table Prisma.findFirst]. now apply table_none.
    - intros N. destruct (FL N) as (f & l & _ & E0 & _).
      unfold e, getPoolsEntries. cbn [lastEntry Prisma.table Prisma.findFirst].
      rewrite E0. discriminate. }
  assert (In_window : forall o lo hi,
            (forall w, o = Some w ->
               In w (snapshots_of rows a) /\ lo <= Prisma.blockTime w < hi) ->
            (o = None <->
             forall p, In p (snapshots_of rows a) ->
                       ~ lo <= Prisma.blockTime p < hi) ->
            (o <> None <-> inside lo hi)).
  { intros o lo hi S N. split.
    - intros NE. destruct o as [w|]; [|congruence]. exists w. now apply S.
    - intros (p & Hp & Hb) E0. exact (proj1 N E0 p Hp Hb). }
  pose proof (In_window _ _ _ Wk WN) as IW.
  pose proof (In_window _ _ _ Ye YN) as IY.
  assert (HasLast : forall lo hi, inside lo hi -> lastEntry e <> None).
  { intros lo hi (p & Hp & _). apply L. intros E0. rewrite E0 in Hp. destruct Hp. }
  split; [rewrite B; exact L|].
  split; [|split].
  - rewrite D. split.
    + intros N. apply IY. intros E0. apply N. now right.
    + intros I [E0|E0]; [exact (HasLast _ _ I E0)|]. apply IY in I. contradiction.
  - rewrite A. split.
    + intros N. apply IW. intros E0. apply N. now right.
    + intros I [E0|E0]; [exact (HasLast _ _ I E0)|]. apply IW in I. contradiction.
  - rewrite W. split.
    + intros N. apply IW. intros E0. apply N. now right.
    + intros I [E0|E0]; [exact (HasLast _ _ I E0)|]. apply IW in I. contradiction.
Qed.

Lemma metrics_appear_witness :
  exists row,
    getPoolsStats plain "C"
      (getPoolsEntries JsDate.UTC now (Prisma.table [snapC1; snapC2]) "C")
    = Ok row /\
    dailyBasedApr row <> placeholder.
Proof.
  destruct (getPoolsStats plain "C"
              (getPoolsEntries JsDate.UTC now (Prisma.table [snapC1; snapC2]) "C"))
    as [row|msg] eqn:E; [|vm_compute in E; discriminate E].
  exists row. split; [reflexivity|].
  pose proof (metrics_appear_with_data plain JsDate.UTC now [snapC1; snapC2] "C" row
                ltac:(unfold JsDate.UTC, msPerDay; lia) E) as M.
  cbv zeta in M. destruct M as (_ & D & _). apply D.
  exists snapC1. split; [left; reflexivity|].
  vm_compute. split; [discriminate|reflexivity].
Defined.

(** X18: one unreadable string is enough: when the last, weekly or
    yesterday entry of a listed address is a snapshot whose balance or
    whose shares the constructor rejects, the handler answers with
    status 500 and sends no rows. *)
Theorem unreadable_snapshot_fails_the_run :
  forall lib tz clock dbClient k a p,
    nth_error (listed dbClient) k = Some a ->
    (let e := getPoolsEntries tz (clock k) dbClient a in
     lastEntry e = Some p \/ weeklyEntry e = Some p \/ yesterdayEntry e = Some p) ->
    ((exists msg, fromString lib (Prisma.currentUsdBalance p) = Throw msg) \/
     (exists msg, fromString lib (Prisma.totalShares p) = Throw msg)) ->
    exists err, handler lib tz clock dbClient = Status500 err.
Proof.
  intros lib tz clock db k a p Hk He Hbad. cbv zeta in He.
  destruct (getPoolsStats_rejects lib a _ p He (calculateRatio_rejects lib p Hbad))
    as [msg T].
  unfold handler. destruct (getStats lib tz clock db) as [rows|m] eqn:E; [|eauto].
  unfold getStats in E. apply getStats_loop_Ok in E.
  destruct E as (news & _ & _ & Hrows). fold (listed db) in Hrows.
  destruct (Hrows k a Hk) as (row & _ & R). unfold rowAt in R. cbn [plus] in R.
  congruence.
Qed.

Lemma unreadable_snapshot_witness :
  exists err,
    handler plain JsDate.UTC (fun _ => now) (Prisma.table (rowsA ++ [snapBad]))
    = Status500 err.
Proof.
  apply (unreadable_snapshot_fails_the_run plain JsDate.UTC (fun _ => now)
           (Prisma.table (rowsA ++ [snapBad])) 1 "X" snapBad).
  - reflexivity.
  - left. reflexivity.
  - left. exists "[DecimalError] Invalid argument: ". reflexivity.
Defined.

(** X19: the addresses of a run are those of the table, so each of them
    has a snapshot: in a response of the handler over a table no row has
    the placeholder as [baseApy]. *)
Theorem listed_addresses_have_baseApy :
  forall lib tz clock rows stats,
    handler lib tz clock (Prisma.table rows) = Status200 stats ->
    forall row, In row stats -> baseApy row <> placeholder.
Proof.
  intros lib tz clock rows stats H row Hrow. unfold handler in H.
  destruct (getStats lib tz clock (Prisma.table rows)) as [rs|msg] eqn:E;
    [|discriminate H].
  inversion H; subst rs. clear H. unfold getStats in E.
  apply getStats_loop_Ok in E. destruct E as (news & Es & Hl & Hk).
  cbn [app] in Es. subst news.
  apply In_nth_error in Hrow. destruct Hrow as [k Hk'].
  assert (Lk : (k < length (map Prisma.address
                              (Prisma.findMany_distinct_address (Prisma.table rows))))%nat).
  { rewrite <- Hl. apply nth_error_Some. congruence. }
  destruct (nth_error (map Prisma.address
                         (Prisma.findMany_distinct_address (Prisma.table rows))) k)
    as [a|] eqn:Ea; [|apply nth_error_None in Ea; lia].
  destruct (Hk k a Ea) as (row' & Hr & R). rewrite Hk' in Hr. inversion Hr; subst row'.
  cbn [plus] in R. unfold rowAt in R.
  assert (Ia : In a (map Prisma.address rows)).
  { apply nth_error_In in Ea. cbn [Prisma.table Prisma.findMany_distinct_address] in Ea.
    apply distinct_In in Ea. tauto. }
  assert (NE : snapshots_of rows a <> []).
  { apply in_map_iff in Ia. destruct Ia as (p & Ep & Ip).
    intros E0. assert (I : In p (snapshots_of rows a)).
    { unfold snapshots_of. apply filter_In. split; [exact Ip|].
      rewrite Ep. apply String.eqb_refl. }
    rewrite E0 in I. destruct I. }
  destruct (extreme_entries rows a NE) as (f & l & _ & El & _).
  apply getPoolsStats_inv in R. destruct R as (lr & wr & yr & Rl & _ & _ & ->).
  destruct (rowOf_placeholder lib a
              (getPoolsEntries tz (clock k) (Prisma.table rows) a) lr wr yr)
    as (B & _). cbv zeta in B. rewrite B.
  rewrite <- (ratio_absent lib _ _ Rl).
  unfold getPoolsEntries. cbn [lastEntry Prisma.table Prisma.findFirst].
  rewrite El. discriminate.
Qed.

Lemma listed_addresses_witness :
  exists stats,
    handler plain JsDate.UTC (fun _ => now) (Prisma.table rowsB) = Status200 stats /\
    forall row, In row stats -> baseApy row <> placeholder.
Proof.
  destruct (handler plain JsDate.UTC (fun _ => now) (Prisma.table rowsB))
    as [stats|err] eqn:E; [|vm_compute in E; discriminate E].
  exists stats. split; [reflexivity|].
  exact (listed_addresses_have_baseApy plain JsDate.UTC (fun _ => now) rowsB stats E).
Defined.

(** X20: the two scale factors cancel: when both strings are read as
    non-zero values of at most 20 digits (with exponents six above the
    lower end of the range), the ratio is the single decimal.js quotient
    of the balance by the shares, as if neither had been divided by
    1,000,000. *)
Theorem ratio_scale_cancels :
  forall lib p u s,
    fromString lib (Prisma.currentUsdBalance p) = Ok u ->
    fromString lib (Prisma.totalShares p) = Ok s ->
    representable u -> representable s ->
    minE + 6 <= xe u -> minE + 6 <= xe s ->
    calculateRatio lib (Some p) = Ok (Some (div u s)).
Proof.
  intros lib p u s Hu Hs Ru Rs Eu Es.
  cbn [calculateRatio]. rewrite Hu. cbn [bind]. rewrite Hs. cbn [bind].
  destruct u as [|?|nu cu qu]; try contradiction.
  destruct s as [|?|ns cs qs]; try contradiction.
  cbn [xe] in Eu, Es. unfold USD_SCALE, SHARES_SCALE.
  rewrite (div_scale nu cu qu Ru Eu), (div_scale ns cs qs Rs Es).
  now rewrite div_shift.
Qed.

Lemma ratio_scale_cancels_witness :
  calculateRatio plain (Some snapC1)
  = Ok (Some (div (Finite false 199 4) (Finite false 1 6))).
Proof.
  apply (ratio_scale_cancels plain snapC1 (Finite false 199 4) (Finite false 1 6));
    try reflexivity;
    try (cbn [representable]; repeat split; try discriminate;
         vm_compute; congruence);
    vm_compute; discriminate.
Defined.

(** X21: the simple rates are exact whenever decimal.js can hold the
    intermediate values: if the quotient of the two ratios, that quotient
    less one and its products by the yearly factor and by 100 can each
    be written with at most 20 digits, [dailyBasedApr] is the text of
    ((last / yesterday) - 1) * 365 * 100, and [weeklyBasedApr] that of
    ((last / weekly) - 1) * 52.142857142857146 * 100: the weekly factor
    is the decimal that prints the Number 365 / 7. *)
Theorem simple_rates_exact :
  forall lib a e row l rl o ro q d m v,
    getPoolsStats lib a e = Ok row ->
    lastEntry e = Some l ->
    calculateRatio lib (Some l) = Ok (Some rl) ->
    calculateRatio lib (Some o) = Ok (Some ro) ->
    isFinite rl = true -> isZero rl = false ->
    isFinite ro = true -> isZero ro = false ->
    representable q -> representable d ->
    representable m -> representable v ->
    (Qvalue q * Qvalue ro == Qvalue rl)%Q ->
    (Qvalue d == Qvalue q - 1)%Q ->
    (yesterdayEntry e = Some o ->
     (Qvalue m == Qvalue d * 365)%Q ->
     (Qvalue v == Qvalue m * 100)%Q ->
     dailyBasedApr row = toFixed v 6 /\
     (Qvalue v == (Qvalue rl / Qvalue ro - 1) * 365 * 100)%Q) /\
    (weeklyEntry e = Some o ->
     (Qvalue m == Qvalue d * (52142857142857146 # 1000000000000000))%Q ->
     (Qvalue v == Qvalue m * 100)%Q ->
     weeklyBasedApr row = toFixed v 6 /\
     (Qvalue v == (Qvalue rl / Qvalue ro - 1)
                  * (52142857142857146 # 1000000000000000) * 100)%Q).
Proof.
  intros lib a e row l rl o ro q d m v H Hl Rl Ro Fl Zl Fo Zo Rq Rd Rm Rv Eq Ed.
  apply getPoolsStats_inv in H.
  destruct H as (lr & wr & yr & El & Ew & Ey & ->).
  rewrite Hl, Rl in El. inversion El; subst lr. clear El.
  cbn [rowOf weeklyBasedApr dailyBasedApr].
  assert (Dq : div rl ro = q) by (apply div_exact; assumption).
  destruct (representable_finite q Rq) as [Fq _].
  destruct (representable_finite d Rd) as [Fd _].
  destruct (representable_finite m Rm) as [Fm _].
  assert (Sd : sub q (ofZ 1) = d).
  { apply sub_exact; [exact Fq|reflexivity|exact Rd|]. rewrite Ed.
    rewrite ofZ_1. cbn [Qvalue]. change ((10 # 1) ^ 0)%Q with 1%Q.
    change (inject_Z (Z.of_N 1)) with 1%Q. ring. }
  assert (NZo : ~ (Qvalue ro == 0)%Q).
  { apply representable_nonzero, result_form_representable;
      [exact (calculateRatio_form lib _ _ Ro)|exact Fo|exact Zo]. }
  assert (Quo : (Qvalue q == Qvalue rl / Qvalue ro)%Q).
  { rewrite <- Eq. field. exact NZo. }
  split.
  - intros Ho Em Ev. rewrite Ho, Ro in Ey. inversion Ey; subst yr.
    unfold dailyAprOf. rewrite Dq, Sd.
    assert (M1 : mul d (ofZ 365) = m).
    { apply mul_exact; [exact Fd|reflexivity|exact Rm|]. rewrite Em, ofZ_365.
      cbn [Qvalue]. change ((10 # 1) ^ 0)%Q with 1%Q. reflexivity. }
    assert (M2 : mul m (ofZ 100) = v).
    { apply mul_exact; [exact Fm|reflexivity|exact Rv|]. rewrite Ev, ofZ_100.
      cbn [Qvalue]. change ((10 # 1) ^ 2)%Q with (100 # 1)%Q.
      change (inject_Z (Z.of_N 1)) with 1%Q. ring. }
    rewrite M1, M2. split; [reflexivity|]. rewrite Ev, Em, Ed, Quo. ring.
  - intros Ho Em Ev. rewrite Ho, Ro in Ew. inversion Ew; subst wr.
    unfold weeklyAprOf. rewrite Dq, Sd.
    assert (W : ofNumber (JsNumber.div (JsNumber.ofZ 365) (JsNumber.ofZ AVG_DAYS))
                = Finite false 52142857142857146 (-15)) by (vm_compute; reflexivity).
    rewrite W.
    assert (M1 : mul d (Finite false 52142857142857146 (-15)) = m).
    { apply mul_exact; [exact Fd|reflexivity|exact Rm|]. rewrite Em.
      apply Qmult_comp; [reflexivity|]. vm_compute. reflexivity. }
    assert (M2 : mul m (ofZ 100) = v).
    { apply mul_exact; [exact Fm|reflexivity|exact Rv|]. rewrite Ev, ofZ_100.
      cbn [Qvalue]. change ((10 # 1) ^ 2)%Q with (100 # 1)%Q.
      change (inject_Z (Z.of_N 1)) with 1%Q. ring. }
    rewrite M1, M2. split; [reflexivity|]. rewrite Ev, Em, Ed, Quo. ring.
Qed.

Lemma simple_rates_witness :
  exists row,
    getPoolsStats plain "A" (entries (Some snapA1) (Some snapA2) None (Some snapA1))
    = Ok row /\
    dailyBasedApr row = toFixed (Finite false 365 1) 6 /\
    dailyBasedApr row = "3650.000000".
Proof.
  set (e := entries (Some snapA1) (Some snapA2) None (Some snapA1)).
  destruct (getPoolsStats plain "A" e) as [row|msg] eqn:E;
    [|vm_compute in E; discriminate E].
  assert (R : forall c q, (c <> 0)%N -> (c mod 10 <> 0)%N -> ndigits c <= 20 ->
                minE <= sciexp c q <= maxE -> representable (Finite false c q)).
  { intros c q H1 H2 H3 H4. cbn [representable]. auto. }
  destruct (simple_rates_exact plain "A" e row snapA2 (Finite false 11 (-1))
              snapA1 (Finite false 1 0)
              (Finite false 11 (-1)) (Finite false 1 (-1))
              (Finite false 365 (-1)) (Finite false 365 1)
              E eq_refl eq_refl eq_refl eq_refl eq_refl eq_refl eq_refl
              ltac:(apply R; vm_compute; try split; congruence)
              ltac:(apply R; vm_compute; try split; congruence)
              ltac:(apply R; vm_compute; try split; congruence)
              ltac:(apply R; vm_compute; try split; congruence)
              ltac:(vm_compute; reflexivity) ltac:(vm_compute; reflexivity))
    as [D _].
  destruct (D eq_refl ltac:(vm_compute; reflexivity) ltac:(vm_compute; reflexivity))
    as [T _].
  exists row. split; [reflexivity|]. split; [exact T|].
  rewrite T. vm_compute. reflexivity.
Defined.

(** X22: the day count is exact.  For block times from 1970 on (below
    2^53, which every Date satisfies) with the first not after the last,
    [daysElapsedSinceIndexed] is the integer obtained by rounding the
    elapsed milliseconds up to whole days: the subtraction, the division
    and [Math.ceil] on doubles lose nothing.  It is therefore at least 1
    as soon as the two block times differ. *)
Theorem days_elapsed_exact :
  forall e first last,
    firstEntry e = Some first -> lastEntry e = Some last ->
    0 <= Prisma.blockTime first ->
    Prisma.blockTime first <= Prisma.blockTime last ->
    Prisma.blockTime last < 2 ^ 53 ->
    daysElapsedSinceIndexed e
    = JsNumber.ofZ ((Prisma.blockTime last - Prisma.blockTime first + 86399999)
                    / 86400000) /\
    (Prisma.blockTime first < Prisma.blockTime last ->
     JsNumber.leb (JsNumber.ofZ 1) (daysElapsedSinceIndexed e) = true).
Proof.
  intros e first last Hf Hl H0 Hfl H53.
  assert (D : daysElapsedSinceIndexed e
              = JsNumber.ofZ ((Prisma.blockTime last - Prisma.blockTime first + 86399999)
                              / 86400000)).
  { unfold daysElapsedSinceIndexed. rewrite Hf, Hl. cbv zeta.
    now apply days_between. }
  split; [exact D|]. intros Hlt. rewrite D. apply leb_one_ofZ.
  change (2 ^ 53) with 9007199254740992 in *. Z.div_mod_to_equations. lia.
Qed.

Lemma days_elapsed_exact_witness :
  daysElapsedSinceIndexed entriesC = JsNumber.ofZ 2 /\
  JsNumber.leb (JsNumber.ofZ 1) (daysElapsedSinceIndexed entriesC) = true.
Proof.
  destruct (days_elapsed_exact entriesC snapC1 snapC2 eq_refl eq_refl) as [D L].
  - vm_compute. discriminate.
  - vm_compute. discriminate.
  - vm_compute. reflexivity.
  - split; [exact D|]. apply L. vm_compute. reflexivity.
Defined.
